(** * Tales of Eden: pagination engine and codex reference index

    A shallow embedding of [build_books.py] (inline renderer, paragraph
    splitter, page packer and page repair pass) and of the sort-and-dedupe
    stage of [build_codex_refs.py], with the properties the specification
    states about them.

    Python values are modelled as follows.
    - [str] is a list of Unicode code points ([N]); [len] is the list length
      as an unbounded integer ([Z]).
    - [list] is [list]; the dictionary [refs] is a [gmap]; the set [seen] is
      a [gset].
    - the local variables of a loop are an explicit state that a step
      function transforms; a [for] loop is a left fold of the step. *)

From Stdlib Require Import ZArith NArith Lia String Ascii.
From stdpp Require Import gmap sorting.

Local Open Scope Z_scope.

(** ** Strings *)

Abbreviation char := N.
Abbreviation str := (list N).

(** String literals of the source, written as Rocq strings. *)
Fixpoint lit (s : string) : str :=
  match s with
  | EmptyString => []
  | String a r => N_of_ascii a :: lit r
  end.

Definition len {A} (l : list A) : Z := Z.of_nat (length l).

Definition nonempty {A} (l : list A) : bool :=
  match l with [] => false | _ :: _ => true end.

Definition str_eqb (s t : str) : bool := bool_decide (s = t).

(** The characters [str.isspace] accepts, which are the ones [str.strip],
    [str.lstrip] and [str.rstrip] remove when called without argument. *)
Definition is_space (c : char) : bool :=
  (((9 <=? c) && (c <=? 13)) || ((28 <=? c) && (c <=? 32))
   || (c =? 133) || (c =? 160) || (c =? 5760)
   || ((8192 <=? c) && (c <=? 8202))
   || (c =? 8232) || (c =? 8233) || (c =? 8239) || (c =? 8287)
   || (c =? 12288))%N.

Fixpoint drop_while {A} (f : A -> bool) (l : list A) : list A :=
  match l with
  | [] => []
  | x :: r => if f x then drop_while f r else l
  end.

Definition lstrip (s : str) : str := drop_while is_space s.
Definition rstrip (s : str) : str := rev (drop_while is_space (rev s)).
Definition strip (s : str) : str := rstrip (lstrip s).

(** [s.rstrip(chars)] *)
Definition rstrip_chars (chars : str) (s : str) : str :=
  rev (drop_while (fun c => existsb (N.eqb c) chars) (rev s)).

(** [s.startswith(p)] *)
Fixpoint startswith (p s : str) : bool :=
  match p, s with
  | [], _ => true
  | a :: p', b :: s' => (a =? b)%N && startswith p' s'
  | _ :: _, [] => false
  end.

(** [sep.join(l)] *)
Fixpoint join (sep : str) (l : list str) : str :=
  match l with
  | [] => []
  | [x] => x
  | x :: r => x ++ sep ++ join sep r
  end.

(** [not s.strip()]: the string has whitespace only ([strip_nil]). *)
Definition blank (s : str) : bool := forallb is_space s.

Definition cons_head (x : char) (l : list str) : list str :=
  match l with
  | [] => [[x]]
  | h :: t => (x :: h) :: t
  end.

(** [s.split(sep)] for a non-empty [sep]: the occurrences of [sep] are found
    from left to right and do not overlap. [skip] counts the characters of
    an occurrence already found that are still to be passed over. *)
Fixpoint split_go (sep : str) (skip : nat) (s : str) : list str :=
  match s with
  | [] => [[]]
  | x :: r =>
      match skip with
      | S k => split_go sep k r
      | O =>
          if startswith sep s
          then [] :: split_go sep (length sep - 1) r
          else cons_head x (split_go sep 0 r)
      end
  end.

Definition split (sep s : str) : list str := split_go sep 0 s.

(** The line feed and the carriage return. *)
Definition nl : char := 10%N.
Definition NL : str := [nl].
Definition CR : str := [13%N].
(** The blank-line separator between the paragraphs of a page. *)
Definition SEP : str := NL ++ NL.

(** What the splitter guarantees of a paragraph: it is not empty, it has no
    empty line inside (no two newlines in a row) and it is trimmed. *)
Fixpoint no_double_nl (s : str) : bool :=
  match s with
  | [] => true
  | a :: r =>
      match r with
      | [] => true
      | b :: _ => negb ((a =? nl)%N && (b =? nl)%N)
      end && no_double_nl r
  end.

Definition no_nl (s : str) : bool := forallb (fun c => negb (c =? nl)%N) s.

Definition is_paragraph (p : str) : bool :=
  nonempty p && no_double_nl p && str_eqb (strip p) p.

(** What the splitter guarantees of a line it keeps: it has no newline and
    it is not blank. *)
Definition line_ok (l : str) : bool := no_nl l && negb (blank l).

(** The text is not empty and does not start with a newline. *)
Definition starts_ok (s : str) : bool :=
  match s with
  | [] => false
  | c :: _ => negb (c =? nl)%N
  end.

(** ** build_books.py: constants *)

Definition TARGET_CHARS_PER_PAGE : Z := 1000.
Definition MIN_CHARS_PER_PAGE : Z := 450.
Definition PAGE_BREAK : str := lit "__PAGE_BREAK__".
Definition SENTINEL : str := lit "===PAGE===".
Definition HEADING : str := lit "# ".

(** ** build_books.py: inline formatting *)

Definition STAR : char := 42%N.
Definition QUOTE : char := 34%N.

(** [html.escape(text)] with its default [quote=True]. *)
Definition escape_char (c : char) : str :=
  if (c =? 38)%N then lit "&amp;"
  else if (c =? 60)%N then lit "&lt;"
  else if (c =? 62)%N then lit "&gt;"
  else if (c =? 34)%N then lit "&quot;"
  else if (c =? 39)%N then lit "&#x27;"
  else [c].

Definition html_escape (s : str) : str := flat_map escape_char s.

(** The longest prefix without a star, and what follows it: what the greedy
    [[^*]+] takes. *)
Fixpoint span_nonstar (s : str) : str * str :=
  match s with
  | [] => ([], [])
  | c :: r =>
      if (c =? STAR)%N then ([], s)
      else let (a, b) := span_nonstar r in (c :: a, b)
  end.

(** The text has no star. *)
Definition star_free (s : str) : bool :=
  forallb (fun c => negb (c =? STAR)%N) s.

(** A match of [\*{k}([^*]+)\*{k}] at the start of [s]: the group, if any.
    After [k] stars the group takes every character up to the next star, and
    giving some of them back cannot help, because the character after the
    group must be a star. *)
Definition match_emph (k : nat) (s : str) : option str :=
  if startswith (repeat STAR k) s then
    let (body, rest) := span_nonstar (skipn k s) in
    if nonempty body && startswith (repeat STAR k) rest
    then Some body else None
  else None.

(** [re.sub(r"\*{k}([^*]+)\*{k}", opening + r"\1" + closing, s)]: matches are
    taken from left to right and do not overlap; [skip] counts the characters
    of the current match still to be passed over. *)
Fixpoint sub_go (k : nat) (opening closing : str) (skip : nat) (s : str) : str :=
  match s with
  | [] => []
  | c :: r =>
      match skip with
      | S n => sub_go k opening closing n r
      | O =>
          match match_emph k s with
          | Some body =>
              opening ++ body ++ closing
              ++ sub_go k opening closing (k + length body + k - 1) r
          | None => c :: sub_go k opening closing 0 r
          end
      end
  end.

Definition sub_emph (k : nat) (opening closing s : str) : str :=
  sub_go k opening closing 0 s.

Definition inline_format (text : str) : str :=
  let safe := html_escape text in
  let safe := sub_emph 3 (lit "<strong><em>") (lit "</em></strong>") safe in
  let safe := sub_emph 2 (lit "<strong>") (lit "</strong>") safe in
  let safe := sub_emph 1 (lit "<em>") (lit "</em>") safe in
  safe.

(** ** Marked-up lines

    The lines the docstring of [inline_format] speaks of: stretches of text
    without a star, and stretches of emphasised text, a run without a star
    between two markers of one, two or three stars. *)

Inductive segment :=
| Plain (s : str)
| Emph (k : nat) (s : str).

Definition seg_source (g : segment) : str :=
  match g with
  | Plain s => s
  | Emph k s => repeat STAR k ++ s ++ repeat STAR k
  end.

(** The line as it is written. *)
Definition source (segs : list segment) : str := concat (map seg_source segs).

Definition markup_open (k : nat) : str :=
  match k with
  | 1%nat => lit "<em>"
  | 2%nat => lit "<strong>"
  | _ => lit "<strong><em>"
  end.

Definition markup_close (k : nat) : str :=
  match k with
  | 1%nat => lit "</em>"
  | 2%nat => lit "</strong>"
  | _ => lit "</em></strong>"
  end.

Definition seg_html (g : segment) : str :=
  match g with
  | Plain s => html_escape s
  | Emph k s => markup_open k ++ html_escape s ++ markup_close k
  end.

(** The line with every emphasised stretch inside the markup of its own
    marker, and all text escaped. *)
Definition rendered (segs : list segment) : str := concat (map seg_html segs).

(** The text of a stretch is not empty and has no star; a marker has at
    least one star and at most [k]. *)
Definition seg_fits (k : nat) (g : segment) : bool :=
  match g with
  | Plain s => nonempty s && star_free s
  | Emph j s => (1 <=? j)%nat && (j <=? k)%nat && nonempty s && star_free s
  end.

(** No two emphasised stretches are next to each other. *)
Fixpoint separated (segs : list segment) : bool :=
  match segs with
  | [] => true
  | g :: r =>
      match g, r with
      | Emph _ _, Emph _ _ :: _ => false
      | _, _ => separated r
      end
  end.

(** What the substitution for the marker of [k] stars makes of a stretch,
    and what the escaping makes of it. *)
Definition pass (k : nat) (o c : str) (g : segment) : segment :=
  match g with
  | Plain _ => g
  | Emph j s => if (j =? k)%nat then Plain (o ++ s ++ c) else g
  end.

Definition seg_escape (g : segment) : segment :=
  match g with
  | Plain s => Plain (html_escape s)
  | Emph k s => Emph k (html_escape s)
  end.

(** ** build_books.py: block to HTML *)

Definition H2_OPEN : str :=
  lit "<h2 class=" ++ [QUOTE] ++ lit "chapter-title" ++ [QUOTE] ++ lit ">".
Definition H2_CLOSE : str := lit "</h2>".

(** The element one line of a block contributes, if any. *)
Definition line_to_html (line : str) : option str :=
  let stripped := strip line in
  if nonempty stripped then
    if startswith HEADING stripped then
      let title_raw := strip (skipn 2 stripped) in
      Some (H2_OPEN ++ inline_format title_raw ++ H2_CLOSE)
    else Some (lit "<p>" ++ inline_format stripped ++ lit "</p>")
  else None.

Definition html_parts (block_text : str) : list str :=
  fold_left
    (fun parts line =>
       match line_to_html line with
       | Some e => parts ++ [e]
       | None => parts
       end)
    (split NL block_text) [].

Definition block_to_html (block_text : str) : str :=
  join NL (html_parts block_text).

(** ** build_books.py: the paragraph splitter *)

Definition flush (paragraphs current_lines : list str) : list str :=
  if nonempty current_lines
  then paragraphs ++ [strip (join NL current_lines)]
  else paragraphs.

(** One iteration of the loop over the lines; the state is
    [(paragraphs, current_lines)]. *)
Definition parse_step (st : list str * list str) (raw_line : str)
  : list str * list str :=
  let (paragraphs, current_lines) := st in
  let line := rstrip_chars CR raw_line in
  if str_eqb (strip line) SENTINEL then
    (flush paragraphs current_lines ++ [PAGE_BREAK], [])
  else if negb (nonempty (strip line)) then
    (flush paragraphs current_lines, [])
  else (paragraphs, current_lines ++ [line]).

Definition parse_paragraphs (text : str) : list str :=
  let (paragraphs, current_lines) :=
    fold_left parse_step (split NL text) ([], []) in
  flush paragraphs current_lines.

(** The invariant of the loop over the lines. *)
Definition parse_inv (st : list str * list str) : Prop :=
  Forall (fun p => is_paragraph p = true) (fst st)
  /\ Forall (fun l => line_ok l = true) (snd st).

(** ** build_books.py: the page packer *)

Record packer := Packer {
  pages : list str;
  current : list str;
  current_len : Z
}.

Definition is_heading (para : str) : bool := startswith HEADING (lstrip para).

(** The guard of the orphan merge: pending content, a completed page before
    it, and fewer than [MIN_CHARS_PER_PAGE] characters pending. *)
Definition orphan (st : packer) : bool :=
  nonempty (current st)
  && (len (pages st) >? 0) && (current_len st <? MIN_CHARS_PER_PAGE).

(** One iteration of the loop over the paragraphs. *)
Definition pack_step (st : packer) (para : str) : packer :=
  if str_eqb para PAGE_BREAK then
    if nonempty (current st)
    then Packer (pages st ++ [join SEP (current st)]) [] 0
    else st
  else if is_heading para then
    let pages' :=
      if nonempty (current st) then
        if (len (pages st) >? 0) && (current_len st <? MIN_CHARS_PER_PAGE)
        then
          let merged := join SEP [List.last (pages st) []; join SEP (current st)] in
          removelast (pages st) ++ [merged]
        else pages st ++ [join SEP (current st)]
      else pages st in
    Packer pages' [para] (len para)
  else
    let para_len := len para in
    if nonempty (current st)
       && (current_len st + para_len >? TARGET_CHARS_PER_PAGE)
    then Packer (pages st ++ [join SEP (current st)]) [para] para_len
    else Packer (pages st) (current st ++ [para]) (current_len st + para_len).

Definition pack_init : packer := Packer [] [] 0.

Definition pack_finish (st : packer) : list str :=
  if nonempty (current st)
  then pages st ++ [join SEP (current st)]
  else pages st.

(** The pages before the post-processing. *)
Definition pack (paragraphs : list str) : list str :=
  pack_finish (fold_left pack_step paragraphs pack_init).

(** ** build_books.py: the repair pass *)

Definition heading_only (page : str) : bool :=
  match List.filter (fun b => nonempty (strip b)) (split SEP page) with
  | [b] => startswith HEADING (lstrip b)
  | _ => false
  end.

(** The state of the [while] loop is [(i, pages)]. *)
Definition repair_cond (st : nat * list str) : bool :=
  Z.of_nat (fst st) <? len (snd st) - 1.

(** The body of the loop; it runs only under [repair_cond], where both
    [pages[i]] and [pages[i + 1]] exist. *)
Definition repair_body (st : nat * list str) : nat * list str :=
  let (i, pages) := st in
  let p := nth i pages [] in
  if heading_only p then
    let pages := <[i := p ++ SEP ++ nth (i + 1) pages []]> pages in
    (i, delete (i + 1)%nat pages)
  else ((i + 1)%nat, pages).

(** [n] iterations of the loop, or fewer if its condition fails earlier. *)
Fixpoint repair_loop (n : nat) (st : nat * list str) : nat * list str :=
  match n with
  | O => st
  | S m => if repair_cond st then repair_loop m (repair_body st) else st
  end.

(** The loop exits within [len(pages)] iterations ([repair_exits]). *)
Definition repair (pages : list str) : list str :=
  snd (repair_loop (length pages) (O, pages)).

Definition build_pages_from_paragraphs (paragraphs : list str) : list str :=
  repair (pack paragraphs).

(** [build_pages_for_book], from the manuscript text to the raw pages. *)
Definition raw_pages (text : str) : list str :=
  build_pages_from_paragraphs (parse_paragraphs text).

(** ** Provenance of the splitter's output

    [parse_paragraphs] returns one list in which, as its docstring says, an
    element is either a paragraph string or the special token. [parse_items]
    is the same loop with every element tagged by the statement that appends
    it: [Para] for the three flushes of [current_lines], [Break] for the
    append of the token on a sentinel line. [items_erase] shows that erasing
    the tags gives back [parse_paragraphs]. *)

Inductive item :=
| Para (text : str)
| Break.

Definition item_str (it : item) : str :=
  match it with
  | Para text => text
  | Break => PAGE_BREAK
  end.

Definition flush_items (items : list item) (current_lines : list str)
  : list item :=
  if nonempty current_lines
  then items ++ [Para (strip (join NL current_lines))]
  else items.

Definition parse_items_step (st : list item * list str) (raw_line : str)
  : list item * list str :=
  let (items, current_lines) := st in
  let line := rstrip_chars CR raw_line in
  if str_eqb (strip line) SENTINEL then
    (flush_items items current_lines ++ [Break], [])
  else if negb (nonempty (strip line)) then
    (flush_items items current_lines, [])
  else (items, current_lines ++ [line]).

Definition parse_items (text : str) : list item :=
  let (items, current_lines) :=
    fold_left parse_items_step (split NL text) ([], []) in
  flush_items items current_lines.

(** The paragraphs among the items, in order. *)
Fixpoint paragraphs_of (items : list item) : list str :=
  match items with
  | [] => []
  | Para text :: r => text :: paragraphs_of r
  | Break :: r => paragraphs_of r
  end.

(** ** Measures on pages *)

(** The blocks of a serialized page. *)
Definition blocks (pg : str) : list str := split SEP pg.

Fixpoint total_len (l : list str) : Z :=
  match l with
  | [] => 0
  | x :: r => len x + total_len r
  end.

(** The length of a page as the packer counts it: the characters of its
    paragraphs, without the separators. *)
Definition page_length (pg : str) : Z := total_len (blocks pg).

(** The elements of the packer's input that are not the token. *)
Definition content (ps : list str) : list str :=
  List.filter (fun p => negb (str_eqb p PAGE_BREAK)) ps.

(** A group of paragraphs is within the budget if their lengths add up to
    at most [TARGET_CHARS_PER_PAGE], or if it is a single paragraph. *)
Definition within_budget (g : list str) : Prop :=
  total_len g <= TARGET_CHARS_PER_PAGE \/ length g = 1%nat.

(** The invariant of the packer's loop. The completed pages serialize
    groups of paragraphs, none of them empty; the groups and the pending
    paragraphs are the content consumed so far ([done]), in order;
    [current_len] is the length of the pending paragraphs, which are within
    the budget; and so are the groups as long as no orphan merge has run
    ([merged = false]). *)
Definition pack_inv (merged : bool) (done : list str) (st : packer) : Prop :=
  exists groups : list (list str),
    pages st = map (join SEP) groups
    /\ Forall (fun g => g <> []) groups
    /\ concat groups ++ current st = done
    /\ current_len st = total_len (current st)
    /\ within_budget (current st)
    /\ (merged = false -> Forall within_budget groups).

(** Whether the step at [para] takes the orphan merge. *)
Definition orphan_merge (st : packer) (para : str) : bool :=
  negb (str_eqb para PAGE_BREAK) && is_heading para && orphan st.

(** Whether the orphan merge runs at some paragraph of [ps], from the packer
    state [st] on. *)
Fixpoint orphan_merges (st : packer) (ps : list str) : bool :=
  match ps with
  | [] => false
  | para :: r =>
      orphan_merge st para || orphan_merges (pack_step st para) r
  end.

(** The invariant of the repair loop: no page before the cursor is
    heading-only. *)
Definition settled (st : nat * list str) : Prop :=
  forall j, (j < fst st)%nat -> heading_only (nth j (snd st) []) = false.

(** The distance of the repair cursor from the last page. *)
Definition repair_measure (st : nat * list str) : nat :=
  (length (snd st) - 1 - fst st)%nat.



(** ** Provenance of the pages

    The packer and the repair pass with a mark on every page: [false] on a
    page as [pages.append] has made it from the pending paragraphs, [true]
    on a page that the orphan merge ([pages[-1] = merged]) or the repair
    merge ([pages[i] = pages[i] + ...]) has enlarged. Erasing the marks
    gives back the pages ([tagged_pages_erase]). *)

Record tagged_packer := TaggedPacker {
  tpages : list (str * bool);
  tcurrent : list str;
  tcurrent_len : Z
}.

Definition untag (st : tagged_packer) : packer :=
  Packer (map fst (tpages st)) (tcurrent st) (tcurrent_len st).

Definition pack_step_tagged (st : tagged_packer) (para : str)
  : tagged_packer :=
  if str_eqb para PAGE_BREAK then
    if nonempty (tcurrent st)
    then TaggedPacker (tpages st ++ [(join SEP (tcurrent st), false)]) [] 0
    else st
  else if is_heading para then
    let pages' :=
      if nonempty (tcurrent st) then
        if (len (tpages st) >? 0) && (tcurrent_len st <? MIN_CHARS_PER_PAGE)
        then
          let merged :=
            join SEP [fst (List.last (tpages st) ([], false));
                      join SEP (tcurrent st)] in
          removelast (tpages st) ++ [(merged, true)]
        else tpages st ++ [(join SEP (tcurrent st), false)]
      else tpages st in
    TaggedPacker pages' [para] (len para)
  else
    let para_len := len para in
    if nonempty (tcurrent st)
       && (tcurrent_len st + para_len >? TARGET_CHARS_PER_PAGE)
    then TaggedPacker (tpages st ++ [(join SEP (tcurrent st), false)])
           [para] para_len
    else TaggedPacker (tpages st) (tcurrent st ++ [para])
           (tcurrent_len st + para_len).

Definition pack_init_tagged : tagged_packer := TaggedPacker [] [] 0.

Definition pack_finish_tagged (st : tagged_packer) : list (str * bool) :=
  if nonempty (tcurrent st)
  then tpages st ++ [(join SEP (tcurrent st), false)]
  else tpages st.

Definition pack_tagged (paragraphs : list str) : list (str * bool) :=
  pack_finish_tagged (fold_left pack_step_tagged paragraphs pack_init_tagged).

Definition repair_body_tagged (st : nat * list (str * bool))
  : nat * list (str * bool) :=
  let (i, pages) := st in
  let p := fst (nth i pages ([], false)) in
  if heading_only p then
    let pages :=
      <[i := (p ++ SEP ++ fst (nth (i + 1) pages ([], false)), true)]> pages in
    (i, delete (i + 1)%nat pages)
  else ((i + 1)%nat, pages).

Fixpoint repair_loop_tagged (n : nat) (st : nat * list (str * bool))
  : nat * list (str * bool) :=
  match n with
  | O => st
  | S m =>
      if repair_cond (fst st, map fst (snd st))
      then repair_loop_tagged m (repair_body_tagged st)
      else st
  end.

Definition repair_tagged (pages : list (str * bool)) : list (str * bool) :=
  snd (repair_loop_tagged (length pages) (O, pages)).

(** The final pages of a manuscript, each with its mark. *)
Definition tagged_pages (text : str) : list (str * bool) :=
  repair_tagged (pack_tagged (parse_paragraphs text)).

(** What holds of a page without a mark: it serializes paragraphs of [ps]
    that are within the budget. *)
Definition budgeted (ps : list str) (pb : str * bool) : Prop :=
  snd pb = false ->
  exists g : list str,
    fst pb = join SEP g /\ g <> [] /\ within_budget g
    /\ Forall (fun p => In p ps) g.

(** The invariant of the marked packer. *)
Definition tagged_inv (ps : list str) (st : tagged_packer) : Prop :=
  Forall (budgeted ps) (tpages st)
  /\ tcurrent_len st = total_len (tcurrent st)
  /\ within_budget (tcurrent st)
  /\ Forall (fun p => In p ps) (tcurrent st).

(** ** build_codex_refs.py: sorting and deduplicating the occurrences *)

Record occurrence := Occurrence {
  bookId : str;
  bookTitle : str;
  page : Z
}.

(** The key of the deduplication. *)
Definition occ_key (r : occurrence) : str * Z := (bookId r, page r).

(** [s < t] on strings: lexicographic on the code points. *)
Fixpoint str_ltb (s t : str) : bool :=
  match s, t with
  | _, [] => false
  | [], _ :: _ => true
  | a :: s', b :: t' => (a <? b)%N || ((a =? b)%N && str_ltb s' t')
  end.

(** [a < b] on the key tuples: the first components decide unless they are
    equal. *)
Definition key_ltb (a b : str * Z) : bool :=
  if str_eqb (fst a) (fst b) then snd a <? snd b
  else str_ltb (fst a) (fst b).

(** Lowercasing of the ASCII letters; [str.lower] agrees with it on ASCII
    text. It instantiates [lower] below in the examples. *)
Definition ascii_lower (s : str) : str :=
  map (fun c => if ((65 <=? c) && (c <=? 90))%N then (c + 32)%N else c) s.

Section CodexRefs.

(** [str.lower] is a builtin that depends on the Unicode tables; the
    development holds for any function in its place. *)
Variable lower : str -> str.

Definition sort_key (r : occurrence) : str * Z :=
  (lower (bookTitle r), page r).

(** [lst.sort(key=...)] is stable, and a list has one stable sorting for a
    given key: an insertion sort that puts an element before the first one
    that is not smaller computes it. *)
Fixpoint insert_stable (x : occurrence) (l : list occurrence)
  : list occurrence :=
  match l with
  | [] => [x]
  | y :: r =>
      if key_ltb (sort_key y) (sort_key x)
      then y :: insert_stable x r
      else x :: l
  end.

Definition sort_refs (lst : list occurrence) : list occurrence :=
  foldr insert_stable [] lst.

(** One iteration of the deduplication loop; the state is
    [(seen, deduped)]. *)
Definition dedupe_step (st : gset (str * Z) * list occurrence)
    (r : occurrence) : gset (str * Z) * list occurrence :=
  let (seen, deduped) := st in
  let key := occ_key r in
  if bool_decide (key ∈ seen) then st
  else ({[key]} ∪ seen, deduped ++ [r]).

Definition dedupe (lst : list occurrence) : list occurrence :=
  snd (fold_left dedupe_step lst (∅, [])).

(** The loop over [refs.items()]: every list is replaced by its sorted and
    deduplicated version. *)
Definition finalize_refs (refs : gmap str (list occurrence))
  : gmap str (list occurrence) :=
  (fun lst => dedupe (sort_refs lst)) <$> refs.

(** The order of the sort keys: by lowercased title, then by page. *)
Definition key_le (a b : occurrence) : Prop :=
  str_ltb (lower (bookTitle a)) (lower (bookTitle b)) = true
  \/ (lower (bookTitle a) = lower (bookTitle b) /\ page a <= page b).

End CodexRefs.

(** * More of the code *)

(** ** build_books.py: from the manuscript to the page files *)

(** [s.replace(old, new)] for a non-empty [old]: the occurrences of [old]
    are found from left to right and do not overlap. *)
Fixpoint replace_go (old new : str) (skip : nat) (s : str) : str :=
  match s with
  | [] => []
  | c :: r =>
      match skip with
      | S k => replace_go old new k r
      | O =>
          if startswith old s
          then new ++ replace_go old new (length old - 1) r
          else c :: replace_go old new 0 r
      end
  end.

Definition replace (old new s : str) : str := replace_go old new 0 s.

(** [f.read().replace("\r\n", "\n")] *)
Definition normalize_newlines (text : str) : str := replace (CR ++ NL) NL text.

(** The raw pages [build_pages_for_book] computes from the text it reads. *)
Definition manuscript_pages (text : str) : list str :=
  raw_pages (normalize_newlines text).

(** The decimal digits of [n], the most significant first, before [acc]. *)
Fixpoint decimal_go (fuel : nat) (n : N) (acc : str) : str :=
  match fuel with
  | O => acc
  | S f =>
      let acc' := (48 + n mod 10)%N :: acc in
      if (n <? 10)%N then acc' else decimal_go f (n / 10)%N acc'
  end.

(** [str(n)] for an integer [n >= 0]; a number has no more decimal digits
    than binary ones. *)
Definition decimal (n : N) : str :=
  decimal_go (S (N.to_nat (N.log2 n))) n [].

(** The value of a string of ASCII digits. *)
Definition digits_value (ds : str) : N :=
  fold_left (fun a c => (10 * a + (c - 48))%N) ds 0%N.

(** [f"page{i}.html"] *)
Definition page_file_name (i : N) : str :=
  lit "page" ++ decimal i ++ lit ".html".

(** The stem of that name: what precedes its last dot. *)
Definition page_stem (i : N) : str := lit "page" ++ decimal i.

(** [template.format(content=content_html)] *)
Definition page_html (raw : str) : str :=
  lit "<article class=" ++ [QUOTE] ++ lit "page-column" ++ [QUOTE] ++ lit ">"
  ++ NL ++ block_to_html raw ++ NL ++ lit "</article>" ++ NL.

(** The files [build_pages_for_book] writes, in order: the name in the
    pages directory and the content, for [enumerate(raw_pages, start=1)]. *)
Definition book_page_files (text : str) : list (str * str) :=
  imap (fun k raw => (page_file_name (N.of_nat (k + 1)), page_html raw))
    (manuscript_pages text).

(** Whether the splitter takes a line for a forced break. *)
Definition is_sentinel_line (raw_line : str) : bool :=
  str_eqb (strip (rstrip_chars CR raw_line)) SENTINEL.

(** Whether an element of the splitter's output is the token, and whether
    a line, without the carriage returns at its end and trimmed, is the
    text of the token. *)
Definition is_token (p : str) : bool := str_eqb p PAGE_BREAK.

Definition is_token_line (raw_line : str) : bool :=
  str_eqb (strip (rstrip_chars CR raw_line)) PAGE_BREAK.

(** A line the splitter keeps as it is: no newline, not blank, not a
    sentinel line, and no carriage return at its end. *)
Definition kept (l : str) : bool :=
  no_nl l && negb (blank l) && negb (str_eqb (strip l) SENTINEL)
  && str_eqb (rstrip_chars CR l) l.

(** A trimmed text all of whose lines the splitter keeps. *)
Definition reparsable (p : str) : Prop :=
  strip p = p /\ Forall (fun l => kept l = true) (split NL p).

(** Every group but the last is full: the first paragraph of the next one
    would not have fitted into it. *)
Fixpoint full_groups (groups : list (list str)) : Prop :=
  match groups with
  | g1 :: ((g2 :: _) as rest) =>
      TARGET_CHARS_PER_PAGE < total_len g1 + len (hd [] g2)
      /\ full_groups rest
  | _ => True
  end.

(** The invariant of the packer's loop on paragraphs that are neither
    headings nor the token: the completed and the pending groups are full,
    and nothing is completed while nothing is pending. *)
Definition greedy_inv (done : list str) (st : packer) : Prop :=
  exists groups : list (list str),
    pages st = map (join SEP) groups
    /\ Forall (fun g => g <> []) groups
    /\ concat groups ++ current st = done
    /\ current_len st = total_len (current st)
    /\ (current st = [] -> groups = [])
    /\ full_groups (groups ++ [current st]).

(** A heading is the first paragraph of its group, if it is in it. *)
Definition heading_first (g : list str) : Prop :=
  Forall (fun p => is_heading p = false) (tl g).

(** The invariant of the packer while no orphan merge runs: every group,
    and the pending content, has headings at its first place only. *)
Definition heading_inv (done : list str) (st : packer) : Prop :=
  exists groups : list (list str),
    pages st = map (join SEP) groups
    /\ Forall (fun g => g <> []) groups
    /\ concat groups ++ current st = content done
    /\ Forall heading_first groups
    /\ heading_first (current st).

(** The characters [html.escape] replaces, but for the ampersand. *)
Definition html_special (c : char) : bool :=
  ((c =? 60) || (c =? 62) || (c =? 34) || (c =? 39))%N.

(** The characters [html.escape] replaces. *)
Definition html_replaced (c : char) : bool := (c =? 38)%N || html_special c.

(** [html.escape] applied to both groups of a match. *)
Definition escape_groups (m : str * str) : str * str :=
  (html_escape (fst m), html_escape (snd m)).

(** ** build_codex_refs.py: scanning the pages *)

Definition LBRACKET : char := 91%N.
Definition RBRACKET : char := 93%N.
Definition BAR : char := 124%N.
Definition CODEX_OPEN : str := lit "[[codex:".

(** The longest prefix without a character of [stop], and what follows. *)
Fixpoint span_until (stop : char -> bool) (s : str) : str * str :=
  match s with
  | [] => ([], [])
  | c :: r =>
      if stop c then ([], s)
      else let (a, b) := span_until stop r in (c :: a, b)
  end.

(** A match of [CODEX_PATTERN] at the start of [s]: its two groups. Each
    group takes every character up to the first one its class excludes, and
    giving some of them back cannot help, because the pattern goes on with
    an excluded character. *)
Definition match_codex (s : str) : option (str * str) :=
  if startswith CODEX_OPEN s then
    let (g1, r1) :=
      span_until (fun c => (c =? BAR)%N || (c =? RBRACKET)%N)
        (skipn (length CODEX_OPEN) s) in
    if nonempty g1 && startswith [BAR] r1 then
      let (g2, r2) := span_until (fun c => (c =? RBRACKET)%N) (skipn 1 r1) in
      if nonempty g2 && startswith [RBRACKET; RBRACKET] r2
      then Some (g1, g2) else None
    else None
  else None.

(** [CODEX_PATTERN.finditer(text)]: the groups of the matches, from left to
    right and without overlap. *)
Fixpoint finditer_go (skip : nat) (s : str) : list (str * str) :=
  match s with
  | [] => []
  | c :: r =>
      match skip with
      | S k => finditer_go k r
      | O =>
          match match_codex s with
          | Some (g1, g2) =>
              (g1, g2)
              :: finditer_go
                   (length CODEX_OPEN + length g1 + 1 + length g2 + 2 - 1) r
          | None => finditer_go 0 r
          end
      end
  end.

Definition finditer (text : str) : list (str * str) := finditer_go 0 text.

(** [refs.setdefault(codex_id, []).append(occ)] *)
Definition add_ref (refs : gmap str (list occurrence)) (codex_id : str)
    (occ : occurrence) : gmap str (list occurrence) :=
  <[codex_id := default [] (refs !! codex_id) ++ [occ]]> refs.

(** One iteration of the loop over the matches of a page. *)
Definition scan_step (occ : occurrence) (refs : gmap str (list occurrence))
    (m : str * str) : gmap str (list occurrence) :=
  let codex_id := strip (fst m) in
  if nonempty codex_id then add_ref refs codex_id occ else refs.

(** A page file as the scan reads it: the stem of its name and its text. *)
Record page_file := PageFile {
  file_stem : str;
  file_text : str
}.

(** A book folder with metadata and a pages directory: the identifier and
    title the scan settles on, and [sorted(pages_dir.glob("*.html"))]. *)
Record book := Book {
  book_id : str;
  book_title : str;
  book_files : list page_file
}.

(** The index has the record [r] under the identifier [cid]. *)
Definition holds (refs : gmap str (list occurrence)) (cid : str)
    (r : occurrence) : Prop :=
  exists lst, refs !! cid = Some lst /\ r ∈ lst.

(** No identifier of the index has an empty list. *)
Definition no_empty_list (refs : gmap str (list occurrence)) : Prop :=
  forall cid lst, refs !! cid = Some lst -> lst <> [].

(** What a group of a match has: it is not empty and has none of the
    characters its class excludes. *)
Definition clean_id (s : str) : bool :=
  nonempty s && forallb (fun c => negb ((c =? BAR)%N || (c =? RBRACKET)%N)) s.

Definition clean_label (s : str) : bool :=
  nonempty s && forallb (fun c => negb (c =? RBRACKET)%N) s.

Section Scan.

(** [\d] and [int] follow the Unicode tables and the interpreter's limit on
    the digits of an integer string; they are parameters. [py_int] is [None]
    where [int] raises [ValueError]. *)
Variable is_digit : char -> bool.
Variable py_int : str -> option Z.

Fixpoint span_digits (s : str) : str :=
  match s with
  | [] => []
  | c :: r => if is_digit c then c :: span_digits r else []
  end.

(** Group 1 of [re.search(r"(\d+)", s)]: the first run of digits. *)
Fixpoint search_digits (s : str) : option str :=
  match s with
  | [] => None
  | c :: r => if is_digit c then Some (span_digits s) else search_digits r
  end.

(** [parse_page_number] on the stem of the path. *)
Definition parse_page_number (stem : str) : option Z :=
  match search_digits stem with
  | None => None
  | Some ds => py_int ds
  end.

(** One iteration of the loop over the page files of a book. *)
Definition scan_file (b : book) (refs : gmap str (list occurrence))
    (f : page_file) : gmap str (list occurrence) :=
  match parse_page_number (file_stem f) with
  | None => refs
  | Some page_num =>
      fold_left (scan_step (Occurrence (book_id b) (book_title b) page_num))
        (finditer (file_text f)) refs
  end.

(** One iteration of the loop over the books. *)
Definition scan_book (refs : gmap str (list occurrence)) (b : book)
  : gmap str (list occurrence) :=
  fold_left (scan_file b) (book_files b) refs.

Definition scan_books (books : list book) : gmap str (list occurrence) :=
  fold_left scan_book books ∅.

(** The shortcode occurrences: [r] is the record of a match with the
    identifier [cid], not empty once trimmed, in a page file with a page
    number of one of the books. *)
Definition recorded (books : list book) (cid : str) (r : occurrence) : Prop :=
  exists b f page_num m,
    b ∈ books /\ f ∈ book_files b
    /\ parse_page_number (file_stem f) = Some page_num
    /\ m ∈ finditer (file_text f)
    /\ strip (fst m) = cid /\ cid <> []
    /\ r = Occurrence (book_id b) (book_title b) page_num.

Variable lower : str -> str.

(** The index [main] writes. *)
Definition build_refs (books : list book) : gmap str (list occurrence) :=
  finalize_refs lower (scan_books books).

End Scan.

(** [\d] and [int] on ASCII digits, for the examples. *)
Definition ascii_digit (c : char) : bool := ((48 <=? c) && (c <=? 57))%N.
Definition ascii_int (ds : str) : option Z := Some (Z.of_N (digits_value ds)).

(** * Properties *)

(** ** Lists and strings *)
Lemma nonempty_true {A} (l : list A) : nonempty l = true <-> l <> [].
Proof. destruct l; simpl; split; congruence. Qed.

Lemma nonempty_false {A} (l : list A) : nonempty l = false <-> l = [].
Proof. destruct l; simpl; split; congruence. Qed.

Lemma str_eqb_eq s t : str_eqb s t = true <-> s = t.
Proof. unfold str_eqb. apply bool_decide_eq_true. Qed.

Lemma str_eqb_neq s t : str_eqb s t = false <-> s <> t.
Proof. unfold str_eqb. apply bool_decide_eq_false. Qed.

(** *** drop_while and the strip family *)

Lemma drop_while_decomp {A} (f : A -> bool) (l : list A) :
  exists a, l = a ++ drop_while f l /\ forallb f a = true.
Proof.
  induction l as [|x r IH]; simpl.
  - exists []. auto.
  - destruct (f x) eqn:E.
    + destruct IH as (a & Ha & Hf). exists (x :: a). simpl.
      rewrite E, Hf. split; [congruence | reflexivity].
    + exists []. auto.
Qed.

Lemma drop_while_head {A} (f : A -> bool) (l : list A) x r :
  drop_while f l = x :: r -> f x = false.
Proof.
  induction l as [|y l IH]; simpl; [discriminate|].
  destruct (f y) eqn:E; [exact IH|]. intros [= -> _]. exact E.
Qed.

Lemma drop_while_nil {A} (f : A -> bool) (l : list A) :
  drop_while f l = [] <-> forallb f l = true.
Proof.
  induction l as [|y l IH]; simpl; [tauto|].
  destruct (f y); simpl; [exact IH|]. split; discriminate.
Qed.

Lemma drop_while_id {A} (f : A -> bool) (x : A) (r : list A) :
  f x = false -> drop_while f (x :: r) = x :: r.
Proof. simpl. intros ->. reflexivity. Qed.

Lemma forallb_rev {A} (f : A -> bool) (l : list A) :
  forallb f (rev l) = forallb f l.
Proof.
  induction l as [|x r IH]; simpl; [reflexivity|].
  rewrite forallb_app, IH. simpl. rewrite andb_true_r. apply andb_comm.
Qed.

Lemma lstrip_decomp s :
  exists a, s = a ++ lstrip s /\ blank a = true.
Proof. apply drop_while_decomp. Qed.

Lemma rstrip_decomp s :
  exists b, s = rstrip s ++ b /\ blank b = true.
Proof.
  unfold rstrip. destruct (drop_while_decomp is_space (rev s)) as (a & Ha & Hf).
  exists (rev a). split.
  - rewrite <- rev_app_distr, <- Ha. symmetry. apply rev_involutive.
  - unfold blank. rewrite forallb_rev. exact Hf.
Qed.

Lemma strip_decomp s :
  exists a b, s = a ++ strip s ++ b /\ blank a = true /\ blank b = true.
Proof.
  destruct (lstrip_decomp s) as (a & Ha & Hfa).
  destruct (rstrip_decomp (lstrip s)) as (b & Hb & Hfb).
  exists a, b. unfold strip. rewrite <- Hb. auto.
Qed.

Lemma rstrip_nil s : rstrip s = [] <-> blank s = true.
Proof.
  unfold rstrip, blank. rewrite <- (forallb_rev is_space s), <- drop_while_nil.
  split; intros H.
  - apply (f_equal (@rev char)) in H. rewrite rev_involutive in H. exact H.
  - rewrite H. reflexivity.
Qed.

Lemma lstrip_nil s : lstrip s = [] <-> blank s = true.
Proof. apply drop_while_nil. Qed.

Lemma blank_app a b : blank (a ++ b) = blank a && blank b.
Proof. apply forallb_app. Qed.

Lemma strip_nil s : strip s = [] <-> blank s = true.
Proof.
  unfold strip. rewrite rstrip_nil. split; intros H.
  - destruct (lstrip_decomp s) as (a & Ha & Hfa). rewrite Ha, blank_app, Hfa, H.
    reflexivity.
  - destruct (lstrip_decomp s) as (a & Ha & Hfa). rewrite Ha, blank_app in H.
    apply andb_true_iff in H. tauto.
Qed.

Lemma nonempty_strip s : nonempty (strip s) = negb (blank s).
Proof.
  destruct (blank s) eqn:E; simpl.
  - apply nonempty_false, strip_nil, E.
  - apply nonempty_true. rewrite strip_nil, E. discriminate.
Qed.

Lemma lstrip_head s x r : lstrip s = x :: r -> is_space x = false.
Proof. apply drop_while_head. Qed.

Lemma rstrip_last s a : rstrip s <> [] -> is_space (List.last (rstrip s) a) = false.
Proof.
  unfold rstrip. destruct (drop_while is_space (rev s)) as [|x r] eqn:E.
  - intros H. exfalso. apply H. reflexivity.
  - intros _. simpl. rewrite last_last. eapply drop_while_head, E.
Qed.

Lemma strip_last s a : strip s <> [] -> is_space (List.last (strip s) a) = false.
Proof. apply rstrip_last. Qed.

Lemma lstrip_app_nonblank s t : blank s = false -> lstrip (s ++ t) = lstrip s ++ t.
Proof.
  unfold lstrip, blank. induction s as [|x s IH]; simpl; [discriminate|].
  destruct (is_space x); simpl; auto.
Qed.

Lemma lstrip_strip s : lstrip (strip s) = strip s.
Proof.
  unfold strip. destruct (lstrip s) as [|x r] eqn:E; [reflexivity|].
  pose proof (lstrip_head _ _ _ E) as Hx.
  destruct (rstrip_decomp (x :: r)) as (b & Hb & _).
  destruct (rstrip (x :: r)) as [|y q] eqn:E2; [reflexivity|].
  simpl in Hb. injection Hb as <- _. unfold lstrip. apply drop_while_id, Hx.
Qed.

(** *** join *)

Lemma join_cons sep x y r :
  join sep (x :: y :: r) = x ++ sep ++ join sep (y :: r).
Proof. reflexivity. Qed.

Lemma join_app sep (a b : list str) :
  a <> [] -> b <> [] -> join sep (a ++ b) = join sep a ++ sep ++ join sep b.
Proof.
  intros Ha Hb. induction a as [|x a IH]; [congruence|].
  destruct a as [|y a].
  - destruct b; [congruence|]. reflexivity.
  - change ((x :: y :: a) ++ b) with (x :: y :: (a ++ b)).
    rewrite !join_cons. change (y :: a ++ b) with ((y :: a) ++ b).
    rewrite IH by congruence. rewrite <- !app_assoc. reflexivity.
Qed.

Lemma join_in sep (l : list str) x :
  In x l -> exists a b, join sep l = a ++ x ++ b.
Proof.
  induction l as [|y l IH]; [intros []|].
  intros [->|Hin].
  - destruct l as [|z l].
    + exists [], []. simpl. rewrite app_nil_r. reflexivity.
    + exists [], (sep ++ join sep (z :: l)). reflexivity.
  - destruct l as [|z l]; [destruct Hin|].
    destruct (IH Hin) as (a & b & E).
    exists (y ++ sep ++ a), b. rewrite join_cons, E, <- !app_assoc. reflexivity.
Qed.

(** *** split *)

Lemma split_go_0 sep x r :
  split_go sep 0 (x :: r) =
  if startswith sep (x :: r) then [] :: split_go sep (length sep - 1) r
  else cons_head x (split_go sep 0 r).
Proof. reflexivity. Qed.

Lemma split_nl_cons c r :
  split NL (c :: r) =
  if (c =? nl)%N then [] :: split NL r else cons_head c (split NL r).
Proof.
  unfold split. rewrite split_go_0.
  change (startswith NL (c :: r)) with ((nl =? c)%N && true).
  rewrite (N.eqb_sym nl c), andb_true_r. reflexivity.
Qed.

Lemma split_nl_nonempty s : split NL s <> [].
Proof.
  destruct s as [|c r]; [discriminate|]. rewrite split_nl_cons.
  destruct (c =? nl)%N; [discriminate|]. destruct (split NL r); discriminate.
Qed.

Lemma cons_head_app c (a b : list str) :
  a <> [] -> cons_head c (a ++ b) = cons_head c a ++ b.
Proof. destruct a; [congruence|reflexivity]. Qed.

Lemma split_nl_app a b : split NL (a ++ nl :: b) = split NL a ++ split NL b.
Proof.
  induction a as [|c a IH].
  - simpl app. rewrite split_nl_cons. reflexivity.
  - change ((c :: a) ++ nl :: b) with (c :: (a ++ nl :: b)).
    rewrite !split_nl_cons, IH. destruct (c =? nl)%N; [reflexivity|].
    apply cons_head_app, split_nl_nonempty.
Qed.

Lemma split_nl_no_nl s : Forall (fun l => no_nl l = true) (split NL s).
Proof.
  induction s as [|c r IH].
  - repeat constructor.
  - rewrite split_nl_cons. destruct (c =? nl)%N eqn:E.
    + constructor; [reflexivity | exact IH].
    + destruct (split NL r) as [|h t]; simpl.
      * repeat constructor. simpl. rewrite E. reflexivity.
      * inversion IH; subst. constructor; [|assumption].
        simpl. rewrite E. assumption.
Qed.

Lemma split_sep_one a : split SEP [a] = [[a]].
Proof.
  unfold split. rewrite split_go_0.
  change (startswith SEP [a]) with ((nl =? a)%N && false).
  rewrite andb_false_r. reflexivity.
Qed.

Lemma split_sep_cons2 a b r :
  split SEP (a :: b :: r) =
  if (a =? nl)%N && (b =? nl)%N then [] :: split SEP r
  else cons_head a (split SEP (b :: r)).
Proof.
  unfold split. rewrite split_go_0.
  change (startswith SEP (a :: b :: r)) with ((nl =? a)%N && ((nl =? b)%N && true)).
  rewrite (N.eqb_sym nl a), (N.eqb_sym nl b), andb_true_r.
  destruct (_ && _); reflexivity.
Qed.

(** A paragraph followed by the separator is split off whole. *)
Lemma split_sep_par p rest :
  p <> [] -> no_double_nl p = true -> List.last p 0%N <> nl ->
  split SEP (p ++ SEP ++ rest) = p :: split SEP rest.
Proof.
  induction p as [|a p IH]; [congruence|]. intros _ Hc Hl.
  destruct p as [|b p].
  - simpl in Hl. change ([a] ++ SEP ++ rest) with (a :: nl :: nl :: rest).
    rewrite split_sep_cons2. apply N.eqb_neq in Hl. rewrite Hl. simpl andb.
    cbv iota. rewrite split_sep_cons2, !N.eqb_refl. reflexivity.
  - change ((a :: b :: p) ++ SEP ++ rest) with (a :: b :: (p ++ SEP ++ rest)).
    rewrite split_sep_cons2.
    change (no_double_nl (a :: b :: p))
      with (negb ((a =? nl)%N && (b =? nl)%N) && no_double_nl (b :: p)) in Hc.
    apply andb_true_iff in Hc as [Hab Hc]. apply negb_true_iff in Hab.
    rewrite Hab. change (b :: p ++ SEP ++ rest) with ((b :: p) ++ SEP ++ rest).
    rewrite IH; [reflexivity|congruence|exact Hc|exact Hl].
Qed.

Lemma split_sep_whole p :
  p <> [] -> no_double_nl p = true -> List.last p 0%N <> nl ->
  split SEP p = [p].
Proof.
  induction p as [|a p IH]; [congruence|]. intros _ Hc Hl.
  destruct p as [|b p]; [apply split_sep_one|].
  rewrite split_sep_cons2.
  change (no_double_nl (a :: b :: p))
    with (negb ((a =? nl)%N && (b =? nl)%N) && no_double_nl (b :: p)) in Hc.
  apply andb_true_iff in Hc as [Hab Hc]. apply negb_true_iff in Hab.
  rewrite Hab, IH; [reflexivity|congruence|exact Hc|exact Hl].
Qed.

(** *** paragraphs *)

Lemma is_paragraph_inv p :
  is_paragraph p = true ->
  p <> [] /\ no_double_nl p = true /\ strip p = p.
Proof.
  unfold is_paragraph. intros H.
  apply andb_true_iff in H as [H H3]. apply andb_true_iff in H as [H1 H2].
  apply nonempty_true in H1. apply str_eqb_eq in H3. auto.
Qed.

Lemma paragraph_last p : is_paragraph p = true -> List.last p 0%N <> nl.
Proof.
  intros H. apply is_paragraph_inv in H as (Hne & _ & Hs).
  intros E. assert (Hsp : is_space (List.last (strip p) 0%N) = false).
  { apply strip_last. rewrite Hs. exact Hne. }
  rewrite Hs, E in Hsp. discriminate.
Qed.

Lemma paragraph_nonblank p : is_paragraph p = true -> blank p = false.
Proof.
  intros H. apply is_paragraph_inv in H as (Hne & _ & Hs).
  destruct (blank p) eqn:E; [|reflexivity].
  apply strip_nil in E. congruence.
Qed.

(** Splitting a serialized page gives back its paragraphs. *)
Lemma split_join (g : list str) :
  g <> [] -> Forall (fun p => is_paragraph p = true) g ->
  split SEP (join SEP g) = g.
Proof.
  induction g as [|p g IH]; [congruence|]. intros _ Hg.
  inversion Hg as [|? ? Hp Hg']; subst.
  pose proof (paragraph_last _ Hp) as Hl.
  apply is_paragraph_inv in Hp as (Hne & Hc & _).
  destruct g as [|q g].
  - simpl. apply split_sep_whole; assumption.
  - rewrite join_cons, split_sep_par by assumption.
    rewrite IH; [reflexivity|congruence|assumption].
Qed.

Lemma drop_while_idem {A} (f : A -> bool) (l : list A) :
  drop_while f (drop_while f l) = drop_while f l.
Proof.
  induction l as [|x r IH]; simpl; [reflexivity|].
  destruct (f x) eqn:E; [exact IH|]. simpl. rewrite E. reflexivity.
Qed.

Lemma rstrip_rstrip s : rstrip (rstrip s) = rstrip s.
Proof. unfold rstrip. rewrite rev_involutive, drop_while_idem. reflexivity. Qed.

Lemma strip_strip s : strip (strip s) = strip s.
Proof.
  unfold strip at 1. rewrite lstrip_strip. unfold strip. apply rstrip_rstrip.
Qed.

Lemma rstrip_chars_decomp cs s : exists b, s = rstrip_chars cs s ++ b.
Proof.
  unfold rstrip_chars.
  destruct (drop_while_decomp (fun c => existsb (N.eqb c) cs) (rev s))
    as (a & Ha & _).
  exists (rev a). rewrite <- rev_app_distr, <- Ha. symmetry. apply rev_involutive.
Qed.

Lemma no_nl_app a b : no_nl (a ++ b) = no_nl a && no_nl b.
Proof. apply forallb_app. Qed.

Lemma no_double_nl_cons2 a b r :
  no_double_nl (a :: b :: r) =
  negb ((a =? nl)%N && (b =? nl)%N) && no_double_nl (b :: r).
Proof. reflexivity. Qed.

Lemma no_double_nl_app a b :
  no_double_nl (a ++ b) = true -> no_double_nl a = true /\ no_double_nl b = true.
Proof.
  induction a as [|x a IH]; [simpl; auto|].
  destruct a as [|y a].
  - destruct b as [|y b]; [simpl; auto|].
    change ([x] ++ y :: b) with (x :: y :: b). rewrite no_double_nl_cons2.
    intros H. apply andb_true_iff in H as [_ H]. auto.
  - change ((x :: y :: a) ++ b) with (x :: y :: (a ++ b)).
    rewrite !no_double_nl_cons2. intros H. apply andb_true_iff in H as [H1 H2].
    change (y :: a ++ b) with ((y :: a) ++ b) in H2. apply IH in H2 as [H2 H3].
    rewrite H1, H2. auto.
Qed.

Lemma no_double_nl_line l r :
  no_nl l = true -> l <> [] -> starts_ok r = true -> no_double_nl r = true ->
  no_double_nl (l ++ nl :: r) = true.
Proof.
  induction l as [|a l IH]; [congruence|]. intros Hl _ Hs Hr.
  simpl in Hl. apply andb_true_iff in Hl as [Ha Hl]. apply negb_true_iff in Ha.
  destruct l as [|b l].
  - change ([a] ++ nl :: r) with (a :: nl :: r).
    rewrite no_double_nl_cons2, Ha. simpl andb at 1. simpl negb.
    destruct r as [|c r]; [discriminate|].
    simpl in Hs. rewrite Hs, Hr. reflexivity.
  - change ((a :: b :: l) ++ nl :: r) with (a :: b :: (l ++ nl :: r)).
    rewrite no_double_nl_cons2, Ha. simpl andb at 1. simpl negb.
    apply IH; [exact Hl|congruence|exact Hs|exact Hr].
Qed.

Lemma no_nl_no_double l : no_nl l = true -> no_double_nl l = true.
Proof.
  induction l as [|a l IH]; [reflexivity|]. simpl no_nl. intros H.
  apply andb_true_iff in H as [Ha Hl]. apply negb_true_iff in Ha.
  destruct l as [|b l]; [reflexivity|].
  rewrite no_double_nl_cons2, Ha. simpl. auto.
Qed.

Lemma line_ok_inv l :
  line_ok l = true -> no_nl l = true /\ blank l = false /\ l <> [].
Proof.
  unfold line_ok. intros H. apply andb_true_iff in H as [H1 H2].
  apply negb_true_iff in H2. repeat split; auto. intros ->. discriminate.
Qed.

Lemma line_starts_ok l r : line_ok l = true -> starts_ok (l ++ r) = true.
Proof.
  intros H. apply line_ok_inv in H as (Hn & _ & Hne).
  destruct l as [|a l]; [congruence|]. simpl in *.
  apply andb_true_iff in Hn as [Ha _]. exact Ha.
Qed.

(** The lines the splitter has collected join into text without an empty
    line. *)
Lemma join_lines_ok (lines : list str) :
  lines <> [] -> Forall (fun l => line_ok l = true) lines ->
  starts_ok (join NL lines) = true /\ no_double_nl (join NL lines) = true
  /\ blank (join NL lines) = false.
Proof.
  induction lines as [|l lines IH]; [congruence|]. intros _ H.
  inversion H as [|? ? Hl Hls]; subst.
  destruct lines as [|l2 lines].
  - simpl. rewrite <- (app_nil_r l) at 1. rewrite line_starts_ok by assumption.
    apply line_ok_inv in Hl as (Hn & Hb & _).
    auto using no_nl_no_double.
  - rewrite join_cons. destruct IH as (I1 & I2 & I3); [congruence|assumption|].
    rewrite line_starts_ok by assumption.
    apply line_ok_inv in Hl as (Hn & Hb & Hne).
    rewrite blank_app, Hb. repeat split.
    apply no_double_nl_line; assumption.
Qed.

Lemma flushed_paragraph (lines : list str) :
  lines <> [] -> Forall (fun l => line_ok l = true) lines ->
  is_paragraph (strip (join NL lines)) = true.
Proof.
  intros Hne H. destruct (join_lines_ok lines Hne H) as (_ & Hc & Hb).
  unfold is_paragraph. rewrite nonempty_strip, Hb, strip_strip.
  simpl. rewrite andb_true_iff. split; [|apply str_eqb_eq; reflexivity].
  destruct (strip_decomp (join NL lines)) as (a & b & E & _).
  rewrite E in Hc. apply no_double_nl_app in Hc as [_ Hc].
  apply no_double_nl_app in Hc as [Hc _]. exact Hc.
Qed.

Lemma page_break_paragraph : is_paragraph PAGE_BREAK = true.
Proof. vm_compute. reflexivity. Qed.

(** *** the splitter *)

Lemma flush_ok paragraphs current_lines :
  parse_inv (paragraphs, current_lines) ->
  Forall (fun p => is_paragraph p = true) (flush paragraphs current_lines).
Proof.
  intros [Hp Hl]. simpl in *. unfold flush.
  destruct current_lines as [|l ls]; cbn [nonempty]; [exact Hp|].
  apply Forall_app. split; [exact Hp|]. constructor; [|constructor].
  apply flushed_paragraph; [discriminate|exact Hl].
Qed.

Lemma kept_line_ok raw :
  no_nl raw = true -> nonempty (strip (rstrip_chars CR raw)) = true ->
  line_ok (rstrip_chars CR raw) = true.
Proof.
  intros Hn Hs. unfold line_ok. rewrite nonempty_strip in Hs. rewrite Hs.
  destruct (rstrip_chars_decomp CR raw) as (b & E). rewrite E, no_nl_app in Hn.
  apply andb_true_iff in Hn as [-> _]. reflexivity.
Qed.

Lemma parse_step_inv st raw :
  no_nl raw = true -> parse_inv st -> parse_inv (parse_step st raw).
Proof.
  intros Hn Hinv. destruct st as [ps cur]. unfold parse_step.
  destruct (str_eqb _ SENTINEL).
  - split; simpl; [|constructor]. apply Forall_app. split.
    + apply flush_ok, Hinv.
    + constructor; [apply page_break_paragraph|constructor].
  - destruct (nonempty (strip (rstrip_chars CR raw))) eqn:E; simpl.
    + destruct Hinv as [Hp Hl]. split; simpl in *; [exact Hp|].
      apply Forall_app. split; [exact Hl|]. constructor; [|constructor].
      apply kept_line_ok; assumption.
    + split; simpl; [|constructor]. apply flush_ok, Hinv.
Qed.

Lemma parse_fold_inv lines st :
  Forall (fun l => no_nl l = true) lines -> parse_inv st ->
  parse_inv (fold_left parse_step lines st).
Proof.
  revert st. induction lines as [|l lines IH]; intros st Hn Hinv; [exact Hinv|].
  inversion Hn; subst. simpl. apply IH; [assumption|].
  apply parse_step_inv; assumption.
Qed.

(** Every element of the splitter's output is a paragraph: not empty,
    without an empty line, trimmed. *)
Lemma parse_paragraphs_ok text :
  Forall (fun p => is_paragraph p = true) (parse_paragraphs text).
Proof.
  unfold parse_paragraphs.
  pose proof (parse_fold_inv (split NL text) ([], [])
                (split_nl_no_nl text)) as H.
  destruct (fold_left parse_step (split NL text) ([], [])) as [ps cur].
  apply flush_ok, H. split; constructor.
Qed.

Lemma flush_erase items cur :
  flush (map item_str items) cur = map item_str (flush_items items cur).
Proof.
  unfold flush, flush_items. destruct (nonempty cur); [|reflexivity].
  rewrite map_app. reflexivity.
Qed.

Lemma parse_step_erase items cur raw :
  parse_step (map item_str items, cur) raw =
  (map item_str (fst (parse_items_step (items, cur) raw)),
   snd (parse_items_step (items, cur) raw)).
Proof.
  unfold parse_step, parse_items_step.
  destruct (str_eqb _ SENTINEL); simpl.
  - rewrite map_app, flush_erase. reflexivity.
  - destruct (nonempty (strip (rstrip_chars CR raw))); simpl;
      [reflexivity | rewrite flush_erase; reflexivity].
Qed.

Lemma parse_fold_erase lines items cur :
  fold_left parse_step lines (map item_str items, cur) =
  (map item_str (fst (fold_left parse_items_step lines (items, cur))),
   snd (fold_left parse_items_step lines (items, cur))).
Proof.
  revert items cur. induction lines as [|l lines IH]; intros items cur;
    [reflexivity|].
  cbn [fold_left]. rewrite parse_step_erase.
  destruct (parse_items_step (items, cur) l) as [items' cur']. apply IH.
Qed.

(** Erasing the tags of [parse_items] gives [parse_paragraphs]. *)
Lemma items_erase text :
  map item_str (parse_items text) = parse_paragraphs text.
Proof.
  unfold parse_paragraphs, parse_items.
  change (@nil str, @nil str) with (map item_str [], @nil str).
  rewrite parse_fold_erase.
  destruct (fold_left parse_items_step (split NL text) ([], [])) as [items cur].
  simpl. symmetry. apply flush_erase.
Qed.

(** ** The repair loop *)

Lemma repair_cond_lt i (pgs : list str) :
  repair_cond (i, pgs) = true <-> (i + 1 < length pgs)%nat.
Proof. unfold repair_cond, len. simpl. rewrite Z.ltb_lt. lia. Qed.

Lemma repair_cond_measure st :
  repair_cond st = true <-> (0 < repair_measure st)%nat.
Proof.
  destruct st as [i pgs]. rewrite repair_cond_lt. unfold repair_measure.
  simpl. lia.
Qed.

Lemma list_split_at {A} (l : list A) i :
  (i + 1 < length l)%nat ->
  exists l1 p q l2, l = l1 ++ p :: q :: l2 /\ length l1 = i.
Proof.
  intros H. rewrite <- (take_drop i l).
  assert (Hd : length (drop i l) = (length l - i)%nat) by apply length_drop.
  destruct (drop i l) as [|p [|q l2]]; simpl in Hd; try lia.
  exists (take i l), p, q, l2. split; [reflexivity|].
  rewrite length_take. lia.
Qed.

(** One iteration at a cursor with a successor: a heading-only page takes
    its successor in and the cursor stays; any other page is passed. *)
Lemma repair_body_at l1 p q l2 :
  repair_body (length l1, l1 ++ p :: q :: l2) =
  if heading_only p then (length l1, l1 ++ (p ++ SEP ++ q) :: l2)
  else ((length l1 + 1)%nat, l1 ++ p :: q :: l2).
Proof.
  unfold repair_body.
  assert (Hp : nth (length l1) (l1 ++ p :: q :: l2) [] = p).
  { rewrite app_nth2 by lia. rewrite Nat.sub_diag. reflexivity. }
  assert (Hq : nth (length l1 + 1) (l1 ++ p :: q :: l2) [] = q).
  { rewrite app_nth2 by lia.
    replace (length l1 + 1 - length l1)%nat with 1%nat by lia. reflexivity. }
  rewrite Hp, Hq. destruct (heading_only p); [|reflexivity].
  f_equal.
  pose proof (insert_app_r l1 (p :: q :: l2) 0 (p ++ SEP ++ q)) as Hi.
  rewrite Nat.add_0_r in Hi. rewrite Hi. clear Hi.
  change (<[0%nat:=p ++ SEP ++ q]> (p :: q :: l2))
    with ([p ++ SEP ++ q] ++ q :: l2).
  rewrite app_assoc.
  replace (length l1 + 1)%nat with (length (l1 ++ [p ++ SEP ++ q])).
  - rewrite delete_middle, <- app_assoc. reflexivity.
  - rewrite length_app. reflexivity.
Qed.

Lemma repair_body_measure st :
  repair_cond st = true ->
  (repair_measure (repair_body st) + 1 = repair_measure st)%nat.
Proof.
  destruct st as [i pgs]. intros H. apply repair_cond_lt in H.
  destruct (list_split_at pgs i H) as (l1 & p & q & l2 & -> & <-).
  rewrite repair_body_at. unfold repair_measure.
  destruct (heading_only p); simpl; rewrite !length_app; simpl; lia.
Qed.

(** An iteration either merges, which removes one page and keeps the
    cursor, or advances the cursor and keeps the pages. *)
Lemma repair_body_cases st :
  repair_cond st = true ->
  (fst (repair_body st) = fst st
   /\ (length (snd (repair_body st)) + 1 = length (snd st))%nat)
  \/ (fst (repair_body st) = (fst st + 1)%nat
      /\ snd (repair_body st) = snd st).
Proof.
  destruct st as [i pgs]. intros H. apply repair_cond_lt in H.
  destruct (list_split_at pgs i H) as (l1 & p & q & l2 & -> & <-).
  rewrite repair_body_at.
  destruct (heading_only p); simpl; [left|right]; split; try reflexivity.
  rewrite !length_app. simpl. lia.
Qed.

Lemma repair_loop_stable n st :
  repair_cond st = false -> repair_loop n st = st.
Proof. intros H. destruct n; simpl; [reflexivity|]. rewrite H. reflexivity. Qed.

Lemma repair_loop_add a b st :
  repair_loop (a + b) st = repair_loop b (repair_loop a st).
Proof.
  revert st. induction a as [|a IH]; intros st; [reflexivity|]. simpl.
  destruct (repair_cond st) eqn:E; [apply IH|].
  symmetry. apply repair_loop_stable, E.
Qed.

Lemma repair_loop_measure n st :
  (n <= repair_measure st)%nat ->
  repair_measure (repair_loop n st) = (repair_measure st - n)%nat.
Proof.
  revert st. induction n as [|n IH]; intros st H; simpl; [lia|].
  assert (Hc : repair_cond st = true) by (apply repair_cond_measure; lia).
  rewrite Hc. pose proof (repair_body_measure st Hc). rewrite IH; lia.
Qed.

Lemma repair_loop_exits n st :
  (repair_measure st <= n)%nat -> repair_cond (repair_loop n st) = false.
Proof.
  intros H. replace n with (repair_measure st + (n - repair_measure st))%nat
    by lia.
  assert (E : repair_cond (repair_loop (repair_measure st) st) = false).
  { destruct (repair_cond _) eqn:E; [|reflexivity].
    apply repair_cond_measure in E. rewrite repair_loop_measure in E; lia. }
  rewrite repair_loop_add, repair_loop_stable; exact E.
Qed.

(** The loop of [repair] has exited when its iterations are used up. *)
Lemma repair_exits (pgs : list str) :
  repair_cond (repair_loop (length pgs) (O, pgs)) = false.
Proof. apply repair_loop_exits. unfold repair_measure. simpl. lia. Qed.

Lemma repair_body_settled st :
  repair_cond st = true -> settled st -> settled (repair_body st).
Proof.
  destruct st as [i pgs]. intros H Hs. apply repair_cond_lt in H.
  destruct (list_split_at pgs i H) as (l1 & p & q & l2 & -> & <-).
  rewrite repair_body_at. unfold settled in *. simpl in Hs.
  destruct (heading_only p) eqn:E; simpl; intros j Hj.
  - rewrite app_nth1 by lia. rewrite <- (Hs j Hj). rewrite app_nth1 by lia.
    reflexivity.
  - destruct (decide (j = length l1)) as [->|Hne].
    + rewrite app_nth2 by lia. rewrite Nat.sub_diag. exact E.
    + apply Hs. lia.
Qed.

Lemma repair_loop_settled n st : settled st -> settled (repair_loop n st).
Proof.
  revert st. induction n as [|n IH]; intros st Hs; simpl; [exact Hs|].
  destruct (repair_cond st) eqn:E; [|exact Hs].
  apply IH, repair_body_settled; assumption.
Qed.

Lemma Forall_removelast {A} (P : A -> Prop) (d : A) (l : list A) :
  (forall j, (j + 1 < length l)%nat -> P (nth j l d)) ->
  Forall P (removelast l).
Proof.
  induction l as [|a l IH]; intros H; [constructor|].
  destruct l as [|b l]; [constructor|].
  change (removelast (a :: b :: l)) with (a :: removelast (b :: l)).
  constructor.
  - apply (H O). simpl. lia.
  - apply IH. intros j Hj. apply (H (S j)). simpl in *. lia.
Qed.

(** After the repair no page but the last is heading-only. *)
Lemma repair_settled (pgs : list str) :
  Forall (fun pg => heading_only pg = false) (removelast (repair pgs)).
Proof.
  apply (Forall_removelast _ []). intros j Hj. unfold repair in *.
  pose proof (repair_exits pgs) as He.
  assert (Hs : settled (repair_loop (length pgs) (O, pgs))).
  { apply repair_loop_settled. intros k Hk. simpl in Hk. lia. }
  destruct (repair_loop (length pgs) (O, pgs)) as [i out]. simpl in *.
  apply Hs. simpl.
  destruct (Nat.lt_ge_cases j i) as [|Hge]; [assumption|].
  assert (Hc : repair_cond (i, out) = true) by (apply repair_cond_lt; lia).
  congruence.
Qed.










(** Claim C7. The repair loop exits for every page sequence. An iteration
    either merges, which removes one page and keeps the cursor, or advances
    the cursor and keeps the pages, so that the distance of the cursor from
    the last page shrinks by one each time; the loop runs [len(pages) - 1]
    iterations (none for an empty sequence), which is at most the initial
    page count, and [repair] returns the state it exits with. *)
Theorem repair_terminates (pgs : list str) :
  let n := (length pgs - 1)%nat in
  (n <= length pgs)%nat
  /\ (forall m, (m < n)%nat -> repair_cond (repair_loop m (O, pgs)) = true)
  /\ repair_cond (repair_loop n (O, pgs)) = false
  /\ repair pgs = snd (repair_loop n (O, pgs))
  /\ (forall st, repair_cond st = true ->
        (repair_measure (repair_body st) + 1 = repair_measure st)%nat
        /\ ((fst (repair_body st) = fst st
             /\ (length (snd (repair_body st)) + 1 = length (snd st))%nat)
            \/ (fst (repair_body st) = (fst st + 1)%nat
                /\ snd (repair_body st) = snd st))).
Proof.
  intros n. assert (Hm : repair_measure (O, pgs) = n).
  { unfold repair_measure, n. simpl. lia. }
  assert (He : repair_cond (repair_loop n (O, pgs)) = false).
  { apply repair_loop_exits. lia. }
  split; [lia|]. split; [|split; [exact He|split]].
  - intros m Hlt. apply repair_cond_measure.
    rewrite repair_loop_measure; lia.
  - unfold repair. replace (length pgs) with (n + (length pgs - n))%nat by lia.
    rewrite repair_loop_add, repair_loop_stable; [reflexivity|exact He].
  - intros st Hc. split; [apply repair_body_measure|apply repair_body_cases];
      exact Hc.
Qed.

Lemma repair_terminates_witness :
  let pgs := [lit "# One"; lit "text"; lit "more"] in
  (1 < 2)%nat
  /\ repair_cond (repair_loop 1 (O, pgs)) = true
  /\ repair_cond (O, pgs) = true
  /\ (repair_measure (repair_body (O, pgs)) + 1 = repair_measure (O, pgs))%nat.
Proof.
  intros pgs.
  destruct (repair_terminates pgs) as (_ & Hrun & _ & _ & Hstep).
  split; [lia|]. split; [apply Hrun; simpl; lia|].
  split; [reflexivity|]. apply Hstep. reflexivity.
Defined.

(** An iteration that advances the cursor leaves the page count as it was:
    not every iteration shrinks it. *)
Lemma repair_advance_keeps_page_count :
  let st := (O, [lit "a"; lit "b"]) in
  repair_cond st = true
  /\ ~ (length (snd (repair_body st)) < length (snd st))%nat.
Proof.
  split; [reflexivity|]. vm_compute. lia.
Qed.

(** ** The packer *)

Lemma total_len_app a b : total_len (a ++ b) = total_len a + total_len b.
Proof. induction a as [|x a IH]; simpl; [reflexivity|]. rewrite IH. lia. Qed.

Lemma content_app a b : content (a ++ b) = content a ++ content b.
Proof. apply List.filter_app. Qed.

Lemma snoc_cases {A} (l : list A) : l = [] \/ exists l' x, l = l' ++ [x].
Proof. induction l as [|x l' _] using rev_ind; [left|right]; eauto. Qed.

Lemma within_budget_single (p : str) : within_budget [p].
Proof. right. reflexivity. Qed.

Lemma within_budget_nil : within_budget [].
Proof. left. simpl. unfold TARGET_CHARS_PER_PAGE. lia. Qed.

(** The packer's step on the token. *)
Lemma pack_step_break st :
  pack_step st PAGE_BREAK =
  if nonempty (current st)
  then Packer (pages st ++ [join SEP (current st)]) [] 0
  else st.
Proof. reflexivity. Qed.

(** The packer's step on a heading. *)
Lemma pack_step_heading st para :
  para <> PAGE_BREAK -> is_heading para = true ->
  pack_step st para =
  Packer
    (if nonempty (current st) then
       if orphan st
       then removelast (pages st)
            ++ [List.last (pages st) [] ++ SEP ++ join SEP (current st)]
       else pages st ++ [join SEP (current st)]
     else pages st)
    [para] (len para).
Proof.
  intros Hp Hh. unfold pack_step, orphan. apply str_eqb_neq in Hp.
  rewrite Hp, Hh. destruct (nonempty (current st)); reflexivity.
Qed.

(** The packer's step on an ordinary paragraph. *)
Lemma pack_step_ordinary st para :
  para <> PAGE_BREAK -> is_heading para = false ->
  pack_step st para =
  if nonempty (current st)
     && (current_len st + len para >? TARGET_CHARS_PER_PAGE)
  then Packer (pages st ++ [join SEP (current st)]) [para] (len para)
  else Packer (pages st) (current st ++ [para]) (current_len st + len para).
Proof.
  intros Hp Hh. unfold pack_step. apply str_eqb_neq in Hp.
  rewrite Hp, Hh. reflexivity.
Qed.

Lemma content_token : content [PAGE_BREAK] = [].
Proof. reflexivity. Qed.

Lemma content_other para : para <> PAGE_BREAK -> content [para] = [para].
Proof.
  intros Hp. apply str_eqb_neq in Hp. unfold content. simpl. rewrite Hp.
  reflexivity.
Qed.

(** Completing the pending paragraphs as a page keeps the invariant. *)
Lemma pack_inv_complete merged done st cur' n' :
  pack_inv merged done st -> current st <> [] ->
  n' = total_len cur' -> within_budget cur' ->
  pack_inv merged (done ++ cur')
    (Packer (pages st ++ [join SEP (current st)]) cur' n').
Proof.
  intros (groups & Hpg & Hne & Hcat & Hlen & Hcur & Hb) Hc Hn' Hcur'.
  exists (groups ++ [current st]). simpl.
  rewrite Hpg, map_app, concat_app. simpl. rewrite app_nil_r.
  repeat split; auto.
  - apply Forall_app. split; [exact Hne|]. constructor; [exact Hc|constructor].
  - rewrite Hcat. reflexivity.
  - intros Hm. apply Forall_app. split; [auto|]. constructor; [exact Hcur|constructor].
Qed.

Lemma pack_step_inv merged done st para :
  pack_inv merged done st ->
  pack_inv (merged || orphan_merge st para) (done ++ content [para])
    (pack_step st para).
Proof.
  intros Hinv. unfold orphan_merge.
  destruct (str_eqb para PAGE_BREAK) eqn:Et.
  - apply str_eqb_eq in Et. subst para.
    rewrite pack_step_break, content_token. simpl. rewrite orb_false_r.
    destruct (nonempty (current st)) eqn:Ec.
    + apply pack_inv_complete; auto using within_budget_nil.
      apply nonempty_true, Ec.
    + rewrite app_nil_r. exact Hinv.
  - apply str_eqb_neq in Et. rewrite (content_other _ Et). simpl negb.
    rewrite andb_true_l. destruct (is_heading para) eqn:Eh.
    + rewrite (pack_step_heading _ _ Et Eh). rewrite andb_true_l.
      destruct (nonempty (current st)) eqn:Ec.
      * apply nonempty_true in Ec. destruct (orphan st) eqn:Eo.
        -- destruct Hinv as (groups & Hpg & Hne & Hcat & Hlen & Hcur & Hb).
           unfold orphan in Eo. apply andb_true_iff in Eo as [Eo _].
           apply andb_true_iff in Eo as [_ Eo].
           destruct (snoc_cases groups) as [->|(gs & g & ->)].
           { rewrite Hpg in Eo. discriminate. }
           rewrite Hpg, map_app. simpl map.
           rewrite removelast_last, last_last.
           apply Forall_app in Hne as [Hgs Hg]. inversion Hg; subst.
           exists (gs ++ [g ++ current st]). simpl.
           rewrite map_app. simpl map. rewrite join_app by assumption.
           repeat split.
           ++ apply Forall_app. split; [exact Hgs|].
              constructor; [|constructor]. destruct g; [congruence|discriminate].
           ++ rewrite !concat_app. simpl. rewrite !app_nil_r, <- !app_assoc.
              reflexivity.
           ++ simpl. lia.
           ++ apply within_budget_single.
           ++ rewrite orb_true_r. discriminate.
        -- rewrite orb_false_r.
           apply pack_inv_complete;
             [exact Hinv|exact Ec|simpl; lia|apply within_budget_single].
      * assert (Eo : orphan st = false)
          by (unfold orphan; rewrite Ec; reflexivity).
        rewrite Eo, orb_false_r.
        destruct Hinv as (groups & Hpg & Hne & Hcat & Hlen & Hcur & Hb).
        apply nonempty_false in Ec. exists groups. simpl. rewrite Ec in Hcat.
        rewrite app_nil_r in Hcat. subst done.
        repeat split; auto using within_budget_single. simpl. lia.
    + rewrite (pack_step_ordinary _ _ Et Eh). rewrite andb_false_l, orb_false_r.
      destruct (nonempty (current st) && _) eqn:Eover.
      * apply andb_true_iff in Eover as [Ec _]. apply nonempty_true in Ec.
        apply pack_inv_complete;
          [exact Hinv|exact Ec|simpl; lia|apply within_budget_single].
      * destruct Hinv as (groups & Hpg & Hne & Hcat & Hlen & Hcur & Hb).
        exists groups. simpl. rewrite app_assoc, Hcat.
        repeat split; auto.
        -- rewrite total_len_app, Hlen. simpl. lia.
        -- apply andb_false_iff in Eover as [Ec|Eo].
           ++ apply nonempty_false in Ec. rewrite Ec. apply within_budget_single.
           ++ left. rewrite total_len_app, <- Hlen. simpl.
              rewrite Z.add_0_r. unfold Z.gtb in Eo.
              destruct (_ ?= _) eqn:Ecmp; try discriminate;
                [apply Z.compare_eq in Ecmp | rewrite Z.compare_lt_iff in Ecmp];
                lia.
Qed.

Lemma pack_fold_inv ps merged done st :
  pack_inv merged done st ->
  pack_inv (merged || orphan_merges st ps) (done ++ content ps)
    (fold_left pack_step ps st).
Proof.
  revert merged done st. induction ps as [|para ps IH]; intros merged done st H.
  - simpl. rewrite orb_false_r, app_nil_r. exact H.
  - cbn [fold_left orphan_merges]. rewrite orb_assoc.
    change (para :: ps) with ([para] ++ ps). rewrite content_app, app_assoc.
    apply IH, pack_step_inv, H.
Qed.

(** The pages the packer returns serialize groups of paragraphs, none of
    them empty and together the content of the input in order; every group
    is within the budget if no orphan merge has run. *)
Lemma pack_groups ps :
  exists groups : list (list str),
    pack ps = map (join SEP) groups
    /\ Forall (fun g => g <> []) groups
    /\ concat groups = content ps
    /\ (orphan_merges pack_init ps = false -> Forall within_budget groups).
Proof.
  assert (H0 : pack_inv false [] pack_init).
  { exists []. simpl. repeat split; auto using within_budget_nil. }
  pose proof (pack_fold_inv ps _ _ _ H0) as H. simpl in H.
  unfold pack, pack_finish.
  destruct (fold_left pack_step ps pack_init) as [pgs cur n].
  destruct H as (groups & Hpg & Hne & Hcat & Hlen & Hcur & Hb). simpl in *.
  destruct cur as [|p cur]; simpl.
  - exists groups. rewrite app_nil_r in Hcat. auto.
  - exists (groups ++ [p :: cur]). rewrite Hpg, map_app, concat_app. simpl.
    rewrite app_nil_r. repeat split; auto.
    + apply Forall_app. split; [exact Hne|]. constructor; [discriminate|constructor].
    + intros Hm. apply Forall_app. split; [auto|]. constructor; [exact Hcur|constructor].
Qed.

(** ** The repair pass on groups of paragraphs *)

Lemma repair_loop_groups n :
  forall i (groups : list (list str)),
    Forall (fun g => g <> []) groups ->
    exists groups',
      snd (repair_loop n (i, map (join SEP) groups)) = map (join SEP) groups'
      /\ Forall (fun g => g <> []) groups'
      /\ concat groups' = concat groups.
Proof.
  induction n as [|n IH]; intros i groups Hne; [exists groups; auto|].
  cbn [repair_loop]. destruct (repair_cond (i, map (join SEP) groups)) eqn:E;
    [|exists groups; auto].
  apply repair_cond_lt in E. rewrite length_map in E.
  destruct (list_split_at groups i E) as (g1 & gp & gq & g2 & -> & <-).
  rewrite map_app. simpl map.
  rewrite <- (length_map (join SEP) g1), repair_body_at.
  apply Forall_app in Hne as [H1 Hne]. inversion Hne as [|? ? Hp Hne']; subst.
  inversion Hne' as [|? ? Hq H2]; subst.
  destruct (heading_only (join SEP gp)).
  - rewrite <- join_app by assumption.
    change (map (join SEP) g1 ++ join SEP (gp ++ gq) :: map (join SEP) g2)
      with (map (join SEP) g1 ++ map (join SEP) ((gp ++ gq) :: g2)).
    rewrite <- map_app.
    destruct (IH (length (map (join SEP) g1)) (g1 ++ (gp ++ gq) :: g2))
      as (groups' & Hs & Hn & Hc).
    + apply Forall_app. split; [exact H1|]. constructor; [|exact H2].
      destruct gp; [congruence|discriminate].
    + exists groups'. repeat split; [exact Hs|exact Hn|].
      rewrite Hc, !concat_app. simpl. rewrite <- app_assoc. reflexivity.
  - change (map (join SEP) g1 ++ join SEP gp :: join SEP gq :: map (join SEP) g2)
      with (map (join SEP) g1 ++ map (join SEP) (gp :: gq :: g2)).
    rewrite <- map_app. apply IH.
    apply Forall_app. split; [exact H1|]. repeat constructor; assumption.
Qed.

(** The final pages serialize groups of paragraphs, none of them empty and
    together the content of the input in order. *)
Lemma build_pages_groups ps :
  exists groups : list (list str),
    build_pages_from_paragraphs ps = map (join SEP) groups
    /\ Forall (fun g => g <> []) groups
    /\ concat groups = content ps.
Proof.
  destruct (pack_groups ps) as (groups & Hpg & Hne & Hcat & _).
  unfold build_pages_from_paragraphs, repair. rewrite Hpg.
  destruct (repair_loop_groups (length (map (join SEP) groups)) O groups Hne)
    as (groups' & Hs & Hn & Hc).
  exists groups'. rewrite Hc. auto.
Qed.

Lemma content_incl ps p : In p (content ps) -> In p ps.
Proof. unfold content. rewrite List.filter_In. tauto. Qed.

Lemma Forall_concat_inv {A} (P : A -> Prop) (ls : list (list A)) :
  Forall P (concat ls) -> Forall (Forall P) ls.
Proof.
  induction ls as [|l ls IH]; simpl; intros H; [constructor|].
  apply Forall_app in H as [H1 H2]. constructor; auto.
Qed.

Lemma blocks_groups (groups : list (list str)) :
  Forall (fun g => g <> []) groups ->
  Forall (Forall (fun p => is_paragraph p = true)) groups ->
  map blocks (map (join SEP) groups) = groups.
Proof.
  induction groups as [|g groups IH]; intros Hne Hp; [reflexivity|].
  inversion Hne; inversion Hp; subst. simpl. unfold blocks at 1.
  rewrite split_join by assumption. f_equal. apply IH; assumption.
Qed.

Lemma content_paragraphs text :
  Forall (fun p => is_paragraph p = true) (content (parse_paragraphs text)).
Proof.
  apply List.Forall_forall. intros p Hp. apply content_incl in Hp.
  pose proof (parse_paragraphs_ok text) as H.
  rewrite List.Forall_forall in H. apply H, Hp.
Qed.

(** Splitting the final pages gives back the content of the splitter's
    output. *)
Lemma blocks_raw_pages text :
  concat (map blocks (raw_pages text)) = content (parse_paragraphs text).
Proof.
  unfold raw_pages.
  destruct (build_pages_groups (parse_paragraphs text))
    as (groups & Hpg & Hne & Hcat).
  rewrite Hpg, blocks_groups; [exact Hcat|exact Hne|].
  apply Forall_concat_inv. rewrite Hcat. apply content_paragraphs.
Qed.

Lemma content_items (items : list item) :
  ~ In PAGE_BREAK (paragraphs_of items) ->
  content (map item_str items) = paragraphs_of items.
Proof.
  induction items as [|[text|] items IH]; intros H; [reflexivity| |].
  - simpl in H. change (map item_str (Para text :: items))
      with ([text] ++ map item_str items).
    rewrite content_app, content_other by (intros E; apply H; auto).
    simpl. f_equal. apply IH. tauto.
  - change (map item_str (Break :: items))
      with ([PAGE_BREAK] ++ map item_str items).
    rewrite content_app, content_token. simpl. apply IH, H.
Qed.

(** Claim C4. For every manuscript text in which no paragraph is the text
    [__PAGE_BREAK__], splitting each final page on the blank-line separator
    and concatenating the blocks in page order gives exactly the paragraphs
    the splitter has produced, without the forced-break markers. *)
Theorem pages_preserve_paragraphs (text : str) :
  ~ In PAGE_BREAK (paragraphs_of (parse_items text)) ->
  concat (map blocks (raw_pages text)) = paragraphs_of (parse_items text).
Proof.
  intros H. rewrite blocks_raw_pages, <- items_erase. apply content_items, H.
Qed.

Lemma pages_preserve_paragraphs_witness :
  let text :=
    lit "# One" ++ SEP ++ lit "a b" ++ NL ++ lit "c" ++ NL
    ++ lit "===PAGE===" ++ NL ++ lit "# Two" ++ SEP ++ lit "end" in
  ~ In PAGE_BREAK (paragraphs_of (parse_items text))
  /\ concat (map blocks (raw_pages text))
     = [lit "# One"; lit "a b" ++ NL ++ lit "c"; lit "# Two"; lit "end"].
Proof.
  intros text.
  assert (H : ~ In PAGE_BREAK (paragraphs_of (parse_items text))).
  { vm_compute. intros [E|[E|[E|[E|[]]]]]; discriminate E. }
  split; [exact H|].
  rewrite (pages_preserve_paragraphs text H). vm_compute. reflexivity.
Defined.

(** A paragraph whose text is the token is consumed as a forced break: the
    splitter produces it as a paragraph, and no page contains it. *)
Lemma token_paragraph_is_lost :
  let text :=
    lit "Intro." ++ SEP ++ lit "__PAGE_BREAK__" ++ SEP ++ lit "Outro." in
  parse_items text = [Para (lit "Intro."); Para PAGE_BREAK; Para (lit "Outro.")]
  /\ raw_pages text = [lit "Intro."; lit "Outro."]
  /\ concat (map blocks (raw_pages text)) <> paragraphs_of (parse_items text).
Proof.
  split; [vm_compute; reflexivity|]. split; [vm_compute; reflexivity|].
  vm_compute. discriminate.
Qed.

(** ** Pages are never empty *)

Lemma join_nonempty sep (g : list str) p :
  In p g -> p <> [] -> join sep g <> [].
Proof.
  intros Hin Hp. destruct (join_in sep g p Hin) as (a & b & ->).
  destruct a; [destruct p; [congruence|discriminate]|discriminate].
Qed.

Lemma no_content_no_pages ps :
  content ps = [] -> build_pages_from_paragraphs ps = [].
Proof.
  intros H. destruct (build_pages_groups ps) as (groups & -> & Hne & Hcat).
  rewrite H in Hcat. destruct groups as [|g groups]; [reflexivity|].
  inversion Hne; subst. simpl in Hcat. destruct g; [congruence|discriminate].
Qed.

Lemma parse_step_no_content ps raw :
  strip (rstrip_chars CR raw) = [] \/ strip (rstrip_chars CR raw) = SENTINEL ->
  content ps = [] ->
  exists ps', parse_step (ps, []) raw = (ps', []) /\ content ps' = [].
Proof.
  intros H Hc. unfold parse_step, flush. simpl nonempty. cbv iota.
  destruct (str_eqb _ SENTINEL) eqn:E.
  - exists (ps ++ [PAGE_BREAK]). split; [reflexivity|].
    rewrite content_app, Hc. reflexivity.
  - apply str_eqb_neq in E. destruct H as [H|H]; [|congruence].
    rewrite H. simpl. eauto.
Qed.

Lemma parse_fold_no_content lines :
  Forall (fun raw => strip (rstrip_chars CR raw) = []
                     \/ strip (rstrip_chars CR raw) = SENTINEL) lines ->
  forall ps, content ps = [] ->
  exists ps', fold_left parse_step lines (ps, []) = (ps', [])
              /\ content ps' = [].
Proof.
  induction 1 as [|raw lines Hraw _ IH]; intros ps Hc; [simpl; eauto|].
  destruct (parse_step_no_content ps raw Hraw Hc) as (ps1 & E & Hc1).
  cbn [fold_left]. rewrite E. apply IH, Hc1.
Qed.

(** A manuscript whose lines are all blank or sentinel lines has no page. *)
Lemma no_paragraph_no_pages text :
  Forall (fun raw => strip (rstrip_chars CR raw) = []
                     \/ strip (rstrip_chars CR raw) = SENTINEL)
    (split NL text) ->
  raw_pages text = [].
Proof.
  intros H. unfold raw_pages, parse_paragraphs.
  destruct (parse_fold_no_content _ H [] eq_refl) as (ps & -> & Hc).
  apply no_content_no_pages. exact Hc.
Qed.

Lemma serialized_nonempty (groups : list (list str)) :
  Forall (fun g => g <> []) groups ->
  Forall (Forall (fun p => is_paragraph p = true)) groups ->
  Forall (fun pg => pg <> []) (map (join SEP) groups).
Proof.
  induction groups as [|g groups IH]; intros Hne Hp; [constructor|].
  inversion Hne as [|? ? Hg Hne']; inversion Hp as [|? ? Hpg Hp']; subst.
  simpl. constructor; [|apply IH; assumption].
  destruct g as [|p g]; [congruence|]. inversion Hpg as [|? ? Hpar _]; subst.
  apply (join_nonempty SEP (p :: g) p); [left; reflexivity|].
  apply is_paragraph_inv in Hpar. tauto.
Qed.

Lemma raw_pages_nonempty text : Forall (fun pg => pg <> []) (raw_pages text).
Proof.
  unfold raw_pages.
  destruct (build_pages_groups (parse_paragraphs text))
    as (groups & -> & Hne & Hcat).
  apply serialized_nonempty; [exact Hne|].
  apply Forall_concat_inv. rewrite Hcat. apply content_paragraphs.
Qed.

(** Claim C5. The pagination is total and produces no empty page. For every
    manuscript text the repair loop has exited when [repair] returns, every
    page of the result is non-empty, and a text whose lines are all blank or
    sentinel lines (the empty text, whitespace, any number of blank lines)
    has zero pages. *)
Theorem pagination_total_without_empty_page (text : str) :
  repair_cond
    (repair_loop (length (pack (parse_paragraphs text)))
       (O, pack (parse_paragraphs text))) = false
  /\ Forall (fun pg => pg <> []) (raw_pages text)
  /\ (Forall (fun raw => strip (rstrip_chars CR raw) = []
                         \/ strip (rstrip_chars CR raw) = SENTINEL)
        (split NL text) ->
      raw_pages text = []).
Proof.
  split; [apply repair_exits|]. split; [apply raw_pages_nonempty|].
  apply no_paragraph_no_pages.
Qed.

Lemma pagination_total_without_empty_page_witness :
  let text := lit "  " ++ NL ++ NL ++ [9%N; 13%N] ++ NL ++ lit "===PAGE===" in
  Forall (fun raw => strip (rstrip_chars CR raw) = []
                     \/ strip (rstrip_chars CR raw) = SENTINEL)
    (split NL text)
  /\ raw_pages text = [].
Proof.
  intros text.
  assert (H : Forall (fun raw => strip (rstrip_chars CR raw) = []
                                 \/ strip (rstrip_chars CR raw) = SENTINEL)
                (split NL text)).
  { repeat (constructor; [first [left; reflexivity|right; reflexivity]|]).
    constructor. }
  split; [exact H|].
  apply (proj2 (proj2 (pagination_total_without_empty_page text))), H.
Defined.

(** ** The forced break and the orphan merge *)

Lemma heading_not_token para : is_heading para = true -> para <> PAGE_BREAK.
Proof. intros H ->. vm_compute in H. discriminate. Qed.

(** Claim C6. A forced-break marker completes the pending paragraphs as a
    page whatever their accumulated length; with nothing pending it changes
    nothing, and a manuscript of sentinel lines only has zero pages. *)
Theorem forced_break_unconditional :
  (forall st, current st <> [] ->
     pack_step st PAGE_BREAK
     = Packer (pages st ++ [join SEP (current st)]) [] 0)
  /\ (forall st, current st = [] -> pack_step st PAGE_BREAK = st)
  /\ (forall text,
        Forall (fun raw => strip (rstrip_chars CR raw) = SENTINEL)
          (split NL text) ->
        raw_pages text = []).
Proof.
  split; [|split].
  - intros st H. rewrite pack_step_break.
    apply nonempty_true in H. rewrite H. reflexivity.
  - intros st H. rewrite pack_step_break, H. reflexivity.
  - intros text H. apply no_paragraph_no_pages.
    eapply Forall_impl; [exact H|]. intros raw Hr. right. exact Hr.
Qed.

Lemma forced_break_unconditional_witness :
  let st := Packer [lit "first"] [lit "a"; lit "b"] 2 in
  let text := lit "===PAGE===" ++ NL ++ lit "===PAGE===" in
  current st <> []
  /\ pack_step st PAGE_BREAK
     = Packer [lit "first"; lit "a" ++ SEP ++ lit "b"] [] 0
  /\ pack_step pack_init PAGE_BREAK = pack_init
  /\ Forall (fun raw => strip (rstrip_chars CR raw) = SENTINEL) (split NL text)
  /\ raw_pages text = [].
Proof.
  intros st text.
  destruct forced_break_unconditional as (Hbreak & Hnoop & Hzero).
  assert (Hc : current st <> []) by discriminate.
  assert (Hl : Forall (fun raw => strip (rstrip_chars CR raw) = SENTINEL)
                 (split NL text)).
  { vm_compute. repeat constructor. }
  split; [exact Hc|]. split; [exact (Hbreak st Hc)|].
  split; [exact (Hnoop pack_init eq_refl)|]. split; [exact Hl|].
  exact (Hzero text Hl).
Defined.

(** Claim C2. At a heading with pending content: if a completed page exists
    and the accumulated length is below 450, the pending content is
    appended, after the blank-line separator, to the last completed page and
    no page is added; if no completed page exists the pending content
    becomes a page of its own, as it does when the accumulated length is 450
    or more. In each case the heading starts the new pending content. *)
Theorem orphan_merge_rule (st : packer) (para : str) :
  is_heading para = true -> current st <> [] ->
  (pages st <> [] -> current_len st < MIN_CHARS_PER_PAGE ->
   pack_step st para
   = Packer
       (removelast (pages st)
        ++ [List.last (pages st) [] ++ SEP ++ join SEP (current st)])
       [para] (len para))
  /\ (pages st = [] ->
      pack_step st para = Packer [join SEP (current st)] [para] (len para))
  /\ (MIN_CHARS_PER_PAGE <= current_len st ->
      pack_step st para
      = Packer (pages st ++ [join SEP (current st)]) [para] (len para)).
Proof.
  intros Hh Hc. rewrite (pack_step_heading st para (heading_not_token _ Hh) Hh).
  apply nonempty_true in Hc. unfold orphan. rewrite Hc. simpl andb.
  split; [|split].
  - intros Hp Hlt. destruct (pages st) as [|pg pgs] eqn:E; [congruence|].
    replace (len (pg :: pgs) >? 0) with true
      by (unfold len; simpl length; symmetry; apply Z.gtb_lt; lia).
    apply Z.ltb_lt in Hlt. rewrite Hlt. reflexivity.
  - intros ->. reflexivity.
  - intros Hge. replace (current_len st <? MIN_CHARS_PER_PAGE) with false
      by (symmetry; apply Z.ltb_ge; lia).
    rewrite andb_false_r. reflexivity.
Qed.

Lemma orphan_merge_rule_witness :
  let para := lit "# Two" in
  is_heading para = true
  /\ pack_step (Packer [lit "first"] [lit "tail"] 4) para
     = Packer [lit "first" ++ SEP ++ lit "tail"] [para] 5
  /\ pack_step (Packer [] [lit "tail"] 4) para
     = Packer [lit "tail"] [para] 5
  /\ pack_step (Packer [lit "first"] [lit "tail"] 450) para
     = Packer [lit "first"; lit "tail"] [para] 5.
Proof.
  intros para. assert (Hh : is_heading para = true) by reflexivity.
  assert (Hm : 4 < MIN_CHARS_PER_PAGE) by (unfold MIN_CHARS_PER_PAGE; lia).
  assert (Hn : MIN_CHARS_PER_PAGE <= 450) by (unfold MIN_CHARS_PER_PAGE; lia).
  split; [exact Hh|]. split; [|split].
  - destruct (orphan_merge_rule (Packer [lit "first"] [lit "tail"] 4) para Hh)
      as (H & _ & _); [discriminate|].
    apply H; [discriminate|exact Hm].
  - destruct (orphan_merge_rule (Packer [] [lit "tail"] 4) para Hh)
      as (_ & H & _); [discriminate|].
    apply H. reflexivity.
  - destruct (orphan_merge_rule (Packer [lit "first"] [lit "tail"] 450) para Hh)
      as (_ & _ & H); [discriminate|].
    apply H. exact Hn.
Defined.

(** ** The budget *)

(** ** The marked packer and repair pass *)

Lemma map_fst_removelast {A B} (l : list (A * B)) :
  map fst (removelast l) = removelast (map fst l).
Proof.
  induction l as [|a l IH]; [reflexivity|]. destruct l as [|b l]; [reflexivity|].
  change (removelast (a :: b :: l)) with (a :: removelast (b :: l)).
  cbn [map]. rewrite IH. reflexivity.
Qed.

Lemma fst_last {A B} (l : list (A * B)) d :
  fst (List.last l d) = List.last (map fst l) (fst d).
Proof.
  induction l as [|a l IH]; [reflexivity|]. destruct l as [|b l]; [reflexivity|].
  exact IH.
Qed.

Lemma len_map {A B} (f : A -> B) (l : list A) : len (map f l) = len l.
Proof. unfold len. rewrite length_map. reflexivity. Qed.

(** Erasing the marks commutes with the packer's step. *)
Lemma untag_step st para :
  untag (pack_step_tagged st para) = pack_step (untag st) para.
Proof.
  unfold pack_step_tagged, pack_step, untag. cbn [pages current current_len].
  rewrite len_map.
  destruct (str_eqb para PAGE_BREAK).
  - destruct (nonempty (tcurrent st)); [|reflexivity].
    cbn [tpages tcurrent tcurrent_len]. rewrite map_app. reflexivity.
  - destruct (is_heading para).
    + cbn [tpages tcurrent tcurrent_len]. f_equal.
      destruct (nonempty (tcurrent st)); [|reflexivity].
      destruct ((len (tpages st) >? 0)
                && (tcurrent_len st <? MIN_CHARS_PER_PAGE)).
      * rewrite map_app, map_fst_removelast, (fst_last _ ([], false)).
        reflexivity.
      * rewrite map_app. reflexivity.
    + destruct (nonempty (tcurrent st)
                && (tcurrent_len st + len para >? TARGET_CHARS_PER_PAGE));
        cbn [tpages tcurrent tcurrent_len]; [rewrite map_app|]; reflexivity.
Qed.

Lemma untag_fold ps :
  forall st,
    untag (fold_left pack_step_tagged ps st) = fold_left pack_step ps (untag st).
Proof.
  induction ps as [|p ps IH]; intros st; [reflexivity|].
  cbn [fold_left]. rewrite IH, untag_step. reflexivity.
Qed.

Lemma pack_tagged_erase ps : map fst (pack_tagged ps) = pack ps.
Proof.
  unfold pack_tagged, pack, pack_finish_tagged, pack_finish.
  change pack_init with (untag pack_init_tagged). rewrite <- untag_fold.
  destruct (fold_left pack_step_tagged ps pack_init_tagged) as [pgs cur n].
  unfold untag. cbn [tpages tcurrent tcurrent_len pages current].
  destruct (nonempty cur); [rewrite map_app|]; reflexivity.
Qed.

Lemma nth_map_fst (l : list (str * bool)) i :
  nth i (map fst l) [] = fst (nth i l ([], false)).
Proof. apply (map_nth fst l ([], false) i). Qed.

(** Erasing the marks commutes with the body of the repair loop. *)
Lemma repair_body_tagged_erase i (l : list (str * bool)) :
  (fst (repair_body_tagged (i, l)), map fst (snd (repair_body_tagged (i, l))))
  = repair_body (i, map fst l).
Proof.
  unfold repair_body_tagged, repair_body. rewrite !nth_map_fst.
  destruct (heading_only (fst (nth i l ([], false)))); [|reflexivity].
  cbn [fst snd]. f_equal.
  change (map fst) with (fmap (M := list) (@fst str bool)).
  rewrite list_fmap_delete, list_fmap_insert. reflexivity.
Qed.

Lemma repair_loop_tagged_erase n :
  forall st,
    (fst (repair_loop_tagged n st), map fst (snd (repair_loop_tagged n st)))
    = repair_loop n (fst st, map fst (snd st)).
Proof.
  induction n as [|n IH]; intros st; [reflexivity|].
  cbn [repair_loop_tagged repair_loop].
  destruct (repair_cond (fst st, map fst (snd st))); [|reflexivity].
  rewrite IH. destruct st as [i l]. cbn [fst snd].
  rewrite repair_body_tagged_erase. reflexivity.
Qed.

Lemma repair_tagged_erase l : map fst (repair_tagged l) = repair (map fst l).
Proof.
  unfold repair_tagged, repair. rewrite length_map.
  pose proof (repair_loop_tagged_erase (length l) (O, l)) as H.
  cbn [fst snd] in H. rewrite <- H. reflexivity.
Qed.

(** Erasing the marks of [tagged_pages] gives the pages. *)
Lemma tagged_pages_erase text : map fst (tagged_pages text) = raw_pages text.
Proof.
  unfold tagged_pages, raw_pages, build_pages_from_paragraphs.
  rewrite repair_tagged_erase, pack_tagged_erase. reflexivity.
Qed.

Lemma budgeted_marked ps pg : budgeted ps (pg, true).
Proof. intros H. discriminate H. Qed.

Lemma budgeted_current ps st :
  tagged_inv ps st -> tcurrent st <> [] ->
  budgeted ps (join SEP (tcurrent st), false).
Proof.
  intros (_ & _ & Hb & Hin) Hne _. exists (tcurrent st). auto.
Qed.

Lemma Forall_removelast_sub {A} (P : A -> Prop) (l : list A) :
  Forall P l -> Forall P (removelast l).
Proof.
  induction 1 as [|a l Ha Hl IH]; [constructor|].
  destruct l as [|b l]; [constructor|].
  change (removelast (a :: b :: l)) with (a :: removelast (b :: l)).
  constructor; assumption.
Qed.

Lemma Forall_snoc {A} (P : A -> Prop) (l : list A) x :
  Forall P l -> P x -> Forall P (l ++ [x]).
Proof. intros Hl Hx. apply Forall_app. split; [exact Hl|]. constructor; auto. Qed.

(** The step of the marked packer keeps its invariant. *)
Lemma tagged_step_inv ps st para :
  In para ps -> tagged_inv ps st -> tagged_inv ps (pack_step_tagged st para).
Proof.
  intros Hin Hinv. pose proof Hinv as (Hpg & Hlen & Hb & Hcur).
  assert (Hsingle : tagged_inv ps
            (TaggedPacker (tpages st ++ [(join SEP (tcurrent st), false)])
               [para] (len para)) \/ tcurrent st = []).
  { destruct (tcurrent st) as [|c cur] eqn:E; [right; reflexivity|left].
    rewrite <- E. split; [|split; [|split]]; cbn [tpages tcurrent tcurrent_len].
    - apply Forall_snoc; [exact Hpg|]. apply budgeted_current; [exact Hinv|].
      rewrite E. discriminate.
    - simpl. lia.
    - apply within_budget_single.
    - constructor; [exact Hin|constructor]. }
  unfold pack_step_tagged.
  destruct (str_eqb para PAGE_BREAK).
  - destruct (nonempty (tcurrent st)) eqn:Ec; [|exact Hinv].
    apply nonempty_true in Ec.
    split; [|split; [|split]]; cbn [tpages tcurrent tcurrent_len].
    + apply Forall_snoc; [exact Hpg|]. apply budgeted_current; assumption.
    + reflexivity.
    + apply within_budget_nil.
    + constructor.
  - destruct (is_heading para).
    + destruct (nonempty (tcurrent st)) eqn:Ec.
      * destruct ((len (tpages st) >? 0)
                  && (tcurrent_len st <? MIN_CHARS_PER_PAGE)).
        -- split; [|split; [|split]]; cbn [tpages tcurrent tcurrent_len].
           ++ apply Forall_snoc; [apply Forall_removelast_sub, Hpg|].
              apply budgeted_marked.
           ++ simpl. lia.
           ++ apply within_budget_single.
           ++ constructor; [exact Hin|constructor].
        -- destruct Hsingle as [H|H]; [exact H|].
           rewrite H in Ec. discriminate.
      * split; [|split; [|split]]; cbn [tpages tcurrent tcurrent_len].
        -- exact Hpg.
        -- simpl. lia.
        -- apply within_budget_single.
        -- constructor; [exact Hin|constructor].
    + destruct (nonempty (tcurrent st)
                && (tcurrent_len st + len para >? TARGET_CHARS_PER_PAGE))
        eqn:Eover.
      * destruct Hsingle as [H|H]; [exact H|].
        rewrite H in Eover. discriminate.
      * split; [|split; [|split]]; cbn [tpages tcurrent tcurrent_len].
        -- exact Hpg.
        -- rewrite total_len_app, Hlen. simpl. lia.
        -- apply andb_false_iff in Eover as [Ec|Eo].
           ++ apply nonempty_false in Ec. rewrite Ec. apply within_budget_single.
           ++ left. rewrite total_len_app, <- Hlen. simpl.
              rewrite Z.add_0_r. unfold Z.gtb in Eo.
              destruct (_ ?= _) eqn:Ecmp; try discriminate;
                [apply Z.compare_eq in Ecmp | rewrite Z.compare_lt_iff in Ecmp];
                lia.
        -- apply Forall_snoc; assumption.
Qed.

Lemma tagged_fold_inv ps l :
  Forall (fun p => In p ps) l ->
  forall st, tagged_inv ps st -> tagged_inv ps (fold_left pack_step_tagged l st).
Proof.
  induction 1 as [|p l Hp _ IH]; intros st H; [exact H|].
  cbn [fold_left]. apply IH, tagged_step_inv; assumption.
Qed.

Lemma pack_tagged_budgeted ps : Forall (budgeted ps) (pack_tagged ps).
Proof.
  assert (H0 : tagged_inv ps pack_init_tagged).
  { split; [constructor|]. split; [reflexivity|].
    split; [apply within_budget_nil|constructor]. }
  assert (Hall : Forall (fun p => In p ps) ps)
    by (apply List.Forall_forall; auto).
  pose proof (tagged_fold_inv ps ps Hall _ H0) as H.
  unfold pack_tagged, pack_finish_tagged.
  destruct (nonempty (tcurrent _)) eqn:Ec; [|apply H].
  apply nonempty_true in Ec.
  apply Forall_snoc; [apply H|]. apply budgeted_current; assumption.
Qed.

(** The repair pass makes marked pages only. *)
Lemma repair_body_tagged_keeps (P : str * bool -> Prop) st :
  (forall pg, P (pg, true)) -> Forall P (snd st) ->
  Forall P (snd (repair_body_tagged st)).
Proof.
  intros Hm H. destruct st as [i l]. unfold repair_body_tagged.
  destruct (heading_only _); [|exact H]. cbn [snd] in *.
  apply Forall_delete, Forall_insert; [exact H|apply Hm].
Qed.

Lemma repair_loop_tagged_keeps (P : str * bool -> Prop) n :
  (forall pg, P (pg, true)) ->
  forall st, Forall P (snd st) -> Forall P (snd (repair_loop_tagged n st)).
Proof.
  intros Hm. induction n as [|n IH]; intros st H; [exact H|].
  cbn [repair_loop_tagged]. destruct (repair_cond _); [|exact H].
  apply IH, repair_body_tagged_keeps; assumption.
Qed.

Lemma tagged_pages_budgeted text :
  Forall (budgeted (parse_paragraphs text)) (tagged_pages text).
Proof.
  unfold tagged_pages, repair_tagged.
  apply repair_loop_tagged_keeps; [apply budgeted_marked|].
  apply pack_tagged_budgeted.
Qed.

(** Without an orphan merge the packer marks no page. *)
Lemma pack_step_tagged_unmarked st para :
  orphan_merge (untag st) para = false ->
  Forall (fun pb => snd pb = false) (tpages st) ->
  Forall (fun pb => snd pb = false) (tpages (pack_step_tagged st para)).
Proof.
  intros Ho H. unfold orphan_merge, orphan, untag in Ho.
  cbn [pages current current_len] in Ho. rewrite len_map in Ho.
  unfold pack_step_tagged.
  destruct (str_eqb para PAGE_BREAK).
  - destruct (nonempty (tcurrent st)); [|exact H].
    cbn [tpages]. apply Forall_snoc; [exact H|reflexivity].
  - destruct (is_heading para); cbn [negb andb] in Ho.
    + cbn [tpages]. destruct (nonempty (tcurrent st)); [|exact H].
      cbn [andb] in Ho. rewrite Ho.
      apply Forall_snoc; [exact H|reflexivity].
    + destruct (nonempty (tcurrent st) && _); cbn [tpages]; [|exact H].
      apply Forall_snoc; [exact H|reflexivity].
Qed.

Lemma pack_fold_tagged_unmarked ps :
  forall st,
    orphan_merges (untag st) ps = false ->
    Forall (fun pb => snd pb = false) (tpages st) ->
    Forall (fun pb => snd pb = false)
      (tpages (fold_left pack_step_tagged ps st)).
Proof.
  induction ps as [|p ps IH]; intros st Ho H; [exact H|].
  cbn [fold_left]. cbn [orphan_merges] in Ho.
  apply orb_false_iff in Ho as [H1 H2].
  apply IH; [rewrite untag_step; exact H2|].
  apply pack_step_tagged_unmarked; assumption.
Qed.

Lemma pack_tagged_unmarked ps :
  orphan_merges pack_init ps = false ->
  Forall (fun pb => snd pb = false) (pack_tagged ps).
Proof.
  intros Ho.
  pose proof (pack_fold_tagged_unmarked ps pack_init_tagged Ho
                ltac:(constructor)) as H.
  unfold pack_tagged, pack_finish_tagged.
  destruct (nonempty (tcurrent _)); [|exact H].
  apply Forall_snoc; [exact H|reflexivity].
Qed.

(** Where no page before the last is heading-only, the marked repair pass
    changes nothing. *)
Lemma repair_loop_tagged_fixed (l : list (str * bool)) n :
  (forall j, (j + 1 < length l)%nat ->
     heading_only (fst (nth j l ([], false))) = false) ->
  forall i, snd (repair_loop_tagged n (i, l)) = l.
Proof.
  intros H. induction n as [|n IH]; intros i; [reflexivity|].
  cbn [repair_loop_tagged fst snd].
  destruct (repair_cond (i, map fst l)) eqn:E; [|reflexivity].
  apply repair_cond_lt in E. rewrite length_map in E.
  unfold repair_body_tagged. rewrite (H i E). apply IH.
Qed.

Lemma removelast_nth_in {A} (d : A) (l : list A) :
  forall j, (j + 1 < length l)%nat -> In (nth j l d) (removelast l).
Proof.
  induction l as [|a l IH]; intros j H; [simpl in H; lia|].
  destruct l as [|b l]; [simpl in H; lia|].
  change (removelast (a :: b :: l)) with (a :: removelast (b :: l)).
  destruct j as [|j]; [left; reflexivity|]. right. apply IH. simpl in *. lia.
Qed.

Lemma repair_tagged_fixed (l : list (str * bool)) :
  repair (map fst l) = map fst l -> repair_tagged l = l.
Proof.
  intros Hfix. apply repair_loop_tagged_fixed. intros j Hj.
  pose proof (repair_settled (map fst l)) as Hs. rewrite Hfix in Hs.
  rewrite List.Forall_forall in Hs. rewrite <- nth_map_fst.
  apply Hs, removelast_nth_in. rewrite length_map. exact Hj.
Qed.

(** Claim C3. Marking every page that the orphan merge or the repair merge
    has enlarged changes no page, and for every manuscript a final page
    without a mark whose length (the characters of its paragraphs,
    separators not counted) exceeds 1000 is a single paragraph of the
    manuscript, whose own length exceeds 1000; this holds also when other
    pages of the manuscript have been merged. On a manuscript on which the
    packer never takes the orphan merge and the repair pass leaves the
    packer's pages as they are, no page has a mark. *)
Theorem over_budget_page_is_one_paragraph (text : str) :
  map fst (tagged_pages text) = raw_pages text
  /\ (forall pg, In (pg, false) (tagged_pages text) ->
        TARGET_CHARS_PER_PAGE < page_length pg ->
        blocks pg = [pg] /\ In pg (parse_paragraphs text)
        /\ TARGET_CHARS_PER_PAGE < len pg)
  /\ (orphan_merges pack_init (parse_paragraphs text) = false ->
      repair (pack (parse_paragraphs text)) = pack (parse_paragraphs text) ->
      Forall (fun pb => snd pb = false) (tagged_pages text)).
Proof.
  split; [apply tagged_pages_erase|]. split.
  - intros pg Hin Hlen.
    pose proof (tagged_pages_budgeted text) as H.
    rewrite List.Forall_forall in H.
    destruct (H _ Hin eq_refl) as (g & Hpg & Hne & Hb & Hg).
    cbn [fst] in Hpg. subst pg.
    assert (Hpar : Forall (fun p => is_paragraph p = true) g).
    { pose proof (parse_paragraphs_ok text) as Hp.
      rewrite List.Forall_forall in Hp, Hg. apply List.Forall_forall.
      intros p Hp'. apply Hp, Hg, Hp'. }
    unfold page_length, blocks in *. rewrite split_join in * by assumption.
    destruct Hb as [Hle|Hone]; [lia|].
    destruct g as [|p [|q g]]; try discriminate. simpl in *.
    inversion Hg; subst. split; [reflexivity|]. split; [assumption|lia].
  - intros Horph Hrep. unfold tagged_pages.
    rewrite repair_tagged_fixed by (rewrite pack_tagged_erase; exact Hrep).
    apply pack_tagged_unmarked, Horph.
Qed.

Lemma over_budget_page_is_one_paragraph_witness :
  let long := repeat 97%N 1001 in
  let b := repeat 98%N 900 in
  let c := repeat 99%N 200 in
  let text := long ++ SEP ++ b ++ SEP ++ c ++ SEP ++ lit "# End" in
  tagged_pages text = [(long, false); (b ++ SEP ++ c, true); (lit "# End", false)]
  /\ orphan_merges pack_init (parse_paragraphs text) = true
  /\ In (long, false) (tagged_pages text)
  /\ TARGET_CHARS_PER_PAGE < page_length long
  /\ blocks long = [long] /\ In long (parse_paragraphs text)
  /\ TARGET_CHARS_PER_PAGE < len long.
Proof.
  intros long b c text.
  assert (H1 : tagged_pages text
               = [(long, false); (b ++ SEP ++ c, true); (lit "# End", false)])
    by (vm_compute; reflexivity).
  assert (H2 : orphan_merges pack_init (parse_paragraphs text) = true)
    by (vm_compute; reflexivity).
  assert (H3 : In (long, false) (tagged_pages text))
    by (rewrite H1; left; reflexivity).
  assert (H4 : TARGET_CHARS_PER_PAGE < page_length long)
    by (vm_compute; reflexivity).
  split; [exact H1|]. split; [exact H2|]. split; [exact H3|].
  split; [exact H4|].
  destruct (over_budget_page_is_one_paragraph text) as (_ & H & _).
  exact (H long H3 H4).
Defined.

(** The orphan merge makes a page of 900 + 200 characters although no
    paragraph is longer than 1000. *)
Lemma orphan_merge_exceeds_budget :
  let a := repeat 97%N 900 in
  let b := repeat 98%N 200 in
  let text := a ++ SEP ++ b ++ SEP ++ lit "# H" ++ SEP ++ lit "x" in
  let pg := a ++ SEP ++ b in
  parse_paragraphs text = [a; b; lit "# H"; lit "x"]
  /\ raw_pages text = [pg; lit "# H" ++ SEP ++ lit "x"]
  /\ blocks pg = [a; b]
  /\ page_length pg = 1100 /\ len pg = 1102
  /\ ~ (exists p, In p (blocks pg) /\ TARGET_CHARS_PER_PAGE < len p).
Proof.
  intros a b text pg.
  assert (Hb : blocks pg = [a; b]) by (vm_compute; reflexivity).
  split; [vm_compute; reflexivity|]. split; [vm_compute; reflexivity|].
  split; [exact Hb|]. split; [vm_compute; reflexivity|].
  split; [vm_compute; reflexivity|].
  intros (p & Hin & Hlt). rewrite Hb in Hin.
  destruct Hin as [<-|[<-|[]]]; vm_compute in Hlt; discriminate.
Qed.

(** The repair merge does the same with a heading that the budget has left
    alone on its page. *)
Lemma repair_merge_exceeds_budget :
  let h := lit "# " ++ repeat 97%N 600 in
  let b := repeat 98%N 500 in
  let text := h ++ SEP ++ b in
  pack (parse_paragraphs text) = [h; b]
  /\ raw_pages text = [h ++ SEP ++ b]
  /\ page_length (h ++ SEP ++ b) = 1102
  /\ forallb (fun p => len p <=? TARGET_CHARS_PER_PAGE)
       (blocks (h ++ SEP ++ b)) = true.
Proof.
  intros h b text. repeat split; vm_compute; reflexivity.
Qed.

(** ** The inline renderer *)

Lemma star_free_app a b : star_free (a ++ b) = star_free a && star_free b.
Proof. apply forallb_app. Qed.

Lemma html_escape_app a b : html_escape (a ++ b) = html_escape a ++ html_escape b.
Proof. apply flat_map_app. Qed.

Lemma escape_char_star_free c :
  (c =? STAR)%N = false -> star_free (escape_char c) = true.
Proof.
  intros H. unfold escape_char.
  repeat (match goal with |- context [if ?b then _ else _] => destruct b end;
          [reflexivity|]).
  simpl. rewrite H. reflexivity.
Qed.

Lemma escape_char_nonempty c : escape_char c <> [].
Proof.
  unfold escape_char.
  repeat (match goal with |- context [if ?b then _ else _] => destruct b end;
          [discriminate|]).
  discriminate.
Qed.

Lemma html_escape_star_free s :
  star_free s = true -> star_free (html_escape s) = true.
Proof.
  induction s as [|c s IH]; [reflexivity|]. simpl. intros H.
  apply andb_true_iff in H as [Hc Hs]. apply negb_true_iff in Hc.
  rewrite star_free_app, escape_char_star_free, IH by assumption. reflexivity.
Qed.

Lemma html_escape_nonempty s : s <> [] -> html_escape s <> [].
Proof.
  destruct s as [|c s]; [congruence|]. intros _. simpl.
  pose proof (escape_char_nonempty c). destruct (escape_char c);
    [congruence|discriminate].
Qed.

Lemma sub_go_0 k o c x r :
  sub_go k o c 0 (x :: r) =
  match match_emph k (x :: r) with
  | Some body => o ++ body ++ c ++ sub_go k o c (k + length body + k - 1) r
  | None => x :: sub_go k o c 0 r
  end.
Proof. reflexivity. Qed.

Lemma match_emph_nonstar k x r :
  (0 < k)%nat -> (x =? STAR)%N = false -> match_emph k (x :: r) = None.
Proof.
  intros Hk Hx. unfold match_emph. destruct k as [|k]; [lia|].
  change (startswith (repeat STAR (S k)) (x :: r))
    with ((STAR =? x)%N && startswith (repeat STAR k) r).
  rewrite N.eqb_sym, Hx. reflexivity.
Qed.

Lemma sub_go_prefix k o c pre s :
  (0 < k)%nat -> star_free pre = true ->
  sub_go k o c 0 (pre ++ s) = pre ++ sub_go k o c 0 s.
Proof.
  intros Hk. induction pre as [|x pre IH]; [reflexivity|]. simpl star_free.
  intros H. apply andb_true_iff in H as [Hx Hp]. apply negb_true_iff in Hx.
  change ((x :: pre) ++ s) with (x :: (pre ++ s)).
  rewrite sub_go_0, match_emph_nonstar, IH by assumption. reflexivity.
Qed.

(** Text without a star is left as it is. *)
Lemma sub_emph_star_free k o c s :
  (0 < k)%nat -> star_free s = true -> sub_emph k o c s = s.
Proof.
  intros Hk Hs. unfold sub_emph. rewrite <- (app_nil_r s) at 1.
  rewrite sub_go_prefix by assumption. simpl. apply app_nil_r.
Qed.

Lemma sub_go_skip k o c a b :
  sub_go k o c (length a) (a ++ b) = sub_go k o c 0 b.
Proof. induction a as [|x a IH]; [reflexivity|]. simpl. exact IH. Qed.

Lemma span_nonstar_app t r :
  star_free t = true -> span_nonstar (t ++ STAR :: r) = (t, STAR :: r).
Proof.
  induction t as [|x t IH]; [reflexivity|]. simpl star_free. intros H.
  apply andb_true_iff in H as [Hx Ht]. apply negb_true_iff in Hx.
  simpl. rewrite Hx, IH by assumption. reflexivity.
Qed.

Lemma startswith_app p s : startswith p (p ++ s) = true.
Proof.
  induction p as [|a p IH]; [reflexivity|]. simpl. rewrite N.eqb_refl. exact IH.
Qed.

Lemma skipn_stars k s : skipn k (repeat STAR k ++ s) = s.
Proof. induction k as [|k IH]; [reflexivity|]. simpl. exact IH. Qed.

Lemma match_emph_hit k t post :
  (0 < k)%nat -> star_free t = true -> t <> [] ->
  match_emph k (repeat STAR k ++ t ++ repeat STAR k ++ post) = Some t.
Proof.
  intros Hk Ht Hne. unfold match_emph.
  rewrite startswith_app, skipn_stars.
  destruct k as [|k]; [lia|].
  change (repeat STAR (S k) ++ post) with (STAR :: (repeat STAR k ++ post)).
  rewrite span_nonstar_app by assumption.
  change (STAR :: (repeat STAR k ++ post)) with (repeat STAR (S k) ++ post).
  rewrite startswith_app. apply nonempty_true in Hne. rewrite Hne. reflexivity.
Qed.

Lemma sub_emph_prefix k o c pre s :
  (0 < k)%nat -> star_free pre = true ->
  sub_emph k o c (pre ++ s) = pre ++ sub_emph k o c s.
Proof. apply sub_go_prefix. Qed.

(** The first marked run of a text is replaced by its markup, and the
    substitution goes on after it. *)
Lemma sub_emph_hit k o c pre t post :
  (0 < k)%nat -> star_free pre = true -> star_free t = true -> t <> [] ->
  sub_emph k o c (pre ++ repeat STAR k ++ t ++ repeat STAR k ++ post)
  = pre ++ o ++ t ++ c ++ sub_emph k o c post.
Proof.
  intros Hk Hpre Ht Hne. rewrite sub_emph_prefix by assumption. f_equal.
  unfold sub_emph.
  pose proof (match_emph_hit k t post Hk Ht Hne) as Hm.
  destruct k as [|k]; [lia|].
  change (repeat STAR (S k) ++ t ++ repeat STAR (S k) ++ post)
    with (STAR :: (repeat STAR k ++ t ++ repeat STAR (S k) ++ post)) in *.
  rewrite sub_go_0, Hm. do 3 f_equal.
  replace (S k + length t + S k - 1)%nat
    with (length (repeat STAR k ++ t ++ repeat STAR (S k))).
  - replace (repeat STAR k ++ t ++ repeat STAR (S k) ++ post)
      with ((repeat STAR k ++ t ++ repeat STAR (S k)) ++ post)
      by (rewrite <- !app_assoc; reflexivity).
    apply sub_go_skip.
  - rewrite !length_app, !repeat_length. lia.
Qed.

Lemma html_escape_cons c s :
  html_escape (c :: s) = escape_char c ++ html_escape s.
Proof. reflexivity. Qed.

(** *** Lines of plain and emphasised stretches *)

Lemma source_cons g segs : source (g :: segs) = seg_source g ++ source segs.
Proof. reflexivity. Qed.

Lemma seg_fits_plain k s :
  seg_fits k (Plain s) = true -> s <> [] /\ star_free s = true.
Proof.
  cbn [seg_fits]. intros H. apply andb_true_iff in H as [H1 H2].
  apply nonempty_true in H1. auto.
Qed.

Lemma seg_fits_emph k j s :
  seg_fits k (Emph j s) = true ->
  (1 <= j <= k)%nat /\ s <> [] /\ star_free s = true.
Proof.
  cbn [seg_fits]. intros H. apply andb_true_iff in H as [H H4].
  apply andb_true_iff in H as [H H3]. apply andb_true_iff in H as [H1 H2].
  apply Nat.leb_le in H1, H2. apply nonempty_true in H3. auto.
Qed.

Lemma seg_fits_emph_intro k j s :
  (1 <= j <= k)%nat -> s <> [] -> star_free s = true ->
  seg_fits k (Emph j s) = true.
Proof.
  intros [H1 H2] H3 H4. cbn [seg_fits]. apply Nat.leb_le in H1, H2.
  apply nonempty_true in H3. rewrite H1, H2, H3, H4. reflexivity.
Qed.

Lemma separated_tail g segs : separated (g :: segs) = true -> separated segs = true.
Proof.
  cbn [separated]. destruct g as [s|j s]; [auto|].
  destruct segs as [|[s'|j' s'] r]; auto. discriminate.
Qed.

(** After an emphasised stretch the line ends or goes on without a star. *)
Lemma separated_next k j s segs :
  separated (Emph j s :: segs) = true ->
  Forall (fun g => seg_fits k g = true) segs ->
  source segs = [] \/ exists x t, source segs = x :: t /\ (x =? STAR)%N = false.
Proof.
  intros Hsep Hfit. destruct segs as [|[s'|j' s'] r]; [left; reflexivity| |].
  - right. inversion Hfit as [|? ? Hg _]; subst.
    apply seg_fits_plain in Hg as [Hne Hs].
    destruct s' as [|x t]; [congruence|]. exists x, (t ++ source r).
    split; [reflexivity|]. cbn [star_free forallb] in Hs.
    apply andb_true_iff in Hs as [Hx _]. apply negb_true_iff in Hx. exact Hx.
  - discriminate Hsep.
Qed.

Lemma startswith_stars_short k :
  forall i tail,
    (i < k)%nat ->
    tail = [] \/ (exists x t, tail = x :: t /\ (x =? STAR)%N = false) ->
    startswith (repeat STAR k) (repeat STAR i ++ tail) = false.
Proof.
  induction k as [|k IH]; intros i tail Hi Ht; [lia|].
  destruct i as [|i].
  - cbn [repeat app]. destruct Ht as [->|(x & t & -> & Hx)]; [reflexivity|].
    cbn [startswith]. rewrite N.eqb_sym, Hx. reflexivity.
  - cbn [repeat app startswith]. rewrite N.eqb_refl. apply IH; [lia|exact Ht].
Qed.

(** A run of fewer than [k] stars that is not followed by a star is left
    as it is by the substitution for the marker of [k] stars. *)
Lemma sub_go_short_run k o c :
  forall i tail,
    (i < k)%nat ->
    tail = [] \/ (exists x t, tail = x :: t /\ (x =? STAR)%N = false) ->
    sub_go k o c 0 (repeat STAR i ++ tail)
    = repeat STAR i ++ sub_go k o c 0 tail.
Proof.
  induction i as [|i IH]; intros tail Hi Ht; [reflexivity|].
  cbn [repeat app]. rewrite sub_go_0.
  assert (Hm : match_emph k (STAR :: repeat STAR i ++ tail) = None).
  { unfold match_emph.
    change (STAR :: repeat STAR i ++ tail) with (repeat STAR (S i) ++ tail).
    rewrite startswith_stars_short by assumption. reflexivity. }
  rewrite Hm, IH by (lia || exact Ht). reflexivity.
Qed.

Lemma sub_emph_short k o c j s rest :
  (j < k)%nat -> s <> [] -> star_free s = true ->
  rest = [] \/ (exists x t, rest = x :: t /\ (x =? STAR)%N = false) ->
  sub_emph k o c (repeat STAR j ++ s ++ repeat STAR j ++ rest)
  = repeat STAR j ++ s ++ repeat STAR j ++ sub_emph k o c rest.
Proof.
  intros Hj Hne Hs Hrest. unfold sub_emph.
  rewrite sub_go_short_run; [|exact Hj|].
  - rewrite sub_go_prefix by (lia || exact Hs).
    rewrite sub_go_short_run by assumption. reflexivity.
  - right. destruct s as [|x t]; [congruence|].
    exists x, (t ++ repeat STAR j ++ rest). split; [reflexivity|].
    cbn [star_free forallb] in Hs. apply andb_true_iff in Hs as [Hx _].
    apply negb_true_iff in Hx. exact Hx.
Qed.

(** The substitution for the marker of [k] stars, on a line whose markers
    have at most [k] stars: the stretches with that marker get the markup,
    the others are left as they are. *)
Lemma sub_emph_pass k o c segs :
  (0 < k)%nat ->
  Forall (fun g => seg_fits k g = true) segs -> separated segs = true ->
  sub_emph k o c (source segs) = source (map (pass k o c) segs).
Proof.
  intros Hk Hfit. induction Hfit as [|g segs Hg Hfit IH]; intros Hsep;
    [reflexivity|].
  pose proof (separated_tail _ _ Hsep) as Hsep'.
  cbn [map]. rewrite !source_cons. destruct g as [s|j s].
  - apply seg_fits_plain in Hg as [_ Hs]. cbn [pass seg_source].
    rewrite sub_emph_prefix, IH by assumption. reflexivity.
  - pose proof (separated_next k j s segs Hsep Hfit) as Hnext.
    apply seg_fits_emph in Hg as (Hj & Hne & Hs). cbn [pass seg_source].
    destruct (j =? k)%nat eqn:E.
    + apply Nat.eqb_eq in E. subst j. cbn [seg_source].
      rewrite <- !app_assoc.
      pose proof (sub_emph_hit k o c [] s (source segs) Hk eq_refl Hs Hne)
        as Hh.
      cbn [app] in Hh. rewrite Hh, IH by assumption. reflexivity.
    + apply Nat.eqb_neq in E. cbn [seg_source]. rewrite <- !app_assoc.
      rewrite sub_emph_short by (assumption || lia).
      rewrite IH by assumption. reflexivity.
Qed.

Lemma pass_fits k o c g :
  (0 < k)%nat -> star_free o = true -> star_free c = true ->
  seg_fits k g = true -> seg_fits (k - 1) (pass k o c g) = true.
Proof.
  intros Hk Ho Hc Hg. destruct g as [s|j s]; [exact Hg|].
  apply seg_fits_emph in Hg as (Hj & Hne & Hs). cbn [pass].
  destruct (j =? k)%nat eqn:E.
  - cbn [seg_fits]. rewrite !star_free_app, Ho, Hc, Hs.
    apply andb_true_iff. split; [|reflexivity]. apply nonempty_true.
    destruct o; [destruct s; [congruence|discriminate]|discriminate].
  - apply Nat.eqb_neq in E. apply seg_fits_emph_intro; [lia|assumption..].
Qed.

Lemma pass_separated k o c segs :
  separated segs = true -> separated (map (pass k o c) segs) = true.
Proof.
  induction segs as [|g segs IH]; intros H; [reflexivity|].
  pose proof (separated_tail _ _ H) as H'. specialize (IH H').
  cbn [map separated]. destruct g as [s|j s]; cbn [pass].
  - destruct (map (pass k o c) segs); exact IH.
  - destruct segs as [|[s'|j' s'] r]; [| |discriminate H].
    + destruct (j =? k)%nat; reflexivity.
    + cbn [map pass] in *. destruct (j =? k)%nat; exact IH.
Qed.

Lemma html_escape_stars k : html_escape (repeat STAR k) = repeat STAR k.
Proof.
  induction k as [|k IH]; [reflexivity|]. cbn [repeat].
  rewrite html_escape_cons, IH. reflexivity.
Qed.

Lemma source_escape segs :
  html_escape (source segs) = source (map seg_escape segs).
Proof.
  induction segs as [|g segs IH]; [reflexivity|].
  cbn [map]. rewrite !source_cons, html_escape_app, IH. f_equal.
  destruct g as [s|k s]; [reflexivity|]. cbn [seg_escape seg_source].
  rewrite !html_escape_app, html_escape_stars. reflexivity.
Qed.

Lemma escape_fits k g : seg_fits k g = true -> seg_fits k (seg_escape g) = true.
Proof.
  destruct g as [s|j s]; intros H.
  - apply seg_fits_plain in H as [Hne Hs]. cbn [seg_escape seg_fits].
    rewrite (html_escape_star_free _ Hs). apply andb_true_iff.
    split; [|reflexivity]. apply nonempty_true, html_escape_nonempty, Hne.
  - apply seg_fits_emph in H as (Hj & Hne & Hs). cbn [seg_escape].
    apply seg_fits_emph_intro;
      [exact Hj|apply html_escape_nonempty, Hne|apply html_escape_star_free, Hs].
Qed.

Lemma escape_separated segs :
  separated segs = true -> separated (map seg_escape segs) = true.
Proof.
  induction segs as [|g segs IH]; intros H; [reflexivity|].
  pose proof (separated_tail _ _ H) as H'. specialize (IH H').
  cbn [map separated]. destruct g as [s|j s]; cbn [seg_escape].
  - destruct (map seg_escape segs); exact IH.
  - destruct segs as [|[s'|j' s'] r]; [reflexivity| |discriminate H].
    cbn [map seg_escape] in *. exact IH.
Qed.

(** A stretch after the escaping and the three substitutions. *)
Lemma seg_passes g :
  seg_fits 3 g = true ->
  seg_source
    (pass 1 (lit "<em>") (lit "</em>")
       (pass 2 (lit "<strong>") (lit "</strong>")
          (pass 3 (lit "<strong><em>") (lit "</em></strong>")
             (seg_escape g))))
  = seg_html g.
Proof.
  destruct g as [s|j s]; intros H; [reflexivity|].
  apply seg_fits_emph in H as (Hj & _ & _).
  destruct j as [|[|[|[|j]]]]; try lia; reflexivity.
Qed.

(** A line of plain and emphasised stretches is rendered stretch by
    stretch. *)
Lemma inline_format_segments segs :
  Forall (fun g => seg_fits 3 g = true) segs -> separated segs = true ->
  inline_format (source segs) = rendered segs.
Proof.
  intros Hfit Hsep. unfold inline_format. rewrite source_escape.
  assert (F3 : Forall (fun g => seg_fits 3 g = true) (map seg_escape segs)).
  { apply List.Forall_map. eapply Forall_impl; [exact Hfit|].
    intros g. apply escape_fits. }
  pose proof (escape_separated _ Hsep) as S3.
  rewrite sub_emph_pass by (lia || assumption).
  set (o3 := lit "<strong><em>") in *. set (c3 := lit "</em></strong>") in *.
  assert (F2 : Forall (fun g => seg_fits 2 g = true)
                 (map (pass 3 o3 c3) (map seg_escape segs))).
  { apply List.Forall_map. eapply Forall_impl; [exact F3|].
    intros g Hg. apply (pass_fits 3 o3 c3 g); (lia || reflexivity || exact Hg). }
  pose proof (pass_separated 3 o3 c3 _ S3) as S2.
  rewrite sub_emph_pass by (lia || assumption).
  set (o2 := lit "<strong>") in *. set (c2 := lit "</strong>") in *.
  assert (F1 : Forall (fun g => seg_fits 1 g = true)
                 (map (pass 2 o2 c2)
                    (map (pass 3 o3 c3) (map seg_escape segs)))).
  { apply List.Forall_map. eapply Forall_impl; [exact F2|].
    intros g Hg. apply (pass_fits 2 o2 c2 g); (lia || reflexivity || exact Hg). }
  pose proof (pass_separated 2 o2 c2 _ S2) as S1.
  rewrite sub_emph_pass by (lia || assumption).
  unfold source, rendered. rewrite !map_map. f_equal.
  apply map_ext_Forall. eapply Forall_impl; [exact Hfit|].
  intros g Hg. apply seg_passes, Hg.
Qed.

(** Claim C9. The inline renderer escapes the text and then substitutes the
    triple marker, the double marker and the single marker, in this order.
    On a line made of stretches without a star and of emphasised stretches
    (a run without a star, not empty, between two markers of one, two or
    three stars), no two emphasised stretches next to each other, every
    emphasised stretch comes out whole inside the markup of its own marker,
    around its escaped run: no star of a triple marker goes to the double
    or to the single rule, and none of a double marker to the single rule.
    Besides, the first run between two triple markers after text without a
    star comes out whole inside the strong-emphasis markup whatever follows
    it; and the line [Hello *world*.] gets an emphasis element around
    [world]. *)
Theorem inline_format_longest_marker_first :
  (forall segs : list segment,
      Forall (fun g => seg_fits 3 g = true) segs -> separated segs = true ->
      inline_format (source segs) = rendered segs)
  /\ (forall pre t post : str,
        star_free pre = true -> star_free t = true -> t <> [] ->
        inline_format (pre ++ lit "***" ++ t ++ lit "***" ++ post)
        = html_escape pre ++ lit "<strong><em>" ++ html_escape t
          ++ lit "</em></strong>" ++ inline_format post)
  /\ inline_format (lit "Hello *world*.") = lit "Hello <em>world</em>."
  /\ inline_format (lit "*a<b*") = lit "<em>a&lt;b</em>".
Proof.
  split; [exact inline_format_segments|].
  split; [|split; vm_compute; reflexivity].
  intros pre t post Hpre Ht Hne. unfold inline_format.
  rewrite !html_escape_app.
  change (html_escape (lit "***")) with (repeat STAR 3).
  rewrite sub_emph_hit;
    [|lia|apply html_escape_star_free, Hpre|apply html_escape_star_free, Ht
     |apply html_escape_nonempty, Hne].
  set (rest := sub_emph 3 _ _ (html_escape post)).
  assert (Hfree : star_free
            (html_escape pre ++ lit "<strong><em>" ++ html_escape t
             ++ lit "</em></strong>") = true).
  { rewrite !star_free_app, !html_escape_star_free by assumption. reflexivity. }
  replace (html_escape pre ++ lit "<strong><em>" ++ html_escape t
           ++ lit "</em></strong>" ++ rest)
    with ((html_escape pre ++ lit "<strong><em>" ++ html_escape t
           ++ lit "</em></strong>") ++ rest)
    by (rewrite <- !app_assoc; reflexivity).
  rewrite (sub_emph_prefix 2), (sub_emph_prefix 1) by (lia || exact Hfree).
  rewrite <- !app_assoc. reflexivity.
Qed.

Lemma inline_format_longest_marker_first_witness :
  let segs := [Emph 2 (lit "a"); Plain (lit " "); Emph 3 (lit "b&c");
               Plain (lit " < "); Emph 1 (lit "d")] in
  Forall (fun g => seg_fits 3 g = true) segs /\ separated segs = true
  /\ source segs = lit "**a** ***b&c*** < *d*"
  /\ inline_format (lit "**a** ***b&c*** < *d*")
     = lit "<strong>a</strong> <strong><em>b&amp;c</em></strong> &lt; <em>d</em>"
  /\ star_free (lit "a<") = true /\ star_free (lit "b&c") = true
  /\ lit "b&c" <> []
  /\ inline_format
       (lit "a<" ++ lit "***" ++ lit "b&c" ++ lit "***" ++ lit " **d** *e*")
     = lit "a&lt;<strong><em>b&amp;c</em></strong>"
       ++ lit " <strong>d</strong> <em>e</em>".
Proof.
  intros segs.
  assert (F : Forall (fun g => seg_fits 3 g = true) segs)
    by (repeat constructor).
  assert (S : separated segs = true) by reflexivity.
  assert (H1 : star_free (lit "a<") = true) by reflexivity.
  assert (H2 : star_free (lit "b&c") = true) by reflexivity.
  assert (H3 : lit "b&c" <> []) by discriminate.
  destruct inline_format_longest_marker_first as (Hsegs & Hfirst & _).
  split; [exact F|]. split; [exact S|]. split; [reflexivity|].
  split; [exact (Hsegs segs F S)|].
  repeat (split; [assumption|]).
  exact (Hfirst _ _ (lit " **d** *e*") H1 H2 H3).
Defined.

(** Of a triple marker that does not stand around a run without a star the
    double rule takes two stars: in [***a**b***] the triple rule finds no
    match, the double rule takes the second and the third star, and the
    single rule the first one. *)
Lemma triple_marker_partially_consumed :
  let text := lit "***a**b***" in
  sub_emph 3 (lit "<strong><em>") (lit "</em></strong>") (html_escape text)
  = text
  /\ sub_emph 2 (lit "<strong>") (lit "</strong>") text
     = lit "*<strong>a</strong>b***"
  /\ inline_format text = lit "<em><strong>a</strong>b</em>**"
  /\ inline_format (lit "******a******")
     = lit "<em><strong><strong><em>a</em></strong></strong></em>".
Proof. intros text. repeat split; vm_compute; reflexivity. Qed.

(** Were the double marker substituted first, it would take two stars of
    each triple marker. *)
Lemma double_marker_first_would_split_triple :
  sub_emph 2 (lit "<strong>") (lit "</strong>") (lit "***a***")
  = lit "*<strong>a</strong>*".
Proof. vm_compute. reflexivity. Qed.

(** ** Headings: the packer and the renderer *)

Lemma join_cons_head sep c (l : list str) :
  l <> [] -> join sep (cons_head c l) = c :: join sep l.
Proof. destruct l as [|h [|h2 t]]; [congruence|reflexivity|reflexivity]. Qed.

(** Joining the lines of a text gives the text back. *)
Lemma join_split_nl s : join NL (split NL s) = s.
Proof.
  induction s as [|c s IH]; [reflexivity|]. rewrite split_nl_cons.
  destruct (c =? nl)%N eqn:E.
  - apply N.eqb_eq in E. subst c.
    pose proof (split_nl_nonempty s) as Hne.
    destruct (split NL s) as [|h t] eqn:Es; [congruence|].
    rewrite join_cons, IH. reflexivity.
  - rewrite join_cons_head by apply split_nl_nonempty. rewrite IH. reflexivity.
Qed.


Lemma html_parts_fold lines acc :
  fold_left
    (fun parts line =>
       match line_to_html line with
       | Some e => parts ++ [e]
       | None => parts
       end) lines acc
  = acc ++ omap line_to_html lines.
Proof.
  revert acc. induction lines as [|l lines IH]; intros acc; simpl.
  - symmetry. apply app_nil_r.
  - rewrite IH. destruct (line_to_html l); [|reflexivity].
    rewrite <- app_assoc. reflexivity.
Qed.








(** ** The reference index *)

Lemma str_ltb_cons a s b t :
  str_ltb (a :: s) (b :: t) = (a <? b)%N || ((a =? b)%N && str_ltb s t).
Proof. reflexivity. Qed.

Lemma str_ltb_trans s t u :
  str_ltb s t = true -> str_ltb t u = true -> str_ltb s u = true.
Proof.
  revert t u. induction s as [|a s IH]; intros [|b t] [|c u]; try discriminate;
    try reflexivity.
  rewrite !str_ltb_cons. intros H1 H2.
  apply orb_true_iff in H1 as [H1|H1]; apply orb_true_iff in H2 as [H2|H2];
    apply orb_true_iff.
  - left. apply N.ltb_lt in H1, H2. apply N.ltb_lt. lia.
  - apply andb_true_iff in H2 as [H2 _]. apply N.eqb_eq in H2. subst. auto.
  - apply andb_true_iff in H1 as [H1 _]. apply N.eqb_eq in H1. subst. auto.
  - apply andb_true_iff in H1 as [H1 H1']. apply andb_true_iff in H2 as [H2 H2'].
    apply N.eqb_eq in H1, H2. subst. right. rewrite N.eqb_refl. simpl. eauto.
Qed.

Lemma str_ltb_total s t :
  s <> t -> str_ltb s t = false -> str_ltb t s = true.
Proof.
  revert t. induction s as [|a s IH]; intros [|b t] Hne H; try congruence;
    try reflexivity; try discriminate.
  rewrite str_ltb_cons in *. apply orb_false_iff in H as [H1 H2].
  apply N.ltb_ge in H1. destruct (N.eq_dec a b) as [->|Hab].
  - rewrite N.eqb_refl in *. simpl in H2. rewrite N.ltb_irrefl. simpl.
    apply IH; [congruence|exact H2].
  - apply orb_true_iff. left. apply N.ltb_lt. lia.
Qed.

Section CodexRefsProperties.

Variable lower : str -> str.

Lemma key_ltb_false x y :
  key_ltb (sort_key lower y) (sort_key lower x) = false -> key_le lower x y.
Proof.
  unfold key_ltb, sort_key, key_le. simpl.
  destruct (str_eqb _ _) eqn:E; intros H.
  - apply str_eqb_eq in E. right. split; [congruence|].
    apply Z.ltb_ge in H. exact H.
  - apply str_eqb_neq in E. left. apply str_ltb_total; [congruence|exact H].
Qed.

Lemma key_ltb_true x y :
  key_ltb (sort_key lower y) (sort_key lower x) = true -> key_le lower y x.
Proof.
  unfold key_ltb, sort_key, key_le. simpl.
  destruct (str_eqb _ _) eqn:E; intros H.
  - apply str_eqb_eq in E. right. split; [exact E|].
    apply Z.ltb_lt in H. lia.
  - left. exact H.
Qed.

Lemma key_le_trans x y z :
  key_le lower x y -> key_le lower y z -> key_le lower x z.
Proof.
  unfold key_le. intros [H1|[E1 H1]] [H2|[E2 H2]].
  - left. eapply str_ltb_trans; eassumption.
  - left. rewrite <- E2. exact H1.
  - left. rewrite E1. exact H2.
  - right. split; [congruence|lia].
Qed.

Lemma elem_of_insert_stable x y l :
  x ∈ insert_stable lower y l <-> x = y \/ x ∈ l.
Proof.
  induction l as [|z l IH]; simpl.
  - rewrite list_elem_of_singleton, elem_of_nil. tauto.
  - destruct (key_ltb _ _); rewrite !elem_of_cons; [rewrite IH|]; tauto.
Qed.

Lemma insert_stable_sorted x l :
  StronglySorted (key_le lower) l ->
  StronglySorted (key_le lower) (insert_stable lower x l).
Proof.
  induction 1 as [|y l Hs IH Hy]; simpl; [repeat constructor|].
  destruct (key_ltb _ _) eqn:E.
  - constructor; [exact IH|]. apply Forall_forall. intros z Hz.
    apply elem_of_insert_stable in Hz as [->|Hz].
    + apply key_ltb_true, E.
    + rewrite Forall_forall in Hy. apply Hy, Hz.
  - apply key_ltb_false in E. constructor; [constructor; assumption|].
    constructor; [exact E|]. eapply Forall_impl; [exact Hy|].
    intros z Hz. eapply key_le_trans; eassumption.
Qed.

Lemma sort_refs_sorted lst : StronglySorted (key_le lower) (sort_refs lower lst).
Proof.
  induction lst as [|x lst IH]; simpl; [constructor|].
  apply insert_stable_sorted, IH.
Qed.

Lemma elem_of_sort_refs x lst : x ∈ sort_refs lower lst <-> x ∈ lst.
Proof.
  induction lst as [|y lst IH]; simpl; [reflexivity|].
  rewrite elem_of_insert_stable, elem_of_cons, IH. reflexivity.
Qed.

Lemma dedupe_step_seen (seen : gset (str * Z)) deduped r :
  occ_key r ∈ seen -> dedupe_step (seen, deduped) r = (seen, deduped).
Proof.
  intros H. unfold dedupe_step. rewrite bool_decide_eq_true_2 by exact H.
  reflexivity.
Qed.

Lemma dedupe_step_new (seen : gset (str * Z)) deduped r :
  occ_key r ∉ seen ->
  dedupe_step (seen, deduped) r = ({[occ_key r]} ∪ seen, deduped ++ [r]).
Proof.
  intros H. unfold dedupe_step. rewrite bool_decide_eq_false_2 by exact H.
  reflexivity.
Qed.

(** The deduplication loop from a state whose [seen] holds the keys of
    [deduped]. *)
Lemma dedupe_fold (l : list occurrence) :
  forall (seen : gset (str * Z)) (deduped : list occurrence),
    StronglySorted (key_le lower) l ->
    StronglySorted (key_le lower) deduped ->
    (forall x y, x ∈ deduped -> y ∈ l -> key_le lower x y) ->
    NoDup (map occ_key deduped) ->
    (forall k, k ∈ seen <-> k ∈ map occ_key deduped) ->
    let out := snd (fold_left dedupe_step l (seen, deduped)) in
    StronglySorted (key_le lower) out
    /\ NoDup (map occ_key out)
    /\ (forall r, r ∈ out -> r ∈ deduped \/ r ∈ l)
    /\ (forall k, k ∈ map occ_key deduped \/ k ∈ map occ_key l ->
                  k ∈ map occ_key out).
Proof.
  induction l as [|r l IH]; intros seen deduped Hl Hd Hrel Hnd Hseen.
  - simpl. repeat split; auto. intros k [H|H]; [exact H|].
    apply elem_of_nil in H. destruct H.
  - apply StronglySorted_cons in Hl as [Hr Hl]. cbn [fold_left].
    destruct (decide (occ_key r ∈ seen)) as [Hin|Hnin];
      [rewrite dedupe_step_seen by exact Hin
      |rewrite dedupe_step_new by exact Hnin].
    + assert (Hrel' : forall x y, x ∈ deduped -> y ∈ l -> key_le lower x y).
      { intros x y Hx Hy. apply Hrel; [exact Hx|]. apply elem_of_cons. auto. }
      destruct (IH seen deduped Hl Hd Hrel' Hnd Hseen) as (I1 & I2 & I3 & I4).
      repeat split; auto.
      * intros r0 H0. destruct (I3 r0 H0); [auto|]. right.
        apply elem_of_cons. auto.
      * intros k [H|H]; [auto|]. simpl in H. apply elem_of_cons in H as [->|H];
          [|auto]. apply I4. left. apply Hseen, Hin.
    + assert (Hd' : StronglySorted (key_le lower) (deduped ++ [r])).
      { apply StronglySorted_app. repeat split; [|exact Hd|repeat constructor].
        intros x y Hx Hy. apply list_elem_of_singleton in Hy. subst y.
        apply Hrel; [exact Hx|]. apply elem_of_cons. auto. }
      assert (Hrel' : forall x y, x ∈ deduped ++ [r] -> y ∈ l ->
                                  key_le lower x y).
      { intros x y Hx Hy. apply elem_of_app in Hx as [Hx|Hx].
        - apply Hrel; [exact Hx|]. apply elem_of_cons. auto.
        - apply list_elem_of_singleton in Hx. subst x.
          rewrite Forall_forall in Hr. apply Hr, Hy. }
      assert (Hnd' : NoDup (map occ_key (deduped ++ [r]))).
      { rewrite map_app. apply NoDup_app. repeat split;
          [exact Hnd| |apply NoDup_singleton].
        intros k Hk Hk'. simpl in Hk'. apply list_elem_of_singleton in Hk'.
        subst k. apply Hnin, Hseen, Hk. }
      assert (Hseen' : forall k, k ∈ {[occ_key r]} ∪ seen
                                 <-> k ∈ map occ_key (deduped ++ [r])).
      { intros k. rewrite map_app, elem_of_app, elem_of_union,
          elem_of_singleton, Hseen. simpl.
        rewrite list_elem_of_singleton. tauto. }
      destruct (IH ({[occ_key r]} ∪ seen) (deduped ++ [r]) Hl Hd' Hrel' Hnd'
                  Hseen') as (I1 & I2 & I3 & I4).
      repeat split; auto.
      * intros r0 H0. destruct (I3 r0 H0) as [H|H]; [|right].
        -- apply elem_of_app in H as [H|H]; [auto|]. right.
           apply list_elem_of_singleton in H. subst. apply elem_of_cons. auto.
        -- apply elem_of_cons. auto.
      * intros k Hk. apply I4. rewrite map_app, elem_of_app. simpl.
        rewrite list_elem_of_singleton. simpl in Hk.
        rewrite elem_of_cons in Hk. tauto.
Qed.

(** Claim C10. For every codex identifier of the reference index, the
    occurrence list is sorted by the lowercased book title and then the page
    number, and no two of its records have the same book identifier and
    page; its records are records that were scanned, and every book
    identifier and page that was scanned is still there, once. *)
Theorem refs_sorted_and_deduped
    (refs : gmap str (list occurrence)) (cid : str) (lst : list occurrence) :
  finalize_refs lower refs !! cid = Some lst ->
  StronglySorted (key_le lower) lst
  /\ NoDup (map occ_key lst)
  /\ exists scanned,
      refs !! cid = Some scanned
      /\ (forall r, r ∈ lst -> r ∈ scanned)
      /\ (forall r, r ∈ scanned -> occ_key r ∈ map occ_key lst).
Proof.
  unfold finalize_refs. rewrite lookup_fmap.
  destruct (refs !! cid) as [scanned|] eqn:E; [|discriminate].
  simpl. intros [= <-]. unfold dedupe.
  assert (Hrel : forall x y : occurrence,
             x ∈ [] -> y ∈ sort_refs lower scanned -> key_le lower x y).
  { intros x y Hx. apply elem_of_nil in Hx. destruct Hx. }
  assert (Hseen : forall k : str * Z,
             k ∈ (∅ : gset (str * Z)) <-> k ∈ map occ_key []).
  { intros k. simpl. rewrite elem_of_nil. set_solver. }
  destruct (dedupe_fold (sort_refs lower scanned) ∅ []
              (sort_refs_sorted scanned) (SSorted_nil _) Hrel
              (NoDup_nil_2) Hseen)
    as (H1 & H2 & H3 & H4).
  split; [exact H1|]. split; [exact H2|]. exists scanned.
  split; [reflexivity|]. split.
  - intros r Hr. destruct (H3 r Hr) as [H|H].
    + apply elem_of_nil in H. destruct H.
    + apply (elem_of_sort_refs r scanned), H.
  - intros r Hr. apply H4. right. apply list_elem_of_fmap_2.
    apply elem_of_sort_refs, Hr.
Qed.

End CodexRefsProperties.

Lemma refs_sorted_and_deduped_witness :
  let tales := Occurrence (lit "tales") (lit "Tales of Eden") in
  let atlas := Occurrence (lit "atlas") (lit "atlas of Eden") in
  let refs : gmap str (list occurrence) :=
    {[ lit "hero" := [tales 2; atlas 7; tales 2; tales 1] ]} in
  let lst := [atlas 7; tales 1; tales 2] in
  finalize_refs ascii_lower refs !! lit "hero" = Some lst
  /\ StronglySorted (key_le ascii_lower) lst
  /\ NoDup (map occ_key lst).
Proof.
  intros tales atlas refs lst.
  assert (H : finalize_refs ascii_lower refs !! lit "hero" = Some lst)
    by (vm_compute; reflexivity).
  split; [exact H|].
  destruct (refs_sorted_and_deduped ascii_lower refs (lit "hero") lst H)
    as (Hsorted & Hnodup & _).
  split; assumption.
Defined.

(** ** Scenarios of the specification *)

(** The first chapter is short, but no page precedes it: it stays a page of
    its own. *)
Example first_chapter_stays :
  raw_pages
    (lit "# Chapter One" ++ SEP ++ lit "Short." ++ SEP
     ++ lit "# Chapter Two" ++ SEP ++ lit "More text...")
  = [lit "# Chapter One" ++ SEP ++ lit "Short.";
     lit "# Chapter Two" ++ SEP ++ lit "More text..."].
Proof. vm_compute. reflexivity. Qed.

(** With a page before it, the short content pending at the second heading
    is merged into that page. *)
Example short_chapter_is_merged :
  raw_pages
    (lit "Prologue." ++ NL ++ lit "===PAGE===" ++ NL
     ++ lit "# Chapter One" ++ SEP ++ lit "Short." ++ SEP
     ++ lit "# Chapter Two" ++ SEP ++ lit "More text...")
  = [lit "Prologue." ++ SEP ++ lit "# Chapter One" ++ SEP ++ lit "Short.";
     lit "# Chapter Two" ++ SEP ++ lit "More text..."].
Proof. vm_compute. reflexivity. Qed.

(** Two headings in a row end up on one page with what follows them. *)
Example consecutive_headings_collapse :
  pack (parse_paragraphs (lit "# One" ++ SEP ++ lit "# Two" ++ SEP ++ lit "text"))
  = [lit "# One"; lit "# Two" ++ SEP ++ lit "text"]
  /\ raw_pages (lit "# One" ++ SEP ++ lit "# Two" ++ SEP ++ lit "text")
     = [lit "# One" ++ SEP ++ lit "# Two" ++ SEP ++ lit "text"].
Proof. split; vm_compute; reflexivity. Qed.

(** A heading at the end of the manuscript keeps its page. *)
Example trailing_heading_remains :
  raw_pages (lit "text" ++ NL ++ lit "===PAGE===" ++ NL ++ lit "# End")
  = [lit "text"; lit "# End"].
Proof. vm_compute. reflexivity. Qed.

(** Carriage returns at the ends of lines and blank lines of spaces are
    dropped by the splitter. *)
Example splitter_lines :
  parse_paragraphs
    (lit "one" ++ CR ++ NL ++ lit "  two  " ++ CR ++ NL ++ lit "   " ++ NL
     ++ lit " ===PAGE=== " ++ NL ++ NL ++ lit "three")
  = [lit "one" ++ NL ++ lit "  two"; PAGE_BREAK; lit "three"].
Proof. vm_compute. reflexivity. Qed.

(** The page a forced break completes can still grow: the orphan merge
    appends the short content that follows it. *)
Example orphan_merge_after_forced_break :
  raw_pages
    (lit "first" ++ NL ++ lit "===PAGE===" ++ NL ++ lit "short" ++ SEP
     ++ lit "# Next" ++ SEP ++ lit "text")
  = [lit "first" ++ SEP ++ lit "short"; lit "# Next" ++ SEP ++ lit "text"].
Proof. vm_compute. reflexivity. Qed.

(** Without a closing triple marker the triple rule has no match, and the
    double rule takes two stars of the opening one. *)
Example unbalanced_triple_marker :
  inline_format (lit "***a**") = lit "*<strong>a</strong>".
Proof. vm_compute. reflexivity. Qed.

(** * More properties *)

(** ** Line endings *)

Lemma drop_while_app {A} (f : A -> bool) (a b : list A) :
  drop_while f (a ++ b) =
  if forallb f a then drop_while f b else drop_while f a ++ b.
Proof.
  induction a as [|x a IH]; [reflexivity|]. simpl.
  destruct (f x); [exact IH|reflexivity].
Qed.

Lemma rstrip_chars_nil cs s :
  rstrip_chars cs s = [] <->
  forallb (fun c => existsb (N.eqb c) cs) s = true.
Proof.
  unfold rstrip_chars. rewrite <- (forallb_rev _ s), <- drop_while_nil.
  split; intros H.
  - apply (f_equal (@rev char)) in H. rewrite rev_involutive in H. exact H.
  - rewrite H. reflexivity.
Qed.

(** What [rstrip] leaves of [c :: h] is known from [c] and from what it
    leaves of [h]. *)
Lemma rstrip_chars_cons cs c h :
  rstrip_chars cs (c :: h) =
  match rstrip_chars cs h with
  | [] => if existsb (N.eqb c) cs then [] else [c]
  | _ :: _ => c :: rstrip_chars cs h
  end.
Proof.
  destruct (rstrip_chars cs h) as [|x t] eqn:E.
  - apply rstrip_chars_nil in E. unfold rstrip_chars. simpl rev.
    rewrite drop_while_app, forallb_rev, E. simpl.
    destruct (existsb (N.eqb c) cs); reflexivity.
  - assert (Hn : forallb (fun c => existsb (N.eqb c) cs) (rev h) = false).
    { destruct (forallb _ (rev h)) eqn:F; [|reflexivity].
      rewrite forallb_rev in F. apply rstrip_chars_nil in F. congruence. }
    unfold rstrip_chars in *. simpl rev. rewrite drop_while_app, Hn.
    rewrite rev_app_distr, E. reflexivity.
Qed.

Lemma rstrip_cons_head cs c (l1 l2 : list str) :
  l1 <> [] -> map (rstrip_chars cs) l1 = map (rstrip_chars cs) l2 ->
  map (rstrip_chars cs) (cons_head c l1) = map (rstrip_chars cs) (cons_head c l2).
Proof.
  destruct l1 as [|h1 t1]; [congruence|]. destruct l2 as [|h2 t2]; [discriminate|].
  intros _ H. simpl in *. injection H as Hh Ht.
  rewrite !rstrip_chars_cons, Hh, Ht. reflexivity.
Qed.

Lemma normalize_nil : normalize_newlines [] = [].
Proof. reflexivity. Qed.

Lemma normalize_crlf r :
  normalize_newlines (13%N :: nl :: r) = nl :: normalize_newlines r.
Proof. reflexivity. Qed.

Lemma normalize_other c r :
  startswith (CR ++ NL) (c :: r) = false ->
  normalize_newlines (c :: r) = c :: normalize_newlines r.
Proof.
  intros H. unfold normalize_newlines, replace.
  change (replace_go (CR ++ NL) NL 0 (c :: r))
    with (if startswith (CR ++ NL) (c :: r)
          then NL ++ replace_go (CR ++ NL) NL (length (CR ++ NL) - 1) r
          else c :: replace_go (CR ++ NL) NL 0 r).
  rewrite H. reflexivity.
Qed.

(** After the trailing carriage returns are removed, the lines of the
    normalized text are those of the text. *)
Lemma normalize_lines n :
  forall text, (length text <= n)%nat ->
    map (rstrip_chars CR) (split NL (normalize_newlines text))
    = map (rstrip_chars CR) (split NL text).
Proof.
  induction n as [|n IH]; intros text Hlen.
  - destruct text; [reflexivity|simpl in Hlen; lia].
  - destruct text as [|c r]; [reflexivity|]. simpl in Hlen.
    destruct (startswith (CR ++ NL) (c :: r)) eqn:E.
    + destruct r as [|d r]; [simpl in E; rewrite andb_false_r in E; discriminate|].
      change (startswith (CR ++ NL) (c :: d :: r))
        with ((13 =? c)%N && ((nl =? d)%N && true)) in E.
      apply andb_true_iff in E as [Ec Ed]. apply andb_true_iff in Ed as [Ed _].
      apply N.eqb_eq in Ec, Ed. subst c d.
      rewrite normalize_crlf, !split_nl_cons, !N.eqb_refl.
      change (13 =? nl)%N with false. cbv iota.
      simpl cons_head. simpl map. rewrite IH by (simpl in Hlen; lia).
      reflexivity.
    + rewrite normalize_other by exact E. rewrite !split_nl_cons.
      destruct (c =? nl)%N.
      * simpl map. rewrite IH by lia. reflexivity.
      * apply rstrip_cons_head; [apply split_nl_nonempty|].
        apply IH. lia.
Qed.

Lemma parse_step_rstrip st a b :
  rstrip_chars CR a = rstrip_chars CR b -> parse_step st a = parse_step st b.
Proof. intros H. unfold parse_step. rewrite H. reflexivity. Qed.

Lemma parse_fold_rstrip l1 :
  forall l2 st,
    map (rstrip_chars CR) l1 = map (rstrip_chars CR) l2 ->
    fold_left parse_step l1 st = fold_left parse_step l2 st.
Proof.
  induction l1 as [|a l1 IH]; intros [|b l2] st H; try discriminate;
    [reflexivity|].
  simpl in H. injection H as Ha Hl. cbn [fold_left].
  rewrite (parse_step_rstrip st a b Ha). apply IH, Hl.
Qed.

(** Property X1.
    The splitter removes the carriage returns at the ends of the lines
    itself: replacing [\r\n] by [\n] before it changes neither its
    paragraphs nor the pages. *)
Theorem newline_normalization_is_absorbed (text : str) :
  parse_paragraphs (normalize_newlines text) = parse_paragraphs text
  /\ manuscript_pages text = raw_pages text.
Proof.
  assert (H : parse_paragraphs (normalize_newlines text) = parse_paragraphs text).
  { unfold parse_paragraphs.
    rewrite (parse_fold_rstrip _ (split NL text)); [reflexivity|].
    apply (normalize_lines (length text)). lia. }
  split; [exact H|]. unfold manuscript_pages, raw_pages. rewrite H. reflexivity.
Qed.

(** ** Pages and text *)

Lemma concat_nonempty {A} (ls : list (list A)) :
  ls <> [] -> Forall (fun l => l <> []) ls -> concat ls <> [].
Proof.
  destruct ls as [|l ls]; [congruence|]. intros _ H. inversion H; subst.
  simpl. destruct l; [congruence|discriminate].
Qed.

(** Joining serialized groups is joining their paragraphs. *)
Lemma join_concat (groups : list (list str)) :
  Forall (fun g => g <> []) groups ->
  join SEP (map (join SEP) groups) = join SEP (concat groups).
Proof.
  induction groups as [|g groups IH]; intros H; [reflexivity|].
  inversion H as [|? ? Hg Hgs]; subst. destruct groups as [|g2 groups].
  - simpl. rewrite app_nil_r. reflexivity.
  - change (map (join SEP) (g :: g2 :: groups))
      with (join SEP g :: map (join SEP) (g2 :: groups)).
    change (map (join SEP) (g2 :: groups))
      with (join SEP g2 :: map (join SEP) groups) at 1.
    rewrite join_cons.
    change (join SEP g2 :: map (join SEP) groups)
      with (map (join SEP) (g2 :: groups)).
    rewrite IH by exact Hgs.
    change (concat (g :: g2 :: groups)) with (g ++ concat (g2 :: groups)).
    rewrite join_app; [reflexivity|exact Hg|].
    apply concat_nonempty; [discriminate|exact Hgs].
Qed.

Lemma length_concat_ge {A} (ls : list (list A)) :
  Forall (fun l => l <> []) ls -> (length ls <= length (concat ls))%nat.
Proof.
  induction 1 as [|l ls Hl _ IH]; [simpl; lia|]. simpl.
  rewrite length_app. destruct l; [congruence|simpl; lia].
Qed.

(** Property X4.
    The packer and the repair pass move page boundaries only: the pages,
    joined by blank lines, are the paragraphs joined by blank lines. This
    holds for any list of strings given as paragraphs. *)
Theorem pages_join_to_paragraphs (paragraphs : list str) :
  join SEP (build_pages_from_paragraphs paragraphs)
  = join SEP (content paragraphs).
Proof.
  destruct (build_pages_groups paragraphs) as (groups & -> & Hne & <-).
  apply join_concat, Hne.
Qed.

(** Property X5.
    There is a page as soon as there is a paragraph, and never more pages
    than paragraphs. *)
Theorem page_count_bounds (paragraphs : list str) :
  (length (build_pages_from_paragraphs paragraphs)
   <= length (content paragraphs))%nat
  /\ (content paragraphs <> [] -> build_pages_from_paragraphs paragraphs <> []).
Proof.
  destruct (build_pages_groups paragraphs) as (groups & -> & Hne & <-).
  rewrite length_map. split; [apply length_concat_ge, Hne|].
  intros H. destruct groups; [simpl in H; congruence|discriminate].
Qed.

Lemma page_count_bounds_witness :
  let paragraphs := [lit "# One"; PAGE_BREAK; lit "text"; lit "more"] in
  content paragraphs <> []
  /\ build_pages_from_paragraphs paragraphs <> []
  /\ (length (build_pages_from_paragraphs paragraphs) <= 3)%nat.
Proof.
  intros paragraphs.
  assert (H : content paragraphs <> []) by discriminate.
  destruct (page_count_bounds paragraphs) as [Hle Hne].
  split; [exact H|]. split; [exact (Hne H)|exact Hle].
Defined.

(** ** The repair pass as a fixpoint *)

Lemma repair_loop_fixed (pgs : list str) n :
  (forall j, (j + 1 < length pgs)%nat -> heading_only (nth j pgs []) = false) ->
  forall i, snd (repair_loop n (i, pgs)) = pgs.
Proof.
  intros H. induction n as [|n IH]; intros i; [reflexivity|].
  cbn [repair_loop]. destruct (repair_cond (i, pgs)) eqn:E; [|reflexivity].
  apply repair_cond_lt in E. unfold repair_body. rewrite (H i E). apply IH.
Qed.

Lemma repair_settled_nth (pgs : list str) j :
  (j + 1 < length (repair pgs))%nat ->
  heading_only (nth j (repair pgs) []) = false.
Proof.
  intros Hj. unfold repair in *.
  pose proof (repair_exits pgs) as He.
  assert (Hs : settled (repair_loop (length pgs) (O, pgs))).
  { apply repair_loop_settled. intros k Hk. simpl in Hk. lia. }
  destruct (repair_loop (length pgs) (O, pgs)) as [i out]. simpl in *.
  apply Hs. simpl.
  destruct (Nat.lt_ge_cases j i) as [|Hge]; [assumption|].
  assert (Hc : repair_cond (i, out) = true) by (apply repair_cond_lt; lia).
  congruence.
Qed.

Lemma join_merge (l1 l2 : list str) p q :
  join SEP (l1 ++ (p ++ SEP ++ q) :: l2) = join SEP (l1 ++ p :: q :: l2).
Proof.
  induction l1 as [|x l1 IH].
  - simpl app. rewrite (join_cons SEP p q l2).
    destruct l2 as [|y l2]; [reflexivity|].
    rewrite !join_cons, <- !app_assoc. reflexivity.
  - destruct l1 as [|y l1].
    + simpl app in *. rewrite !join_cons, IH. reflexivity.
    + change ((x :: y :: l1) ++ (p ++ SEP ++ q) :: l2)
        with (x :: (y :: l1) ++ (p ++ SEP ++ q) :: l2).
      change ((x :: y :: l1) ++ p :: q :: l2)
        with (x :: (y :: l1) ++ p :: q :: l2).
      change ((y :: l1) ++ (p ++ SEP ++ q) :: l2)
        with (y :: (l1 ++ (p ++ SEP ++ q) :: l2)) in *.
      change ((y :: l1) ++ p :: q :: l2) with (y :: (l1 ++ p :: q :: l2)) in *.
      rewrite !(join_cons SEP x y), IH. reflexivity.
Qed.

Lemma repair_loop_join n :
  forall st,
    join SEP (snd (repair_loop n st)) = join SEP (snd st)
    /\ (length (snd (repair_loop n st)) <= length (snd st))%nat
    /\ (snd st <> [] -> snd (repair_loop n st) <> []).
Proof.
  induction n as [|n IH]; intros st; [auto|].
  cbn [repair_loop]. destruct (repair_cond st) eqn:E; [|auto].
  destruct (IH (repair_body st)) as (I1 & I2 & I3).
  destruct st as [i pgs]. apply repair_cond_lt in E.
  destruct (list_split_at pgs i E) as (l1 & p & q & l2 & -> & <-).
  rewrite repair_body_at in *. cbn [snd].
  destruct (heading_only p); cbn [snd] in *.
  - rewrite I1, join_merge. split; [reflexivity|]. split.
    + rewrite !length_app in *. simpl in *. lia.
    + intros _. apply I3. destruct l1; discriminate.
  - auto.
Qed.

(** Property X8.
    The repair pass changes no text and adds no page, it leaves a sequence
    without a heading-only page before the last as it is, and running it a
    second time changes nothing. *)
Theorem repair_is_a_fixpoint (pgs : list str) :
  join SEP (repair pgs) = join SEP pgs
  /\ (length (repair pgs) <= length pgs)%nat
  /\ (Forall (fun pg => heading_only pg = false) (removelast pgs) ->
      repair pgs = pgs)
  /\ repair (repair pgs) = repair pgs.
Proof.
  destruct (repair_loop_join (length pgs) (O, pgs)) as (H1 & H2 & _).
  split; [exact H1|]. split; [exact H2|]. split.
  - intros H. apply repair_loop_fixed. intros j Hj.
    rewrite List.Forall_forall in H. apply H, removelast_nth_in, Hj.
  - apply repair_loop_fixed. apply repair_settled_nth.
Qed.

Lemma repair_is_a_fixpoint_witness :
  let pgs := [lit "one"; lit "# Two" ++ SEP ++ lit "text"; lit "# End"] in
  Forall (fun pg => heading_only pg = false) (removelast pgs)
  /\ repair pgs = pgs.
Proof.
  intros pgs.
  assert (H : Forall (fun pg => heading_only pg = false) (removelast pgs)).
  { repeat constructor. }
  split; [exact H|].
  destruct (repair_is_a_fixpoint pgs) as (_ & _ & Hfix & _). exact (Hfix H).
Defined.

(** ** The renderer *)

Lemma escape_char_safe c :
  forallb (fun x => negb (html_special x)) (escape_char c) = true.
Proof.
  unfold escape_char.
  repeat (match goal with |- context [if ?b then _ else _] =>
            destruct b eqn:? end; [reflexivity|]).
  simpl. unfold html_special.
  repeat match goal with H : (_ =? _)%N = false |- _ => rewrite H; clear H end.
  reflexivity.
Qed.

Lemma html_escape_safe s :
  forallb (fun x => negb (html_special x)) (html_escape s) = true.
Proof.
  induction s as [|c s IH]; [reflexivity|]. simpl.
  rewrite forallb_app, escape_char_safe, IH. reflexivity.
Qed.

(** Property X9.
    Escaped text has no angle bracket and no quote; and text without a star
    is escaped and nothing more. *)
Theorem plain_text_is_only_escaped :
  (forall text, forallb (fun x => negb (html_special x)) (html_escape text) = true)
  /\ (forall text, star_free text = true ->
        inline_format text = html_escape text).
Proof.
  split; [exact html_escape_safe|].
  intros text H. unfold inline_format.
  pose proof (html_escape_star_free text H) as Hs.
  rewrite (sub_emph_star_free 3), (sub_emph_star_free 2),
    (sub_emph_star_free 1) by (lia || exact Hs).
  reflexivity.
Qed.

Lemma plain_text_is_only_escaped_witness :
  star_free (lit "a < b & c") = true
  /\ inline_format (lit "a < b & c") = lit "a &lt; b &amp; c".
Proof.
  assert (H : star_free (lit "a < b & c") = true) by reflexivity.
  split; [exact H|].
  exact (proj2 plain_text_is_only_escaped (lit "a < b & c") H).
Defined.

Lemma html_parts_omap pg : html_parts pg = omap line_to_html (split NL pg).
Proof. unfold html_parts. rewrite html_parts_fold. reflexivity. Qed.

Lemma html_parts_app a b :
  html_parts (a ++ nl :: b) = html_parts a ++ html_parts b.
Proof. rewrite !html_parts_omap, split_nl_app. apply omap_app. Qed.

Lemma html_parts_nil : html_parts [] = [].
Proof. reflexivity. Qed.

(** A page renders to the elements of its paragraphs, one after the
    other. *)
Lemma html_parts_join (g : list str) :
  html_parts (join SEP g) = concat (map html_parts g).
Proof.
  induction g as [|x g IH]; [reflexivity|]. destruct g as [|y g].
  - simpl. rewrite app_nil_r. reflexivity.
  - rewrite join_cons.
    change (x ++ SEP ++ join SEP (y :: g))
      with (x ++ nl :: ([] ++ nl :: join SEP (y :: g))).
    rewrite !html_parts_app, html_parts_nil, IH. reflexivity.
Qed.

Lemma concat_map_concat {A B} (f : A -> list B) (ls : list (list A)) :
  concat (map (fun l => concat (map f l)) ls) = concat (map f (concat ls)).
Proof.
  induction ls as [|l ls IH]; [reflexivity|]. simpl.
  rewrite map_app, concat_app, IH. reflexivity.
Qed.

(** Property X11.
    Where the packer and the repair pass put the page boundaries does not
    change what is rendered: the elements of the pages, in order, are the
    elements of the paragraphs, in order. *)
Theorem rendering_ignores_page_boundaries (paragraphs : list str) :
  concat (map html_parts (build_pages_from_paragraphs paragraphs))
  = concat (map html_parts (content paragraphs)).
Proof.
  destruct (build_pages_groups paragraphs) as (groups & -> & _ & <-).
  rewrite map_map, <- concat_map_concat. f_equal.
  apply map_ext. intros g. apply html_parts_join.
Qed.

Lemma line_to_html_none l : line_to_html l = None <-> blank l = true.
Proof.
  unfold line_to_html. cbv zeta. rewrite nonempty_strip.
  destruct (blank l); cbn [negb]; [tauto|].
  destruct (startswith HEADING (strip l)); split; intros H; discriminate H.
Qed.

Lemma line_to_html_open l e :
  line_to_html l = Some e ->
  startswith (lit "<p>") e || startswith H2_OPEN e = true.
Proof.
  unfold line_to_html. cbv zeta.
  destruct (nonempty (strip l)); [|discriminate].
  destruct (startswith HEADING (strip l)); intros H.
  - assert (E : e = H2_OPEN ++ inline_format (strip (skipn 2 (strip l)))
                    ++ H2_CLOSE) by congruence.
    rewrite E, (startswith_app H2_OPEN). apply orb_true_r.
  - assert (E : e = lit "<p>" ++ inline_format (strip l) ++ lit "</p>")
      by congruence.
    rewrite E, (startswith_app (lit "<p>")). reflexivity.
Qed.

Lemma omap_cons {A B} (f : A -> option B) (x : A) (l : list A) :
  omap f (x :: l)
  = match f x with Some y => y :: omap f l | None => omap f l end.
Proof. reflexivity. Qed.

(** Property X10.
    The renderer gives one element for every line that is not blank, a
    paragraph element or a chapter title, and nothing for the others. *)
Theorem one_element_per_line (block_text : str) :
  length (html_parts block_text)
  = length (List.filter (fun l => negb (blank l)) (split NL block_text))
  /\ Forall (fun e => startswith (lit "<p>") e || startswith H2_OPEN e = true)
       (html_parts block_text).
Proof.
  rewrite html_parts_omap. generalize (split NL block_text) as lines.
  induction lines as [|l lines [IH1 IH2]]; [split; [reflexivity|constructor]|].
  rewrite omap_cons. cbn [List.filter].
  destruct (line_to_html l) as [e|] eqn:E.
  - assert (Hb : blank l = false).
    { destruct (blank l) eqn:B; [|reflexivity].
      apply line_to_html_none in B. congruence. }
    rewrite Hb. simpl. split; [rewrite IH1; reflexivity|].
    constructor; [exact (line_to_html_open l e E)|exact IH2].
  - apply line_to_html_none in E. rewrite E. simpl. auto.
Qed.

(** ** Page numbers and file names *)

Lemma decimal_go_acc f :
  forall n acc, decimal_go f n acc = decimal_go f n [] ++ acc.
Proof.
  induction f as [|f IH]; intros n acc; [reflexivity|]. cbn [decimal_go].
  destruct (n <? 10)%N; [reflexivity|].
  rewrite (IH _ (_ :: acc)), (IH _ [_]), <- app_assoc. reflexivity.
Qed.

Lemma digits_value_snoc ds c :
  digits_value (ds ++ [c]) = (10 * digits_value ds + (c - 48))%N.
Proof. unfold digits_value. rewrite fold_left_app. reflexivity. Qed.

Lemma decimal_go_value f :
  forall n, (n < 2 ^ N.of_nat f)%N -> digits_value (decimal_go f n []) = n.
Proof.
  induction f as [|f IH]; intros n Hn.
  - simpl in Hn. assert (n = 0%N) by lia. subst n. reflexivity.
  - cbn [decimal_go]. destruct (n <? 10)%N eqn:E.
    + apply N.ltb_lt in E. unfold digits_value. cbn [fold_left].
      rewrite N.mod_small by exact E. lia.
    + apply N.ltb_ge in E. rewrite decimal_go_acc, digits_value_snoc.
      rewrite IH.
      * replace (48 + n mod 10 - 48)%N with (n mod 10)%N
          by (generalize (n mod 10)%N; intros m; lia).
        symmetry. apply N.div_mod. discriminate.
      * rewrite Nat2N.inj_succ, N.pow_succ_r' in Hn.
        apply N.Div0.div_lt_upper_bound. lia.
Qed.

Lemma decimal_fuel n : (n < 2 ^ N.of_nat (S (N.to_nat (N.log2 n))))%N.
Proof.
  rewrite Nat2N.inj_succ, N2Nat.id. destruct n as [|p]; [reflexivity|].
  apply N.log2_spec. reflexivity.
Qed.

(** The digits [str] writes have the number as their value. *)
Lemma decimal_value n : digits_value (decimal n) = n.
Proof. apply decimal_go_value, decimal_fuel. Qed.

Lemma decimal_go_digits f :
  forall n acc, forallb ascii_digit acc = true ->
    forallb ascii_digit (decimal_go f n acc) = true.
Proof.
  induction f as [|f IH]; intros n acc H; [exact H|]. cbn [decimal_go].
  assert (Hd : forallb ascii_digit ((48 + n mod 10)%N :: acc) = true).
  { simpl. rewrite H, andb_true_r. unfold ascii_digit.
    assert (Hm : (n mod 10 < 10)%N) by (apply N.mod_upper_bound; discriminate).
    revert Hm. generalize (n mod 10)%N. intros m Hm.
    apply andb_true_iff. split; apply N.leb_le; lia. }
  destruct (n <? 10)%N; [exact Hd|]. apply IH, Hd.
Qed.

Lemma decimal_digits n : forallb ascii_digit (decimal n) = true.
Proof. apply decimal_go_digits. reflexivity. Qed.

Lemma decimal_nonempty n : decimal n <> [].
Proof.
  unfold decimal. cbn [decimal_go]. destruct (n <? 10)%N; [discriminate|].
  rewrite decimal_go_acc. destruct (decimal_go _ _ []); discriminate.
Qed.

Lemma page_file_name_inj i j : page_file_name i = page_file_name j -> i = j.
Proof.
  unfold page_file_name. intros H. apply app_inv_head, app_inv_tail in H.
  rewrite <- (decimal_value i), <- (decimal_value j), H. reflexivity.
Qed.

Lemma imap_names {A} (g : nat -> str) (h : A -> str) (l : list A) :
  forall s,
    map fst (imap (fun k x => (g (s + k)%nat, h x)) l)
    = map g (seq s (length l)).
Proof.
  induction l as [|x l IH]; intros s; [reflexivity|]. simpl.
  rewrite Nat.add_0_r. f_equal. rewrite <- IH. f_equal.
  apply imap_ext. intros k y _. simpl. f_equal. f_equal. lia.
Qed.

(** Property X12.
    [build_pages_for_book] writes one file for each raw page, named
    [page1.html], [page2.html], ... in the order of the pages; no two of
    them have the same name, so that no page is written over another. *)
Theorem page_files_are_numbered (text : str) :
  map fst (book_page_files text)
  = map (fun k => page_file_name (N.of_nat (k + 1)))
      (seq 0 (length (manuscript_pages text)))
  /\ length (book_page_files text) = length (manuscript_pages text)
  /\ NoDup (map fst (book_page_files text)).
Proof.
  assert (H : map fst (book_page_files text)
              = map (fun k => page_file_name (N.of_nat (k + 1)))
                  (seq 0 (length (manuscript_pages text)))).
  { unfold book_page_files.
    apply (imap_names (fun k => page_file_name (N.of_nat (k + 1))) page_html
             (manuscript_pages text) 0). }
  split; [exact H|]. split.
  - unfold book_page_files. apply length_imap.
  - rewrite H. apply NoDup_fmap_2; [|apply NoDup_seq].
    intros a b E. apply page_file_name_inj in E. lia.
Qed.

Section PageNumbers.

Variable is_digit : char -> bool.
Variable py_int : str -> option Z.

Lemma span_digits_all ds :
  forallb is_digit ds = true -> span_digits is_digit ds = ds.
Proof.
  induction ds as [|c ds IH]; [reflexivity|]. simpl. intros H.
  apply andb_true_iff in H as [Hc Hds]. rewrite Hc, IH by exact Hds.
  reflexivity.
Qed.

Lemma span_digits_run ds c post :
  forallb is_digit ds = true -> is_digit c = false ->
  span_digits is_digit (ds ++ c :: post) = ds.
Proof.
  induction ds as [|d ds IH]; simpl; intros H Hc; [rewrite Hc; reflexivity|].
  apply andb_true_iff in H as [Hd Hds]. rewrite Hd, IH by assumption.
  reflexivity.
Qed.

Lemma search_digits_skip pre s :
  forallb (fun c => negb (is_digit c)) pre = true ->
  search_digits is_digit (pre ++ s) = search_digits is_digit s.
Proof.
  induction pre as [|c pre IH]; [reflexivity|]. simpl. intros H.
  apply andb_true_iff in H as [Hc Hp]. apply negb_true_iff in Hc.
  rewrite Hc. apply IH, Hp.
Qed.

Lemma parse_page_number_run pre ds :
  forallb (fun c => negb (is_digit c)) pre = true ->
  forallb is_digit ds = true -> ds <> [] ->
  parse_page_number is_digit py_int (pre ++ ds) = py_int ds.
Proof.
  intros Hpre Hds Hne. unfold parse_page_number.
  rewrite search_digits_skip by exact Hpre.
  destruct ds as [|d ds]; [congruence|]. cbn [search_digits].
  pose proof Hds as Hd. simpl in Hd. apply andb_true_iff in Hd as [-> _].
  rewrite span_digits_all by exact Hds. reflexivity.
Qed.

(** Property X13.
    [parse_page_number] reads the first run of digits of the stem: a stem
    without a digit has no page number, and what precedes the run and what
    follows it play no part. In particular a sign before the digits is not
    read. *)
Theorem page_number_is_first_run_of_digits :
  (forall stem, forallb (fun c => negb (is_digit c)) stem = true ->
     parse_page_number is_digit py_int stem = None)
  /\ (forall pre ds, forallb (fun c => negb (is_digit c)) pre = true ->
        forallb is_digit ds = true -> ds <> [] ->
        parse_page_number is_digit py_int (pre ++ ds) = py_int ds)
  /\ (forall pre ds c post,
        forallb (fun c => negb (is_digit c)) pre = true ->
        forallb is_digit ds = true -> ds <> [] -> is_digit c = false ->
        parse_page_number is_digit py_int (pre ++ ds ++ c :: post)
        = py_int ds).
Proof.
  split; [|split; [exact parse_page_number_run|]]; unfold parse_page_number.
  - intros stem H. rewrite <- (app_nil_r stem), search_digits_skip by exact H.
    reflexivity.
  - intros pre ds c post Hpre Hds Hne Hc.
    rewrite search_digits_skip by exact Hpre.
    destruct ds as [|d ds]; [congruence|].
    change ((d :: ds) ++ c :: post) with (d :: (ds ++ c :: post)).
    cbn [search_digits].
    pose proof Hds as Hd. simpl in Hd. apply andb_true_iff in Hd as [-> _].
    change (d :: (ds ++ c :: post)) with ((d :: ds) ++ c :: post).
    rewrite span_digits_run by assumption. reflexivity.
Qed.

(** What the round trip needs of [\d] and [int]: the ASCII digits are
    digits, the letters of [page] are not, and [int] reads a decimal numeral
    of at most 640 digits, the length below which no version of the
    interpreter refuses one. *)
Hypothesis digits_are_digits : forall c, ascii_digit c = true -> is_digit c = true.
Hypothesis letters_are_not :
  forallb (fun c => negb (is_digit c)) (lit "page") = true.
Hypothesis int_reads_decimal :
  forall n, (length (decimal n) <= 640)%nat ->
    py_int (decimal n) = Some (Z.of_N n).

(** Property X14.
    The scan reads back the number under which [build_books.py] has
    written a page: the stem of [page{i}.html] has the page number [i]. *)
Theorem page_number_round_trip (i : N) :
  (length (decimal i) <= 640)%nat ->
  page_file_name i = page_stem i ++ lit ".html"
  /\ parse_page_number is_digit py_int (page_stem i) = Some (Z.of_N i).
Proof.
  intros Hlen. split.
  - unfold page_file_name, page_stem. rewrite <- app_assoc. reflexivity.
  - unfold page_stem. rewrite parse_page_number_run.
    + apply int_reads_decimal, Hlen.
    + exact letters_are_not.
    + pose proof (decimal_digits i) as Hd. rewrite forallb_forall in *.
      intros c Hc. apply digits_are_digits, Hd, Hc.
    + apply decimal_nonempty.
Qed.

End PageNumbers.

Lemma page_number_is_first_run_of_digits_witness :
  parse_page_number ascii_digit ascii_int (lit "cover") = None
  /\ parse_page_number ascii_digit ascii_int (lit "page-" ++ lit "12")
     = Some 12
  /\ parse_page_number ascii_digit ascii_int
       (lit "page-" ++ lit "12" ++ 120%N :: lit "34") = Some 12.
Proof.
  destruct (page_number_is_first_run_of_digits ascii_digit ascii_int)
    as (H1 & H2 & H3).
  split; [apply H1; reflexivity|]. split.
  - apply (H2 (lit "page-") (lit "12")); [reflexivity|reflexivity|discriminate].
  - apply (H3 (lit "page-") (lit "12") 120%N (lit "34"));
      [reflexivity|reflexivity|discriminate|reflexivity].
Defined.

Lemma page_number_round_trip_witness :
  (forall c, ascii_digit c = true -> ascii_digit c = true)
  /\ forallb (fun c => negb (ascii_digit c)) (lit "page") = true
  /\ (forall n, (length (decimal n) <= 640)%nat ->
        ascii_int (decimal n) = Some (Z.of_N n))
  /\ (length (decimal 128) <= 640)%nat
  /\ parse_page_number ascii_digit ascii_int (lit "page128") = Some 128.
Proof.
  assert (H1 : forall c, ascii_digit c = true -> ascii_digit c = true)
    by (intros c H; exact H).
  assert (H2 : forallb (fun c => negb (ascii_digit c)) (lit "page") = true)
    by reflexivity.
  assert (H3 : forall n, (length (decimal n) <= 640)%nat ->
                 ascii_int (decimal n) = Some (Z.of_N n)).
  { intros n _. unfold ascii_int. rewrite decimal_value. reflexivity. }
  assert (H4 : (length (decimal 128) <= 640)%nat) by (vm_compute; lia).
  split; [exact H1|]. split; [exact H2|]. split; [exact H3|].
  split; [exact H4|].
  exact (proj2 (page_number_round_trip ascii_digit ascii_int H1 H2 H3 128%N H4)).
Defined.

(** ** The shortcode scanner *)

Lemma span_until_spec stop s :
  s = fst (span_until stop s) ++ snd (span_until stop s)
  /\ forallb (fun c => negb (stop c)) (fst (span_until stop s)) = true.
Proof.
  induction s as [|c s [IH1 IH2]]; [split; reflexivity|]. simpl.
  destruct (stop c) eqn:E; [split; reflexivity|].
  destruct (span_until stop s) as [a b]. simpl in *.
  rewrite E, IH2. split; [congruence|reflexivity].
Qed.

Lemma span_until_app stop a c r :
  forallb (fun c => negb (stop c)) a = true -> stop c = true ->
  span_until stop (a ++ c :: r) = (a, c :: r).
Proof.
  induction a as [|x a IH]; simpl; intros H Hc; [rewrite Hc; reflexivity|].
  apply andb_true_iff in H as [Hx Ha]. apply negb_true_iff in Hx.
  rewrite Hx, IH by assumption. reflexivity.
Qed.

Lemma startswith_prefix p s :
  startswith p s = true -> s = p ++ skipn (length p) s.
Proof.
  revert s. induction p as [|a p IH]; intros s H; [reflexivity|].
  destruct s as [|b s]; [discriminate|]. simpl in H.
  apply andb_true_iff in H as [Hab Hp]. apply N.eqb_eq in Hab. subst b.
  simpl. f_equal. apply IH, Hp.
Qed.

(** A match is the opening, an identifier, a bar, a label and two closing
    brackets. *)
Lemma match_codex_shape s g1 g2 :
  match_codex s = Some (g1, g2) ->
  clean_id g1 = true /\ clean_label g2 = true
  /\ exists rest,
       s = CODEX_OPEN ++ g1 ++ BAR :: g2 ++ RBRACKET :: RBRACKET :: rest.
Proof.
  unfold match_codex.
  destruct (startswith CODEX_OPEN s) eqn:E0; [|discriminate].
  apply startswith_prefix in E0.
  destruct (span_until_spec (fun c => (c =? BAR)%N || (c =? RBRACKET)%N)
              (skipn (length CODEX_OPEN) s)) as [S1 F1].
  destruct (span_until _ (skipn (length CODEX_OPEN) s)) as [a r1].
  simpl in S1, F1.
  destruct (nonempty a && startswith [BAR] r1) eqn:E1; [|discriminate].
  apply andb_true_iff in E1 as [Ha E1]. apply startswith_prefix in E1.
  destruct (span_until_spec (fun c => (c =? RBRACKET)%N) (skipn 1 r1))
    as [S2 F2].
  destruct (span_until _ (skipn 1 r1)) as [b r2]. simpl in S2, F2.
  destruct (nonempty b && startswith [RBRACKET; RBRACKET] r2) eqn:E2;
    [|discriminate].
  apply andb_true_iff in E2 as [Hb E2]. apply startswith_prefix in E2.
  intros H. injection H as <- <-. unfold clean_id, clean_label.
  rewrite Ha, Hb, F1, F2. repeat split.
  exists (skipn 2 r2). rewrite E0 at 1. f_equal. rewrite S1 at 1. f_equal.
  rewrite E1 at 1. simpl app. f_equal. rewrite S2 at 1. f_equal. exact E2.
Qed.

Lemma finditer_go_0 c r :
  finditer_go 0 (c :: r) =
  match match_codex (c :: r) with
  | Some (g1, g2) =>
      (g1, g2)
      :: finditer_go (length CODEX_OPEN + length g1 + 1 + length g2 + 2 - 1) r
  | None => finditer_go 0 r
  end.
Proof. reflexivity. Qed.

Lemma finditer_go_skip a b : finditer_go (length a) (a ++ b) = finditer_go 0 b.
Proof. induction a as [|x a IH]; [reflexivity|exact IH]. Qed.

(** The groups of every match are clean. *)
Lemma finditer_clean s :
  forall skip,
    Forall (fun m => clean_id (fst m) = true /\ clean_label (snd m) = true)
      (finditer_go skip s).
Proof.
  induction s as [|c r IH]; intros skip; [constructor|].
  destruct skip as [|k]; [|apply IH]. rewrite finditer_go_0.
  destruct (match_codex (c :: r)) as [[g1 g2]|] eqn:E; [|apply IH].
  constructor; [|apply IH].
  destruct (match_codex_shape _ _ _ E) as (H1 & H2 & _). auto.
Qed.

Lemma match_codex_other c r : (c =? LBRACKET)%N = false -> match_codex (c :: r) = None.
Proof.
  intros H. unfold match_codex.
  change (startswith CODEX_OPEN (c :: r))
    with ((LBRACKET =? c)%N && startswith (lit "[codex:") r).
  rewrite N.eqb_sym, H. reflexivity.
Qed.

Lemma finditer_prefix pre s :
  forallb (fun c => negb (c =? LBRACKET)%N) pre = true ->
  finditer (pre ++ s) = finditer s.
Proof.
  unfold finditer. induction pre as [|c pre IH]; [reflexivity|]. simpl forallb.
  intros H. apply andb_true_iff in H as [Hc Hp]. apply negb_true_iff in Hc.
  change ((c :: pre) ++ s) with (c :: (pre ++ s)).
  rewrite finditer_go_0, match_codex_other by exact Hc. apply IH, Hp.
Qed.

Lemma clean_id_inv s :
  clean_id s = true ->
  s <> [] /\ forallb (fun c => negb ((c =? BAR)%N || (c =? RBRACKET)%N)) s = true.
Proof.
  unfold clean_id. intros H. apply andb_true_iff in H as [H1 H2].
  apply nonempty_true in H1. auto.
Qed.

Lemma clean_label_inv s :
  clean_label s = true ->
  s <> [] /\ forallb (fun c => negb (c =? RBRACKET)%N) s = true.
Proof.
  unfold clean_label. intros H. apply andb_true_iff in H as [H1 H2].
  apply nonempty_true in H1. auto.
Qed.

Lemma match_codex_hit id label post :
  clean_id id = true -> clean_label label = true ->
  match_codex (CODEX_OPEN ++ id ++ BAR :: label ++ RBRACKET :: RBRACKET :: post)
  = Some (id, label).
Proof.
  intros Hid Hl. apply clean_id_inv in Hid as [Hi1 Hi2].
  apply clean_label_inv in Hl as [Hl1 Hl2]. unfold match_codex.
  rewrite startswith_app, drop_app_length.
  rewrite span_until_app; [|exact Hi2|reflexivity].
  apply nonempty_true in Hi1. rewrite Hi1. simpl andb. cbv iota.
  change (startswith [BAR] (BAR :: label ++ RBRACKET :: RBRACKET :: post))
    with true. cbv iota.
  change (skipn 1 (BAR :: label ++ RBRACKET :: RBRACKET :: post))
    with (label ++ RBRACKET :: RBRACKET :: post).
  rewrite span_until_app; [|exact Hl2|reflexivity].
  apply nonempty_true in Hl1. rewrite Hl1. reflexivity.
Qed.

(** Property X15.
    The scanner finds a shortcode with a clean identifier and label that
    comes after text without an opening bracket, and goes on after it. *)
Theorem shortcode_is_found (pre id label post : str) :
  forallb (fun c => negb (c =? LBRACKET)%N) pre = true ->
  clean_id id = true -> clean_label label = true ->
  finditer
    (pre ++ CODEX_OPEN ++ id ++ BAR :: label ++ RBRACKET :: RBRACKET :: post)
  = (id, label) :: finditer post.
Proof.
  intros Hpre Hid Hl. rewrite finditer_prefix by exact Hpre.
  pose proof (match_codex_hit id label post Hid Hl) as Hm.
  unfold finditer.
  change (CODEX_OPEN ++ id ++ BAR :: label ++ RBRACKET :: RBRACKET :: post)
    with (LBRACKET
          :: (lit "[codex:" ++ id ++ BAR :: label
              ++ RBRACKET :: RBRACKET :: post)) in *.
  rewrite finditer_go_0, Hm. f_equal.
  replace (length CODEX_OPEN + length id + 1 + length label + 2 - 1)%nat
    with (length (lit "[codex:" ++ id ++ BAR :: label ++ [RBRACKET; RBRACKET])).
  - replace (lit "[codex:" ++ id ++ BAR :: label ++ RBRACKET :: RBRACKET :: post)
      with ((lit "[codex:" ++ id ++ BAR :: label ++ [RBRACKET; RBRACKET])
            ++ post).
    + apply finditer_go_skip.
    + rewrite <- !app_assoc. simpl. rewrite <- !app_assoc. reflexivity.
  - rewrite !length_app. simpl. rewrite !length_app. simpl. lia.
Qed.

Lemma shortcode_is_found_witness :
  finditer (lit "See " ++ CODEX_OPEN ++ lit "hero" ++ BAR :: lit "Hero Name"
            ++ RBRACKET :: RBRACKET :: lit " and more.")
  = [(lit "hero", lit "Hero Name")].
Proof.
  apply (shortcode_is_found (lit "See ") (lit "hero") (lit "Hero Name")
           (lit " and more.")); reflexivity.
Defined.

(** ** The index and the shortcodes *)

Lemma holds_empty cid r : ~ holds ∅ cid r.
Proof. intros (lst & H & _). rewrite lookup_empty in H. discriminate. Qed.

Lemma holds_add_ref refs k occ cid r :
  holds (add_ref refs k occ) cid r <-> holds refs cid r \/ (k = cid /\ r = occ).
Proof.
  unfold holds, add_ref. destruct (decide (k = cid)) as [->|Hne].
  - rewrite lookup_insert_eq. split.
    + intros (lst & [= <-] & Hr). apply elem_of_app in Hr as [Hr|Hr].
      * left. destruct (refs !! cid) as [l|]; simpl in Hr; [eauto|].
        apply elem_of_nil in Hr. destruct Hr.
      * apply list_elem_of_singleton in Hr. auto.
    + intros [(lst & Hl & Hr)|[_ ->]]; eexists; (split; [reflexivity|]);
        apply elem_of_app.
      * left. rewrite Hl. exact Hr.
      * right. apply list_elem_of_singleton. reflexivity.
  - rewrite lookup_insert_ne by exact Hne. split; [auto|].
    intros [H|[E _]]; [exact H|congruence].
Qed.

Lemma holds_scan_step occ refs m cid r :
  holds (scan_step occ refs m) cid r
  <-> holds refs cid r \/ (strip (fst m) = cid /\ cid <> [] /\ r = occ).
Proof.
  unfold scan_step. destruct (nonempty (strip (fst m))) eqn:E.
  - apply nonempty_true in E. rewrite holds_add_ref. split.
    + intros [H|[H1 H2]]; [auto|]. right. subst cid. auto.
    + intros [H|(H1 & _ & H2)]; auto.
  - apply nonempty_false in E. split; [auto|].
    intros [H|(H1 & H2 & _)]; [exact H|congruence].
Qed.

(** A loop whose step adds the records of [Q] adds those of its items. *)
Lemma holds_fold {X} (step : gmap str (list occurrence) -> X -> gmap str (list occurrence))
    (Q : X -> Prop) cid r :
  (forall refs x, holds (step refs x) cid r <-> holds refs cid r \/ Q x) ->
  forall xs refs,
    holds (fold_left step xs refs) cid r
    <-> holds refs cid r \/ exists x, x ∈ xs /\ Q x.
Proof.
  intros Hstep. induction xs as [|x xs IH]; intros refs; simpl.
  - split; [auto|]. intros [H|(x & Hx & _)]; [exact H|].
    apply elem_of_nil in Hx. destruct Hx.
  - rewrite IH, Hstep. split.
    + intros [[H|H]|(y & Hy & HQ)]; [auto| |].
      * right. exists x. split; [apply elem_of_cons; auto|exact H].
      * right. exists y. split; [apply elem_of_cons; auto|exact HQ].
    + intros [H|(y & Hy & HQ)]; [auto|].
      apply elem_of_cons in Hy as [->|Hy]; [auto|]. right. eauto.
Qed.

Lemma no_empty_list_add_ref refs k occ :
  no_empty_list refs -> no_empty_list (add_ref refs k occ).
Proof.
  intros H cid lst. unfold add_ref. destruct (decide (k = cid)) as [->|Hne].
  - rewrite lookup_insert_eq. intros [= <-].
    destruct (default [] (refs !! cid)); discriminate.
  - rewrite lookup_insert_ne by exact Hne. apply H.
Qed.

Lemma no_empty_list_fold {X}
    (step : gmap str (list occurrence) -> X -> gmap str (list occurrence)) :
  (forall refs x, no_empty_list refs -> no_empty_list (step refs x)) ->
  forall xs refs, no_empty_list refs -> no_empty_list (fold_left step xs refs).
Proof.
  intros Hstep. induction xs as [|x xs IH]; intros refs H; [exact H|].
  simpl. apply IH, Hstep, H.
Qed.

Lemma forallb_strip (P : char -> bool) s :
  forallb P s = true -> forallb P (strip s) = true.
Proof.
  intros H. destruct (strip_decomp s) as (a & b & E & _).
  rewrite E, !forallb_app in H.
  apply andb_true_iff in H as [_ H]. apply andb_true_iff in H as [H _].
  exact H.
Qed.

Section ScanProperties.

Variable is_digit : char -> bool.
Variable py_int : str -> option Z.
Variable lower : str -> str.

Lemma holds_scan_file b refs f cid r :
  holds (scan_file is_digit py_int b refs f) cid r
  <-> holds refs cid r
      \/ exists page_num m,
           parse_page_number is_digit py_int (file_stem f) = Some page_num
           /\ m ∈ finditer (file_text f)
           /\ strip (fst m) = cid /\ cid <> []
           /\ r = Occurrence (book_id b) (book_title b) page_num.
Proof.
  unfold scan_file.
  destruct (parse_page_number is_digit py_int (file_stem f)) as [n|].
  - rewrite (holds_fold _ _ cid r
               (fun refs0 m => holds_scan_step _ refs0 m cid r)). split.
    + intros [H|(m & Hm & H1 & H2 & H3)]; [auto|]. right. exists n, m. auto.
    + intros [H|(n' & m & [= <-] & Hm & H)]; [auto|]. right. eauto.
  - split; [auto|]. intros [H|(n & m & Hn & _)]; [exact H|discriminate].
Qed.

Lemma holds_scan_books books :
  forall refs cid r,
    holds (fold_left (scan_book is_digit py_int) books refs) cid r
    <-> holds refs cid r \/ recorded is_digit py_int books cid r.
Proof.
  intros refs cid r.
  rewrite (holds_fold (scan_book is_digit py_int)
             (fun b => exists f page_num m,
                f ∈ book_files b
                /\ parse_page_number is_digit py_int (file_stem f) = Some page_num
                /\ m ∈ finditer (file_text f)
                /\ strip (fst m) = cid /\ cid <> []
                /\ r = Occurrence (book_id b) (book_title b) page_num)).
  - unfold recorded. split; (intros [H|H]; [auto|right]).
    + destruct H as (b & Hb & f & n & m & H). exists b, f, n, m. tauto.
    + destruct H as (b & f & n & m & Hb & H). exists b. split; [exact Hb|].
      exists f, n, m. exact H.
  - intros refs' b. unfold scan_book.
    rewrite (holds_fold _ _ cid r
               (fun refs0 f => holds_scan_file b refs0 f cid r)). split;
      (intros [H|H]; [auto|right]).
    + destruct H as (f & Hf & n & m & H). exists f, n, m. auto.
    + destruct H as (f & n & m & Hf & H). exists f. split; [exact Hf|]. eauto.
Qed.

Lemma scan_books_no_empty_list books :
  no_empty_list (scan_books is_digit py_int books).
Proof.
  unfold scan_books. apply no_empty_list_fold.
  - intros refs b H. unfold scan_book. revert H. apply no_empty_list_fold.
    intros refs' f H. unfold scan_file.
    destruct (parse_page_number _ _ _); [|exact H]. revert H.
    apply no_empty_list_fold. intros refs'' m H. unfold scan_step.
    destruct (nonempty _); [apply no_empty_list_add_ref, H|exact H].
  - intros cid lst H. rewrite lookup_empty in H. discriminate.
Qed.

(** The sorted and deduplicated list has records of the list only, and a
    record for every key of the list. *)
Lemma dedupe_sort_members (scanned : list occurrence) :
  (forall r, r ∈ dedupe (sort_refs lower scanned) -> r ∈ scanned)
  /\ (forall r, r ∈ scanned ->
        occ_key r ∈ map occ_key (dedupe (sort_refs lower scanned))).
Proof.
  assert (Hrel : forall x y : occurrence,
             x ∈ [] -> y ∈ sort_refs lower scanned -> key_le lower x y).
  { intros x y Hx. apply elem_of_nil in Hx. destruct Hx. }
  assert (Hseen : forall k : str * Z,
             k ∈ (∅ : gset (str * Z)) <-> k ∈ map occ_key []).
  { intros k. simpl. rewrite elem_of_nil. set_solver. }
  destruct (dedupe_fold lower (sort_refs lower scanned) ∅ []
              (sort_refs_sorted lower scanned) (SSorted_nil _) Hrel
              (NoDup_nil_2) Hseen)
    as (_ & _ & H3 & H4).
  split.
  - intros r Hr. destruct (H3 r Hr) as [H|H].
    + apply elem_of_nil in H. destruct H.
    + apply (elem_of_sort_refs lower r scanned), H.
  - intros r Hr. apply H4. right. apply list_elem_of_fmap_2.
    apply elem_of_sort_refs, Hr.
Qed.

(** Property X17.
    The index is the shortcodes of the pages. A record is listed under an
    identifier only if some page file with a page number, of some book, has
    a match whose identifier, once trimmed, is that one and is not empty;
    and every such match has a record with its book and page under its
    identifier. *)
Theorem index_is_the_scanned_shortcodes (books : list book) (cid : str) :
  (forall lst r,
      build_refs is_digit py_int lower books !! cid = Some lst -> r ∈ lst ->
      recorded is_digit py_int books cid r)
  /\ (forall r, recorded is_digit py_int books cid r ->
        exists lst,
          build_refs is_digit py_int lower books !! cid = Some lst
          /\ occ_key r ∈ map occ_key lst).
Proof.
  unfold build_refs, finalize_refs. split.
  - intros lst r H Hr. rewrite lookup_fmap in H.
    destruct (scan_books is_digit py_int books !! cid) as [scanned|] eqn:E;
      [|discriminate].
    simpl in H. injection H as <-.
    apply (proj1 (dedupe_sort_members scanned)) in Hr.
    assert (Hh : holds (scan_books is_digit py_int books) cid r)
      by (exists scanned; auto).
    apply holds_scan_books in Hh as [Hh|Hh]; [|exact Hh].
    destruct (holds_empty _ _ Hh).
  - intros r Hrec.
    assert (Hh : holds (scan_books is_digit py_int books) cid r)
      by (apply holds_scan_books; right; exact Hrec).
    destruct Hh as (scanned & E & Hr).
    exists (dedupe (sort_refs lower scanned)). rewrite lookup_fmap, E.
    split; [reflexivity|]. apply dedupe_sort_members, Hr.
Qed.

(** Property X18.
    Every identifier of the index is not empty, trimmed and without a bar
    or a closing bracket, and has at least one record. *)
Theorem index_keys_are_clean (books : list book) (cid : str)
    (lst : list occurrence) :
  build_refs is_digit py_int lower books !! cid = Some lst ->
  clean_id cid = true /\ strip cid = cid /\ lst <> [].
Proof.
  unfold build_refs, finalize_refs. rewrite lookup_fmap.
  destruct (scan_books is_digit py_int books !! cid) as [scanned|] eqn:E;
    [|discriminate].
  simpl. intros [= <-].
  pose proof (scan_books_no_empty_list books cid scanned E) as Hne.
  destruct scanned as [|r scanned]; [congruence|].
  assert (Hh : holds (scan_books is_digit py_int books) cid r).
  { exists (r :: scanned). split; [exact E|apply elem_of_cons; auto]. }
  apply holds_scan_books in Hh as [Hh|Hh]; [destruct (holds_empty _ _ Hh)|].
  destruct Hh as (b & f & n & m & _ & _ & _ & Hm & Hs & Hc & _).
  pose proof (finditer_clean (file_text f) 0) as Hclean.
  rewrite Forall_forall in Hclean. destruct (Hclean m Hm) as [Hid _].
  apply clean_id_inv in Hid as [_ Hid]. split; [|split].
  - unfold clean_id. apply nonempty_true in Hc. rewrite Hc. simpl.
    rewrite <- Hs. apply forallb_strip, Hid.
  - rewrite <- Hs. apply strip_strip.
  - intros Hnil.
    pose proof (proj2 (dedupe_sort_members (r :: scanned)) r
                  ltac:(apply elem_of_cons; auto)) as Hk.
    rewrite Hnil in Hk. apply elem_of_nil in Hk. exact Hk.
Qed.

End ScanProperties.

Lemma index_keys_are_clean_witness :
  let books :=
    [Book (lit "tales") (lit "Tales of Eden")
       [PageFile (lit "page1")
          (lit "<p>" ++ CODEX_OPEN ++ lit " hero |Hero]] and "
           ++ CODEX_OPEN ++ lit "hero|again]]</p>");
        PageFile (lit "notes") (CODEX_OPEN ++ lit "lost|never read]]")]] in
  let lst := [Occurrence (lit "tales") (lit "Tales of Eden") 1] in
  build_refs ascii_digit ascii_int ascii_lower books !! lit "hero" = Some lst
  /\ build_refs ascii_digit ascii_int ascii_lower books !! lit "lost" = None
  /\ clean_id (lit "hero") = true /\ strip (lit "hero") = lit "hero"
  /\ lst <> [].
Proof.
  intros books lst.
  assert (H : build_refs ascii_digit ascii_int ascii_lower books !! lit "hero"
              = Some lst) by (vm_compute; reflexivity).
  split; [exact H|]. split; [vm_compute; reflexivity|].
  exact (index_keys_are_clean ascii_digit ascii_int ascii_lower books
           (lit "hero") lst H).
Defined.

Lemma index_is_the_scanned_shortcodes_witness :
  let books :=
    [Book (lit "tales") (lit "Tales of Eden")
       [PageFile (lit "page2") (CODEX_OPEN ++ lit "hero|Hero]]")]] in
  let r := Occurrence (lit "tales") (lit "Tales of Eden") 2 in
  recorded ascii_digit ascii_int books (lit "hero") r
  /\ exists lst,
       build_refs ascii_digit ascii_int ascii_lower books !! lit "hero"
       = Some lst
       /\ occ_key r ∈ map occ_key lst.
Proof.
  intros books r.
  assert (H : recorded ascii_digit ascii_int books (lit "hero") r).
  { exists (Book (lit "tales") (lit "Tales of Eden")
              [PageFile (lit "page2") (CODEX_OPEN ++ lit "hero|Hero]]")]),
      (PageFile (lit "page2") (CODEX_OPEN ++ lit "hero|Hero]]")),
      2, (lit "hero", lit "Hero").
    repeat split; try reflexivity; try discriminate;
      apply list_elem_of_singleton; reflexivity. }
  split; [exact H|].
  exact (proj2 (index_is_the_scanned_shortcodes ascii_digit ascii_int
                  ascii_lower books (lit "hero")) r H).
Defined.

(** ** How the packer fills the pages *)

Lemma full_groups_snoc (groups : list (list str)) g h :
  full_groups (groups ++ [g]) ->
  TARGET_CHARS_PER_PAGE < total_len g + len (hd [] h) ->
  full_groups (groups ++ [g; h]).
Proof.
  induction groups as [|a groups IH]; intros H Hlt; [simpl; auto|].
  destruct groups as [|b groups].
  - simpl in *. tauto.
  - change ((a :: b :: groups) ++ [g; h])
      with (a :: b :: (groups ++ [g; h])).
    change ((a :: b :: groups) ++ [g]) with (a :: b :: (groups ++ [g])) in H.
    destruct H as [H1 H2]. split; [exact H1|]. apply (IH H2 Hlt).
Qed.

Lemma full_groups_last (groups : list (list str)) g x :
  g <> [] -> full_groups (groups ++ [g]) -> full_groups (groups ++ [g ++ [x]]).
Proof.
  intros Hg. induction groups as [|a groups IH]; intros H; [exact I|].
  destruct groups as [|b groups].
  - simpl in *. destruct g; [congruence|]. exact H.
  - change ((a :: b :: groups) ++ [g ++ [x]])
      with (a :: b :: (groups ++ [g ++ [x]])).
    change ((a :: b :: groups) ++ [g]) with (a :: b :: (groups ++ [g])) in H.
    destruct H as [H1 H2]. split; [exact H1|]. apply (IH H2).
Qed.

Lemma full_groups_at (l1 l2 : list (list str)) g1 g2 :
  full_groups (l1 ++ g1 :: g2 :: l2) ->
  TARGET_CHARS_PER_PAGE < total_len g1 + len (hd [] g2).
Proof.
  induction l1 as [|a l1 IH]; intros H; [exact (proj1 H)|].
  destruct l1 as [|b l1]; apply IH; exact (proj2 H).
Qed.

Lemma greedy_step done st para :
  para <> PAGE_BREAK -> is_heading para = false ->
  greedy_inv done st -> greedy_inv (done ++ [para]) (pack_step st para).
Proof.
  intros Ht Hh (groups & Hpg & Hne & Hcat & Hlen & Hempty & Hfull).
  rewrite (pack_step_ordinary _ _ Ht Hh).
  destruct (nonempty (current st) && _) eqn:E.
  - apply andb_true_iff in E as [Ec Eo]. apply nonempty_true in Ec.
    exists (groups ++ [current st]). simpl.
    rewrite Hpg, map_app, concat_app. simpl. rewrite app_nil_r, Hcat.
    repeat split.
    + apply Forall_app. split; [exact Hne|]. constructor; [exact Ec|constructor].
    + lia.
    + discriminate.
    + rewrite <- app_assoc. apply full_groups_snoc; [exact Hfull|].
      simpl. rewrite <- Hlen. unfold Z.gtb in Eo.
      destruct (_ ?= _) eqn:Ecmp; try discriminate.
      apply Z.compare_gt_iff in Ecmp. lia.
  - exists groups. simpl. rewrite app_assoc, Hcat. repeat split; auto.
    + rewrite total_len_app, Hlen. simpl. lia.
    + intros Hnil. destruct (current st); discriminate.
    + destruct (current st) as [|p cur] eqn:Ecur.
      * rewrite (Hempty eq_refl). exact I.
      * apply full_groups_last; [discriminate|exact Hfull].
Qed.

Lemma greedy_fold ps :
  Forall (fun p => p <> PAGE_BREAK /\ is_heading p = false) ps ->
  forall done st, greedy_inv done st ->
    greedy_inv (done ++ ps) (fold_left pack_step ps st).
Proof.
  induction 1 as [|p ps [Ht Hh] _ IH]; intros done st H.
  - rewrite app_nil_r. exact H.
  - cbn [fold_left]. change (p :: ps) with ([p] ++ ps). rewrite app_assoc.
    apply IH, greedy_step; assumption.
Qed.

(** Without headings and forced breaks the packer's pages serialize full
    groups of the paragraphs. *)
Lemma pack_greedy ps :
  Forall (fun p => p <> PAGE_BREAK /\ is_heading p = false) ps ->
  exists groups : list (list str),
    pack ps = map (join SEP) groups
    /\ Forall (fun g => g <> []) groups
    /\ concat groups = ps
    /\ full_groups groups.
Proof.
  intros Hps.
  assert (H0 : greedy_inv [] pack_init).
  { exists []. simpl. repeat split; auto. }
  pose proof (greedy_fold ps Hps _ _ H0) as H. simpl in H.
  unfold pack, pack_finish.
  destruct (fold_left pack_step ps pack_init) as [pgs cur n].
  destruct H as (groups & Hpg & Hne & Hcat & Hlen & Hempty & Hfull).
  simpl in *. destruct cur as [|p cur]; simpl.
  - rewrite (Hempty eq_refl) in *. exists []. simpl in *. auto.
  - exists (groups ++ [p :: cur]). rewrite Hpg, map_app, concat_app. simpl.
    rewrite app_nil_r. repeat split; auto.
    apply Forall_app. split; [exact Hne|]. constructor; [discriminate|constructor].
Qed.

(** A page of paragraphs is heading-only if it is one paragraph and that
    paragraph is a heading. *)
Lemma heading_only_join (g : list str) :
  Forall (fun p => is_paragraph p = true) g ->
  heading_only (join SEP g)
  = match g with
    | [p] => is_heading p
    | _ => false
    end.
Proof.
  intros Hg. destruct g as [|p g]; [reflexivity|].
  unfold heading_only. rewrite split_join by (discriminate || exact Hg).
  assert (Hf : List.filter (fun b => nonempty (strip b)) (p :: g) = p :: g).
  { apply forallb_filter_id. rewrite forallb_forall.
    rewrite List.Forall_forall in Hg. intros x Hx.
    rewrite nonempty_strip, (paragraph_nonblank x (Hg x Hx)). reflexivity. }
  rewrite Hf. destruct g; reflexivity.
Qed.

Lemma repair_is_fixed_without_headings (groups : list (list str)) :
  Forall (Forall (fun p => is_paragraph p = true)) groups ->
  Forall (Forall (fun p => is_heading p = false)) groups ->
  repair (map (join SEP) groups) = map (join SEP) groups.
Proof.
  intros Hwf Hplain. apply repair_loop_fixed. intros j _.
  destruct (nth_in_or_default j (map (join SEP) groups) []) as [Hin|Hd].
  - apply in_map_iff in Hin as (g & <- & Hg).
    rewrite List.Forall_forall in Hwf, Hplain.
    rewrite heading_only_join by (apply Hwf, Hg).
    destruct g as [|p [|q g]]; try reflexivity.
    pose proof (Hplain _ Hg) as Hp. inversion Hp; subst. assumption.
  - rewrite Hd. reflexivity.
Qed.

Lemma map_join_split (groups : list (list str)) l1 pg1 pg2 l2 :
  map (join SEP) groups = l1 ++ pg1 :: pg2 :: l2 ->
  exists G1 g1 g2 G2,
    groups = G1 ++ g1 :: g2 :: G2 /\ pg1 = join SEP g1 /\ pg2 = join SEP g2.
Proof.
  intros H. apply map_eq_app in H as (G1 & R & -> & _ & H).
  apply map_eq_cons in H as (g1 & R' & -> & <- & H).
  apply map_eq_cons in H as (g2 & G2 & -> & <- & _).
  exists G1, g1, g2, G2. auto.
Qed.

(** Property X6.
    For a manuscript without headings and forced breaks, every page but
    the last is full: the first paragraph of the next page would not have
    fitted. The lengths are those of the paragraphs, without separators. *)
Theorem pages_are_filled_greedily (text : str) :
  Forall (fun p => p <> PAGE_BREAK /\ is_heading p = false)
    (parse_paragraphs text) ->
  forall l1 pg1 pg2 l2,
    raw_pages text = l1 ++ pg1 :: pg2 :: l2 ->
    TARGET_CHARS_PER_PAGE < page_length pg1 + len (hd [] (blocks pg2)).
Proof.
  intros Hps l1 pg1 pg2 l2 Hpages.
  destruct (pack_greedy _ Hps) as (groups & Hpg & Hne & Hcat & Hfull).
  assert (Hwf : Forall (Forall (fun p => is_paragraph p = true)) groups).
  { apply Forall_concat_inv. rewrite Hcat. apply parse_paragraphs_ok. }
  assert (Hplain : Forall (Forall (fun p => is_heading p = false)) groups).
  { apply Forall_concat_inv. rewrite Hcat.
    eapply Forall_impl; [exact Hps|]. intros p H. exact (proj2 H). }
  assert (Hfix : raw_pages text = map (join SEP) groups).
  { unfold raw_pages, build_pages_from_paragraphs. rewrite Hpg.
    apply repair_is_fixed_without_headings; assumption. }
  rewrite Hfix in Hpages.
  destruct (map_join_split _ _ _ _ _ Hpages)
    as (G1 & g1 & g2 & G2 & -> & -> & ->).
  apply Forall_app in Hwf as [_ Hwf]. inversion Hwf as [|? ? W1 Hwf']; subst.
  inversion Hwf' as [|? ? W2 _]; subst.
  apply Forall_app in Hne as [_ Hne]. inversion Hne as [|? ? N1 Hne']; subst.
  inversion Hne' as [|? ? N2 _]; subst.
  unfold page_length, blocks. rewrite !split_join by assumption.
  apply (full_groups_at G1 G2), Hfull.
Qed.

Lemma pages_are_filled_greedily_witness :
  let text := repeat 97%N 600 ++ SEP ++ repeat 98%N 600 in
  Forall (fun p => p <> PAGE_BREAK /\ is_heading p = false)
    (parse_paragraphs text)
  /\ raw_pages text = [repeat 97%N 600; repeat 98%N 600]
  /\ TARGET_CHARS_PER_PAGE
     < page_length (repeat 97%N 600) + len (hd [] (blocks (repeat 98%N 600))).
Proof.
  intros text.
  assert (H1 : Forall (fun p => p <> PAGE_BREAK /\ is_heading p = false)
                 (parse_paragraphs text)).
  { assert (E : parse_paragraphs text = [repeat 97%N 600; repeat 98%N 600])
      by (vm_compute; reflexivity).
    rewrite E. repeat constructor; discriminate. }
  assert (H2 : raw_pages text = [] ++ [repeat 97%N 600; repeat 98%N 600])
    by (vm_compute; reflexivity).
  split; [exact H1|]. split; [exact H2|].
  exact (pages_are_filled_greedily text H1 [] _ _ [] H2).
Defined.

(** ** Headings and page starts *)

Lemma heading_first_nil : heading_first [].
Proof. constructor. Qed.

Lemma heading_first_single (p : str) : heading_first [p].
Proof. constructor. Qed.

Lemma heading_first_snoc (g : list str) (p : str) :
  heading_first g -> is_heading p = false -> heading_first (g ++ [p]).
Proof.
  unfold heading_first. intros Hg Hp. destruct g as [|q g]; [constructor|].
  simpl. apply Forall_app. split; [exact Hg|]. constructor; [exact Hp|constructor].
Qed.

(** Completing the pending paragraphs as a page keeps the invariant. *)
Lemma heading_inv_complete done st cur' n' :
  heading_inv done st -> current st <> [] -> heading_first cur' ->
  exists groups : list (list str),
    pages st ++ [join SEP (current st)] = map (join SEP) groups
    /\ Forall (fun g => g <> []) groups
    /\ concat groups ++ cur' = content done ++ cur'
    /\ Forall heading_first groups
    /\ heading_first (current (Packer (pages st ++ [join SEP (current st)]) cur' n')).
Proof.
  intros (groups & Hpg & Hne & Hcat & Hf & Hc) Hcur Hc'.
  exists (groups ++ [current st]).
  rewrite Hpg, map_app, concat_app. simpl. rewrite app_nil_r, Hcat.
  repeat split; auto.
  - apply Forall_app. split; [exact Hne|]. constructor; [exact Hcur|constructor].
  - apply Forall_app. split; [exact Hf|]. constructor; [exact Hc|constructor].
Qed.

Lemma heading_step done st para :
  orphan_merge st para = false ->
  heading_inv done st -> heading_inv (done ++ [para]) (pack_step st para).
Proof.
  intros Horph H. unfold heading_inv. rewrite content_app.
  destruct (str_eqb para PAGE_BREAK) eqn:Et.
  - apply str_eqb_eq in Et. subst para. rewrite pack_step_break, content_token.
    rewrite app_nil_r.
    destruct (nonempty (current st)) eqn:Ec; [|exact H].
    apply nonempty_true in Ec.
    destruct (heading_inv_complete done st [] 0 H Ec heading_first_nil)
      as (groups & ? & ? & ? & ? & ?).
    exists groups. simpl. rewrite !app_nil_r in *.
    auto using heading_first_nil.
  - pose proof Et as Hne. apply str_eqb_neq in Hne.
    rewrite (content_other _ Hne).
    unfold orphan_merge in Horph. rewrite Et in Horph. simpl in Horph.
    destruct (is_heading para) eqn:Eh.
    + simpl in Horph. rewrite (pack_step_heading _ _ Hne Eh), Horph.
      destruct (nonempty (current st)) eqn:Ec.
      * apply nonempty_true in Ec.
        destruct (heading_inv_complete done st [para] (len para) H Ec
                    (heading_first_single para))
          as (groups & ? & ? & ? & ? & ?).
        exists groups. simpl. auto.
      * apply nonempty_false in Ec.
        destruct H as (groups & Hpg & Hn & Hcat & Hf & Hc).
        rewrite Ec, app_nil_r in Hcat.
        exists groups. simpl. rewrite Hcat.
        repeat split; auto using heading_first_single.
    + rewrite (pack_step_ordinary _ _ Hne Eh).
      destruct (nonempty (current st) && _) eqn:E.
      * apply andb_true_iff in E as [Ec _]. apply nonempty_true in Ec.
        destruct (heading_inv_complete done st [para] (len para) H Ec
                    (heading_first_single para))
          as (groups & ? & ? & ? & ? & ?).
        exists groups. simpl. auto.
      * destruct H as (groups & Hpg & Hn & Hcat & Hf & Hc).
        exists groups. simpl. rewrite app_assoc, Hcat.
        repeat split; auto using heading_first_snoc.
Qed.

Lemma heading_fold ps :
  forall done st,
    orphan_merges st ps = false -> heading_inv done st ->
    heading_inv (done ++ ps) (fold_left pack_step ps st).
Proof.
  induction ps as [|p ps IH]; intros done st Horph H.
  - rewrite app_nil_r. exact H.
  - cbn [fold_left]. cbn [orphan_merges] in Horph.
    apply orb_false_iff in Horph as [H1 H2].
    change (p :: ps) with ([p] ++ ps). rewrite app_assoc.
    apply IH; [exact H2|]. apply heading_step; assumption.
Qed.

(** Without an orphan merge the packer's pages serialize groups in which
    only the first paragraph can be a heading. *)
Lemma pack_heading_first ps :
  orphan_merges pack_init ps = false ->
  exists groups : list (list str),
    pack ps = map (join SEP) groups
    /\ Forall (fun g => g <> []) groups
    /\ concat groups = content ps
    /\ Forall heading_first groups.
Proof.
  intros Horph.
  assert (H0 : heading_inv [] pack_init).
  { exists []. simpl. repeat split; auto using heading_first_nil. }
  pose proof (heading_fold ps _ _ Horph H0) as H. simpl in H.
  unfold pack, pack_finish.
  destruct (fold_left pack_step ps pack_init) as [pgs cur n].
  destruct H as (groups & Hpg & Hne & Hcat & Hf & Hc).
  simpl in *. destruct cur as [|p cur]; simpl.
  - exists groups. rewrite app_nil_r in Hcat. auto.
  - exists (groups ++ [p :: cur]). rewrite Hpg, map_app, concat_app. simpl.
    rewrite app_nil_r. repeat split; auto.
    + apply Forall_app. split; [exact Hne|]. constructor; [discriminate|constructor].
    + apply Forall_app. split; [exact Hf|]. constructor; [exact Hc|constructor].
Qed.

(** Property X7.
    On a manuscript for which the packer takes no orphan merge and the
    repair pass changes nothing, a heading paragraph is the first paragraph
    of its page: no paragraph after the first one of a page is a heading. *)
Theorem heading_starts_its_page (text : str) :
  orphan_merges pack_init (parse_paragraphs text) = false ->
  repair (pack (parse_paragraphs text)) = pack (parse_paragraphs text) ->
  forall pg, In pg (raw_pages text) ->
    Forall (fun p => is_heading p = false) (tl (blocks pg)).
Proof.
  intros Horph Hrep pg Hin.
  unfold raw_pages, build_pages_from_paragraphs in Hin. rewrite Hrep in Hin.
  destruct (pack_heading_first _ Horph) as (groups & Hpg & Hne & Hcat & Hf).
  rewrite Hpg in Hin. apply in_map_iff in Hin as (g & <- & Hg).
  assert (Hwf : Forall (Forall (fun p => is_paragraph p = true)) groups).
  { apply Forall_concat_inv. rewrite Hcat. apply content_paragraphs. }
  rewrite List.Forall_forall in Hne, Hwf, Hf.
  unfold blocks. rewrite split_join by auto. apply Hf, Hg.
Qed.

Lemma heading_starts_its_page_witness :
  let text := lit "# One" ++ SEP ++ lit "first" ++ NL ++ lit "===PAGE==="
              ++ NL ++ lit "# Two" ++ SEP ++ lit "second" in
  orphan_merges pack_init (parse_paragraphs text) = false
  /\ repair (pack (parse_paragraphs text)) = pack (parse_paragraphs text)
  /\ raw_pages text
     = [lit "# One" ++ SEP ++ lit "first"; lit "# Two" ++ SEP ++ lit "second"]
  /\ Forall (fun p => is_heading p = false)
       (tl (blocks (lit "# Two" ++ SEP ++ lit "second"))).
Proof.
  intros text.
  assert (H1 : orphan_merges pack_init (parse_paragraphs text) = false)
    by (vm_compute; reflexivity).
  assert (H2 : repair (pack (parse_paragraphs text))
               = pack (parse_paragraphs text)) by (vm_compute; reflexivity).
  assert (H3 : raw_pages text
     = [lit "# One" ++ SEP ++ lit "first"; lit "# Two" ++ SEP ++ lit "second"])
    by (vm_compute; reflexivity).
  split; [exact H1|]. split; [exact H2|]. split; [exact H3|].
  apply (heading_starts_its_page text H1 H2).
  rewrite H3. right. left. reflexivity.
Defined.

(** ** Splitting the text of the pages again *)

Lemma kept_inv l :
  kept l = true ->
  no_nl l = true /\ blank l = false /\ strip l <> SENTINEL
  /\ rstrip_chars CR l = l.
Proof.
  unfold kept. intros H.
  apply andb_true_iff in H as [H H4]. apply andb_true_iff in H as [H H3].
  apply andb_true_iff in H as [H1 H2].
  apply negb_true_iff in H2, H3.
  repeat split; auto.
  - apply str_eqb_neq. exact H3.
  - apply str_eqb_eq. exact H4.
Qed.

Lemma kept_intro l :
  no_nl l = true -> blank l = false -> strip l <> SENTINEL ->
  rstrip_chars CR l = l -> kept l = true.
Proof.
  intros H1 H2 H3 H4. unfold kept. apply str_eqb_neq in H3.
  rewrite H1, H2, H3, H4. simpl. apply str_eqb_eq. reflexivity.
Qed.

(** The splitter's step on a line it keeps, and on an empty line. *)
Lemma parse_step_kept ps cur l :
  kept l = true -> parse_step (ps, cur) l = (ps, cur ++ [l]).
Proof.
  intros H. apply kept_inv in H as (_ & Hb & Hs & Hr).
  unfold parse_step. rewrite Hr. apply str_eqb_neq in Hs. rewrite Hs.
  rewrite nonempty_strip, Hb. reflexivity.
Qed.

Lemma parse_step_empty ps cur : parse_step (ps, cur) [] = (flush ps cur, []).
Proof. reflexivity. Qed.

Lemma parse_fold_kept lines :
  Forall (fun l => kept l = true) lines ->
  forall ps cur,
    fold_left parse_step lines (ps, cur) = (ps, cur ++ lines).
Proof.
  induction 1 as [|l lines Hl _ IH]; intros ps cur.
  - rewrite app_nil_r. reflexivity.
  - cbn [fold_left]. rewrite (parse_step_kept _ _ _ Hl), IH, <- app_assoc.
    reflexivity.
Qed.

Lemma flush_reparsable ps p :
  reparsable p -> flush ps (split NL p) = ps ++ [p].
Proof.
  intros [Hs _]. unfold flush.
  assert (Hn : nonempty (split NL p) = true)
    by apply nonempty_true, split_nl_nonempty.
  rewrite Hn, join_split_nl, Hs. reflexivity.
Qed.

Lemma parse_fold_reparsable ps :
  forall p acc,
    Forall reparsable (p :: ps) ->
    fold_left parse_step (split NL (join SEP (p :: ps))) (acc, [])
    = (acc ++ removelast (p :: ps), split NL (List.last (p :: ps) [])).
Proof.
  induction ps as [|q ps IH]; intros p acc H.
  - inversion H as [|? ? [_ Hp] _]; subst. cbn [join removelast List.last].
    rewrite (parse_fold_kept _ Hp), app_nil_r. reflexivity.
  - inversion H as [|? ? Hp Hq]; subst. rewrite join_cons.
    change (SEP ++ join SEP (q :: ps)) with (nl :: nl :: join SEP (q :: ps)).
    rewrite split_nl_app, split_nl_cons, N.eqb_refl, fold_left_app.
    rewrite (parse_fold_kept _ (proj2 Hp)). cbn [fold_left app].
    rewrite parse_step_empty, (flush_reparsable _ _ Hp), (IH q _ Hq).
    change (removelast (p :: q :: ps)) with (p :: removelast (q :: ps)).
    change (List.last (p :: q :: ps) []) with (List.last (q :: ps) []).
    rewrite <- app_assoc. reflexivity.
Qed.

(** Splitting the paragraphs joined by blank lines gives them back. *)
Lemma parse_join ps :
  Forall reparsable ps -> parse_paragraphs (join SEP ps) = ps.
Proof.
  intros H. destruct ps as [|p ps]; [reflexivity|].
  unfold parse_paragraphs. rewrite (parse_fold_reparsable ps p [] H).
  assert (Hl : reparsable (List.last (p :: ps) [])).
  { rewrite List.Forall_forall in H. apply H.
    destruct (exists_last (l := p :: ps)) as (l' & a & E); [discriminate|].
    rewrite E, last_last. apply in_or_app. right. left. reflexivity. }
  rewrite (flush_reparsable _ _ Hl). cbn [app].
  symmetry. apply app_removelast_last. discriminate.
Qed.

Lemma rstrip_app_nonblank s t :
  blank t = false -> rstrip (s ++ t) = s ++ rstrip t.
Proof.
  intros H. unfold rstrip. rewrite rev_app_distr.
  change (drop_while is_space (rev t ++ rev s)) with (lstrip (rev t ++ rev s)).
  rewrite lstrip_app_nonblank by (unfold blank; rewrite forallb_rev; exact H).
  unfold lstrip. rewrite rev_app_distr, rev_involutive. reflexivity.
Qed.

Lemma lstrip_app_blank s t : blank s = true -> lstrip (s ++ t) = lstrip t.
Proof.
  intros H. unfold lstrip. rewrite drop_while_app.
  unfold blank in H. rewrite H. reflexivity.
Qed.

Lemma lstrip_nonblank s : blank s = false -> blank (lstrip s) = false.
Proof.
  intros H. destruct (lstrip_decomp s) as (a & E & Ha).
  rewrite E, blank_app, Ha in H. exact H.
Qed.

Lemma rstrip_nonblank s : blank s = false -> blank (rstrip s) = false.
Proof.
  intros H. destruct (rstrip_decomp s) as (b & E & Hb).
  rewrite E, blank_app, Hb, andb_true_r in H. exact H.
Qed.

Lemma strip_lstrip s : strip (lstrip s) = strip s.
Proof. unfold strip, lstrip. rewrite drop_while_idem. reflexivity. Qed.

Lemma strip_rstrip s : strip (rstrip s) = strip s.
Proof.
  destruct (blank s) eqn:Hb.
  - assert (E : rstrip s = []) by (apply rstrip_nil; exact Hb).
    rewrite E. symmetry. apply strip_nil. exact Hb.
  - destruct (lstrip_decomp s) as (a & E & Ha).
    rewrite E at 1.
    rewrite rstrip_app_nonblank by (apply lstrip_nonblank; exact Hb).
    unfold strip at 1. rewrite lstrip_app_blank by exact Ha.
    change (rstrip (lstrip s)) with (strip s).
    rewrite lstrip_strip. unfold strip. apply rstrip_rstrip.
Qed.

Lemma drop_while_fixed {A} (f : A -> bool) x r :
  drop_while f (x :: r) = x :: r -> f x = false.
Proof. apply drop_while_head. Qed.

Lemma rstrip_chars_fixed cs s :
  rstrip_chars cs s = s <->
  drop_while (fun c => existsb (N.eqb c) cs) (rev s) = rev s.
Proof.
  unfold rstrip_chars. split; intros H.
  - apply (f_equal (@rev char)) in H. rewrite rev_involutive in H. exact H.
  - rewrite H. apply rev_involutive.
Qed.

(** Whether [rstrip] changes a text depends on its end only. *)
Lemma rstrip_chars_suffix cs a b :
  b <> [] -> rstrip_chars cs (a ++ b) = a ++ b -> rstrip_chars cs b = b.
Proof.
  intros Hb H. apply rstrip_chars_fixed in H. apply rstrip_chars_fixed.
  rewrite rev_app_distr in H.
  destruct (rev b) as [|x t] eqn:E.
  - apply (f_equal (@rev char)) in E. rewrite rev_involutive in E. contradiction.
  - apply drop_while_id.
    apply (drop_while_fixed (fun c => existsb (N.eqb c) cs) x (t ++ rev a)).
    exact H.
Qed.

Lemma rstrip_chars_rstrip s : rstrip_chars CR (rstrip s) = rstrip s.
Proof.
  unfold rstrip. apply rstrip_chars_fixed. rewrite rev_involutive.
  destruct (drop_while is_space (rev s)) as [|x t] eqn:E; [reflexivity|].
  apply drop_while_id. apply drop_while_head in E.
  cbn [existsb CR]. rewrite orb_false_r.
  destruct (x =? 13)%N eqn:Ex; [|reflexivity].
  apply N.eqb_eq in Ex. subst x. discriminate E.
Qed.

Lemma rstrip_chars_idem cs s :
  rstrip_chars cs (rstrip_chars cs s) = rstrip_chars cs s.
Proof.
  unfold rstrip_chars. rewrite rev_involutive, drop_while_idem. reflexivity.
Qed.

Lemma kept_lstrip l : kept l = true -> kept (lstrip l) = true.
Proof.
  intros H. apply kept_inv in H as (Hn & Hb & Hs & Hr).
  destruct (lstrip_decomp l) as (a & E & Ha).
  apply kept_intro.
  - rewrite E, no_nl_app in Hn. apply andb_true_iff in Hn. tauto.
  - apply lstrip_nonblank, Hb.
  - rewrite strip_lstrip. exact Hs.
  - apply (rstrip_chars_suffix CR a); [|rewrite <- E; exact Hr].
    intros E0. apply lstrip_nil in E0. congruence.
Qed.

Lemma kept_rstrip l : kept l = true -> kept (rstrip l) = true.
Proof.
  intros H. apply kept_inv in H as (Hn & Hb & Hs & Hr).
  destruct (rstrip_decomp l) as (b & E & Hbb).
  apply kept_intro.
  - rewrite E, no_nl_app in Hn. apply andb_true_iff in Hn. tauto.
  - apply rstrip_nonblank, Hb.
  - rewrite strip_rstrip. exact Hs.
  - apply rstrip_chars_rstrip.
Qed.

Lemma lstrip_join l (r : list str) :
  blank l = false -> lstrip (join NL (l :: r)) = join NL (lstrip l :: r).
Proof.
  intros H. destruct r as [|x r]; [reflexivity|].
  rewrite !join_cons. apply lstrip_app_nonblank, H.
Qed.

Lemma rstrip_join (init : list str) l :
  blank l = false ->
  rstrip (join NL (init ++ [l])) = join NL (init ++ [rstrip l]).
Proof.
  intros H. destruct init as [|x init]; [reflexivity|].
  rewrite !join_app by discriminate. cbn [join].
  rewrite !app_assoc. apply rstrip_app_nonblank, H.
Qed.

Lemma split_nl_line l : no_nl l = true -> split NL l = [l].
Proof.
  induction l as [|c l IH]; intros H; [reflexivity|].
  cbn [no_nl forallb] in H. apply andb_true_iff in H as [Hc Hl].
  apply negb_true_iff in Hc. rewrite split_nl_cons, Hc, (IH Hl). reflexivity.
Qed.

Lemma split_nl_join (lines : list str) :
  lines <> [] -> Forall (fun l => no_nl l = true) lines ->
  split NL (join NL lines) = lines.
Proof.
  induction lines as [|l lines IH]; [congruence|]. intros _ H.
  inversion H as [|? ? Hl Hr]; subst. destruct lines as [|m lines].
  - apply split_nl_line, Hl.
  - rewrite join_cons. change (NL ++ join NL (m :: lines))
      with (nl :: join NL (m :: lines)).
    rewrite split_nl_app, (split_nl_line _ Hl), IH by (discriminate || exact Hr).
    reflexivity.
Qed.

(** The paragraph made of kept lines can be split again. *)
Lemma flushed_reparsable (lines : list str) :
  lines <> [] -> Forall (fun l => kept l = true) lines ->
  reparsable (strip (join NL lines)).
Proof.
  intros Hne H. split; [apply strip_strip|].
  destruct lines as [|l r]; [congruence|].
  inversion H as [|? ? Hl Hr]; subst.
  assert (H1 : Forall (fun l => kept l = true) (lstrip l :: r)).
  { constructor; [apply kept_lstrip, Hl|exact Hr]. }
  unfold strip. rewrite lstrip_join by (apply kept_inv in Hl; tauto).
  destruct (exists_last (l := lstrip l :: r)) as (init & z & E); [discriminate|].
  rewrite E in *. apply Forall_app in H1 as [Hi Hz].
  inversion Hz as [|? ? Hz' _]; subst.
  rewrite rstrip_join by (apply kept_inv in Hz'; tauto).
  assert (H2 : Forall (fun l => kept l = true) (init ++ [rstrip z])).
  { apply Forall_app. split; [exact Hi|].
    constructor; [apply kept_rstrip, Hz'|constructor]. }
  rewrite split_nl_join; [exact H2|destruct init; discriminate|].
  eapply Forall_impl; [exact H2|]. intros x Hx. apply kept_inv in Hx. tauto.
Qed.

Lemma page_break_reparsable : reparsable PAGE_BREAK.
Proof.
  split; [vm_compute; reflexivity|].
  assert (E : split NL PAGE_BREAK = [PAGE_BREAK]) by (vm_compute; reflexivity).
  rewrite E. constructor; [vm_compute; reflexivity|constructor].
Qed.

Lemma flush_reparsable_inv ps cur :
  Forall reparsable ps -> Forall (fun l => kept l = true) cur ->
  Forall reparsable (flush ps cur).
Proof.
  intros Hps Hcur. unfold flush. destruct cur as [|l cur]; [exact Hps|].
  cbn [nonempty]. apply Forall_app. split; [exact Hps|].
  constructor; [|constructor]. apply flushed_reparsable; [discriminate|exact Hcur].
Qed.

Lemma parse_step_reparsable st raw :
  no_nl raw = true ->
  Forall reparsable (fst st) /\ Forall (fun l => kept l = true) (snd st) ->
  Forall reparsable (fst (parse_step st raw))
  /\ Forall (fun l => kept l = true) (snd (parse_step st raw)).
Proof.
  intros Hn [Hps Hcur]. destruct st as [ps cur]. unfold parse_step.
  cbn [fst snd] in *.
  destruct (str_eqb (strip (rstrip_chars CR raw)) SENTINEL) eqn:Es.
  - cbn [fst snd]. split; [|constructor].
    apply Forall_app. split; [apply flush_reparsable_inv; assumption|].
    constructor; [apply page_break_reparsable|constructor].
  - destruct (nonempty (strip (rstrip_chars CR raw))) eqn:Eb; cbn [negb fst snd].
    + split; [exact Hps|]. apply Forall_app. split; [exact Hcur|].
      constructor; [|constructor]. apply kept_intro.
      * destruct (rstrip_chars_decomp CR raw) as (b & E).
        rewrite E, no_nl_app in Hn. apply andb_true_iff in Hn. tauto.
      * rewrite nonempty_strip in Eb. apply negb_true_iff in Eb. exact Eb.
      * apply str_eqb_neq. exact Es.
      * apply rstrip_chars_idem.
    + split; [|constructor]. apply flush_reparsable_inv; assumption.
Qed.

Lemma parse_fold_reparsable_inv lines :
  Forall (fun l => no_nl l = true) lines ->
  forall st,
    Forall reparsable (fst st) /\ Forall (fun l => kept l = true) (snd st) ->
    Forall reparsable (fst (fold_left parse_step lines st))
    /\ Forall (fun l => kept l = true) (snd (fold_left parse_step lines st)).
Proof.
  induction 1 as [|l lines Hl _ IH]; intros st H; [exact H|].
  cbn [fold_left]. apply IH, parse_step_reparsable; assumption.
Qed.

(** Every element of the splitter's output can be split again. *)
Lemma parse_paragraphs_reparsable text :
  Forall reparsable (parse_paragraphs text).
Proof.
  unfold parse_paragraphs.
  pose proof (parse_fold_reparsable_inv (split NL text) (split_nl_no_nl text)
                ([], [])) as H.
  destruct (fold_left parse_step (split NL text) ([], [])) as [ps cur].
  cbn [fst snd] in H. apply flush_reparsable_inv; apply H; split; constructor.
Qed.

Lemma Forall_content (P : str -> Prop) ps : Forall P ps -> Forall P (content ps).
Proof.
  intros H. apply List.Forall_forall. intros p Hp. apply content_incl in Hp.
  rewrite List.Forall_forall in H. apply H, Hp.
Qed.

(** Property X3.
    The splitter undoes the joining of its own output: the paragraphs of
    a manuscript joined by blank lines split into the same paragraphs, and
    the pages of a manuscript joined by blank lines split into its
    paragraphs. *)
Theorem pages_split_into_the_paragraphs (text : str) :
  parse_paragraphs (join SEP (parse_paragraphs text)) = parse_paragraphs text
  /\ parse_paragraphs (join SEP (raw_pages text))
     = content (parse_paragraphs text).
Proof.
  split.
  - apply parse_join, parse_paragraphs_reparsable.
  - unfold raw_pages.
    destruct (build_pages_groups (parse_paragraphs text))
      as (groups & -> & Hne & Hcat).
    rewrite join_concat by exact Hne. rewrite Hcat.
    apply parse_join, Forall_content, parse_paragraphs_reparsable.
Qed.

(** ** Forced breaks in the splitter's output *)

Lemma count_app {A} (f : A -> bool) (a b : list A) :
  length (List.filter f (a ++ b))
  = (length (List.filter f a) + length (List.filter f b))%nat.
Proof. rewrite List.filter_app, length_app. reflexivity. Qed.

(** The paragraph made of kept lines: only its first line loses space at
    its start and only its last line loses space at its end. *)
Lemma strip_join_lines l (r : list str) :
  Forall (fun x => kept x = true) (l :: r) ->
  exists init z,
    lstrip l :: r = init ++ [z]
    /\ strip (join NL (l :: r)) = join NL (init ++ [rstrip z])
    /\ Forall (fun x => no_nl x = true) (init ++ [rstrip z]).
Proof.
  intros H. inversion H as [|? ? Hl Hr]; subst.
  assert (H1 : Forall (fun l => kept l = true) (lstrip l :: r)).
  { constructor; [apply kept_lstrip, Hl|exact Hr]. }
  unfold strip. rewrite lstrip_join by (apply kept_inv in Hl; tauto).
  destruct (exists_last (l := lstrip l :: r)) as (init & z & E); [discriminate|].
  exists init, z. split; [exact E|]. rewrite E in *.
  apply Forall_app in H1 as [Hi Hz]. inversion Hz as [|? ? Hz' _]; subst.
  rewrite rstrip_join by (apply kept_inv in Hz'; tauto).
  split; [reflexivity|]. apply Forall_app. split.
  - eapply Forall_impl; [exact Hi|]. intros x Hx. apply kept_inv in Hx. tauto.
  - constructor; [|constructor]. apply kept_rstrip, kept_inv in Hz'. tauto.
Qed.

(** A paragraph is the text of the token only if it is made of one line
    that is. *)
Lemma flushed_not_token (cur : list str) :
  cur <> [] -> Forall (fun x => kept x = true) cur ->
  Forall (fun x => strip x <> PAGE_BREAK) cur ->
  strip (join NL cur) <> PAGE_BREAK.
Proof.
  intros Hne Hk Hs E. destruct cur as [|l r]; [congruence|].
  destruct (strip_join_lines l r Hk) as (init & z & E1 & E2 & Hn).
  rewrite E in E2. apply (f_equal (split NL)) in E2.
  rewrite split_nl_join in E2 by (assumption || (destruct init; discriminate)).
  change (split NL PAGE_BREAK) with [PAGE_BREAK] in E2.
  destruct init as [|a [|b init]]; try discriminate E2.
  cbn [app] in *. injection E2 as E2. injection E1 as E1 Er. subst z r.
  inversion Hs as [|? ? Hl _]; subst. apply Hl. unfold strip. congruence.
Qed.

Lemma count_flush_ge ps cur :
  (length (List.filter is_token ps)
   <= length (List.filter is_token (flush ps cur)))%nat.
Proof.
  unfold flush. destruct (nonempty cur); [|lia]. rewrite count_app. lia.
Qed.

Lemma count_flush_eq ps cur :
  Forall (fun x => kept x = true) cur ->
  Forall (fun x => strip x <> PAGE_BREAK) cur ->
  length (List.filter is_token (flush ps cur))
  = length (List.filter is_token ps).
Proof.
  intros Hk Hs. unfold flush. destruct (nonempty cur) eqn:E; [|reflexivity].
  apply nonempty_true in E. rewrite count_app. cbn [List.filter].
  pose proof (flushed_not_token cur E Hk Hs) as Hn.
  apply str_eqb_neq in Hn. unfold is_token at 2. rewrite Hn. simpl. lia.
Qed.

Lemma count_token_fold_ge lines :
  forall st,
    (length (List.filter is_token (fst st))
     + length (List.filter is_sentinel_line lines)
     <= length (List.filter is_token (fst (fold_left parse_step lines st))))%nat.
Proof.
  induction lines as [|raw lines IH]; intros [ps cur]; [simpl; lia|].
  cbn [fold_left List.filter]. specialize (IH (parse_step (ps, cur) raw)).
  assert (Hstep : (length (List.filter is_token ps)
                   + (if is_sentinel_line raw then 1 else 0)
                   <= length (List.filter is_token
                                (fst (parse_step (ps, cur) raw))))%nat).
  { unfold parse_step, is_sentinel_line.
    pose proof (count_flush_ge ps cur) as Hf.
    destruct (str_eqb (strip (rstrip_chars CR raw)) SENTINEL); cbn [fst].
    - rewrite count_app. simpl. lia.
    - destruct (nonempty (strip (rstrip_chars CR raw))); cbn [negb fst]; lia. }
  cbn [fst] in *. destruct (is_sentinel_line raw); simpl in *; lia.
Qed.

Lemma count_token_fold_eq lines :
  Forall (fun l => no_nl l = true) lines ->
  Forall (fun raw => is_token_line raw = false) lines ->
  forall st,
    Forall (fun x => kept x = true) (snd st) ->
    Forall (fun x => strip x <> PAGE_BREAK) (snd st) ->
    length (List.filter is_token (fst (fold_left parse_step lines st)))
    = (length (List.filter is_token (fst st))
       + length (List.filter is_sentinel_line lines))%nat
    /\ Forall (fun x => kept x = true) (snd (fold_left parse_step lines st))
    /\ Forall (fun x => strip x <> PAGE_BREAK)
         (snd (fold_left parse_step lines st)).
Proof.
  induction 1 as [|raw lines Hn _ IH]; intros Ht [ps cur] Hk Hs.
  - cbn [fold_left List.filter length]. rewrite Nat.add_0_r. auto.
  - inversion Ht as [|? ? Hraw Ht']; subst. cbn [fst snd] in *.
    cbn [fold_left List.filter].
    assert (Hstep :
      length (List.filter is_token (fst (parse_step (ps, cur) raw)))
      = (length (List.filter is_token ps)
         + (if is_sentinel_line raw then 1 else 0))%nat
      /\ Forall (fun x => kept x = true) (snd (parse_step (ps, cur) raw))
      /\ Forall (fun x => strip x <> PAGE_BREAK)
           (snd (parse_step (ps, cur) raw))).
    { unfold parse_step, is_sentinel_line. unfold is_token_line in Hraw.
      pose proof (count_flush_eq ps cur Hk Hs) as Hf.
      destruct (str_eqb (strip (rstrip_chars CR raw)) SENTINEL) eqn:Es;
        cbn [fst snd].
      - rewrite count_app, Hf. simpl. repeat split; constructor.
      - destruct (nonempty (strip (rstrip_chars CR raw))) eqn:Eb;
          cbn [negb fst snd].
        + split; [lia|]. split; apply Forall_app; split; try assumption;
            constructor; try constructor.
          * apply kept_intro.
            -- destruct (rstrip_chars_decomp CR raw) as (b & E).
               rewrite E, no_nl_app in Hn. apply andb_true_iff in Hn. tauto.
            -- rewrite nonempty_strip in Eb. apply negb_true_iff in Eb.
               exact Eb.
            -- apply str_eqb_neq. exact Es.
            -- apply rstrip_chars_idem.
          * apply str_eqb_neq. exact Hraw.
        + rewrite Hf. repeat split; try constructor. lia. }
    destruct Hstep as (H1 & H2 & H3).
    destruct (IH Ht' (parse_step (ps, cur) raw) H2 H3) as (I1 & I2 & I3).
    split; [|split; assumption]. rewrite I1, H1.
    destruct (is_sentinel_line raw); simpl; lia.
Qed.

(** Property X2.
    Among the elements the splitter returns there are at least as many
    tokens as the text has sentinel lines, and exactly as many if no line
    of the text, without the carriage returns at its end and trimmed, is
    the text of the token itself. *)
Theorem one_marker_per_sentinel_line (text : str) :
  (length (List.filter is_sentinel_line (split NL text))
   <= length (List.filter is_token (parse_paragraphs text)))%nat
  /\ (Forall (fun raw => is_token_line raw = false) (split NL text) ->
      length (List.filter is_token (parse_paragraphs text))
      = length (List.filter is_sentinel_line (split NL text))).
Proof.
  unfold parse_paragraphs. split.
  - pose proof (count_token_fold_ge (split NL text) ([], [])) as H.
    destruct (fold_left parse_step (split NL text) ([], [])) as [ps cur].
    cbn [fst List.filter length] in H.
    pose proof (count_flush_ge ps cur). lia.
  - intros Ht.
    destruct (count_token_fold_eq (split NL text) (split_nl_no_nl text) Ht
                ([], []) ltac:(constructor) ltac:(constructor))
      as (H1 & H2 & H3).
    destruct (fold_left parse_step (split NL text) ([], [])) as [ps cur].
    cbn [fst snd List.filter length] in *.
    rewrite (count_flush_eq ps cur H2 H3). exact H1.
Qed.

Lemma one_marker_per_sentinel_line_witness :
  let text := lit "one" ++ NL ++ lit "===PAGE===" ++ CR ++ NL ++ lit "two"
              ++ SEP ++ lit "  ===PAGE===  " ++ NL ++ lit "three" in
  Forall (fun raw => is_token_line raw = false) (split NL text)
  /\ parse_paragraphs text
     = [lit "one"; PAGE_BREAK; lit "two"; PAGE_BREAK; lit "three"]
  /\ length (List.filter is_token (parse_paragraphs text)) = 2%nat
  /\ length (List.filter is_sentinel_line (split NL text)) = 2%nat.
Proof.
  intros text.
  assert (H : Forall (fun raw => is_token_line raw = false) (split NL text)).
  { assert (E : split NL text
                = [lit "one"; lit "===PAGE===" ++ CR; lit "two"; [];
                   lit "  ===PAGE===  "; lit "three"])
      by (vm_compute; reflexivity).
    rewrite E. repeat constructor. }
  destruct (one_marker_per_sentinel_line text) as [_ Heq].
  specialize (Heq H).
  split; [exact H|]. split; [vm_compute; reflexivity|].
  split; [vm_compute; reflexivity|]. rewrite <- Heq. vm_compute. reflexivity.
Defined.

(** ** Shortcodes in escaped text *)

Lemma escape_char_plain c : html_replaced c = false -> escape_char c = [c].
Proof.
  unfold html_replaced, html_special, escape_char. intros H.
  repeat (match goal with |- context [if ?b then _ else _] =>
            destruct b end; [cbn in H; discriminate H|]).
  reflexivity.
Qed.

Lemma escape_char_replaced c :
  html_replaced c = true ->
  exists t, escape_char c = 38%N :: t
            /\ forallb (fun x => negb (x =? LBRACKET)%N) t = true.
Proof.
  unfold html_replaced, html_special, escape_char. intros H.
  repeat (match goal with |- context [if ?b then _ else _] =>
            destruct b eqn:? end; [eexists; repeat split; reflexivity|]).
  repeat match goal with E : (_ =? _)%N = false |- _ =>
           rewrite E in H; clear E end.
  discriminate H.
Qed.

Lemma html_escape_plain p :
  forallb (fun c => negb (html_replaced c)) p = true -> html_escape p = p.
Proof.
  induction p as [|c p IH]; [reflexivity|]. cbn [forallb]. intros H.
  apply andb_true_iff in H as [Hc Hp]. apply negb_true_iff in Hc.
  rewrite html_escape_cons, (escape_char_plain _ Hc), (IH Hp). reflexivity.
Qed.

Lemma startswith_cons a p b s :
  startswith (a :: p) (b :: s) = (a =? b)%N && startswith p s.
Proof. reflexivity. Qed.

(** Escaping does not change whether a text starts with a literal without
    replaced characters. *)
Lemma startswith_escape p :
  forallb (fun c => negb (html_replaced c)) p = true ->
  forall s, startswith p (html_escape s) = startswith p s.
Proof.
  induction p as [|a p IH]; intros Hp s; [reflexivity|].
  cbn [forallb] in Hp. apply andb_true_iff in Hp as [Ha Hp].
  apply negb_true_iff in Ha.
  destruct s as [|b s]; [reflexivity|]. rewrite html_escape_cons.
  destruct (html_replaced b) eqn:Eb.
  - destruct (escape_char_replaced _ Eb) as (t & -> & _).
    change ((38%N :: t) ++ html_escape s) with (38%N :: (t ++ html_escape s)).
    rewrite !startswith_cons.
    assert (E1 : (a =? 38)%N = false).
    { destruct (a =? 38)%N eqn:E; [|reflexivity]. apply N.eqb_eq in E.
      subst a. discriminate Ha. }
    assert (E2 : (a =? b)%N = false).
    { destruct (a =? b)%N eqn:E; [|reflexivity]. apply N.eqb_eq in E.
      subst a. congruence. }
    rewrite E1, E2. reflexivity.
  - rewrite (escape_char_plain _ Eb). cbn [app]. rewrite !startswith_cons.
    rewrite (IH Hp). reflexivity.
Qed.

Lemma skipn_escape p s :
  forallb (fun c => negb (html_replaced c)) p = true ->
  startswith p s = true ->
  skipn (length p) (html_escape s) = html_escape (skipn (length p) s).
Proof.
  intros Hp Hs. apply startswith_prefix in Hs. rewrite Hs at 1.
  rewrite html_escape_app, (html_escape_plain _ Hp). apply drop_app_length.
Qed.

Lemma span_until_prefix stop p s :
  forallb (fun c => negb (stop c)) p = true ->
  span_until stop (p ++ s)
  = (p ++ fst (span_until stop s), snd (span_until stop s)).
Proof.
  induction p as [|x p IH]; intros H.
  - cbn [app]. destruct (span_until stop s); reflexivity.
  - cbn [forallb] in H. apply andb_true_iff in H as [Hx Hp].
    apply negb_true_iff in Hx. cbn [app span_until]. rewrite Hx, (IH Hp).
    reflexivity.
Qed.

(** A character class that excludes no replaced character and none of the
    characters of the replacements takes the escaped text of what it takes
    of the text. *)
Lemma span_until_escape stop s :
  (forall c, stop c = true -> html_replaced c = false) ->
  (forall c, stop c = false ->
     forallb (fun x => negb (stop x)) (escape_char c) = true) ->
  span_until stop (html_escape s)
  = (html_escape (fst (span_until stop s)),
     html_escape (snd (span_until stop s))).
Proof.
  intros H1 H2. induction s as [|c s IH]; [reflexivity|].
  rewrite html_escape_cons. cbn [span_until].
  destruct (stop c) eqn:Ec.
  - rewrite (escape_char_plain _ (H1 _ Ec)). cbn [app span_until fst snd].
    rewrite Ec, html_escape_cons, (escape_char_plain _ (H1 _ Ec)).
    reflexivity.
  - rewrite (span_until_prefix _ _ _ (H2 _ Ec)), IH.
    destruct (span_until stop s) as [a b]. cbn [fst snd].
    rewrite html_escape_cons. reflexivity.
Qed.

Lemma escape_char_class (stop : char -> bool) c :
  forallb (fun x => negb (stop x)) (lit "&amp;") = true ->
  forallb (fun x => negb (stop x)) (lit "&lt;") = true ->
  forallb (fun x => negb (stop x)) (lit "&gt;") = true ->
  forallb (fun x => negb (stop x)) (lit "&quot;") = true ->
  forallb (fun x => negb (stop x)) (lit "&#x27;") = true ->
  stop c = false ->
  forallb (fun x => negb (stop x)) (escape_char c) = true.
Proof.
  intros H1 H2 H3 H4 H5 Hc. unfold escape_char.
  destruct (c =? 38)%N; [exact H1|]. destruct (c =? 60)%N; [exact H2|].
  destruct (c =? 62)%N; [exact H3|]. destruct (c =? 34)%N; [exact H4|].
  destruct (c =? 39)%N; [exact H5|].
  cbn [forallb]. rewrite Hc. reflexivity.
Qed.

Lemma nonempty_escape s : nonempty (html_escape s) = nonempty s.
Proof.
  destruct s as [|c s]; [reflexivity|]. apply nonempty_true.
  apply html_escape_nonempty. discriminate.
Qed.

(** The pattern matches at the start of the escaped text exactly when it
    matches at the start of the text; the groups are the escaped groups. *)
Lemma match_codex_escape s :
  match_codex (html_escape s) = option_map escape_groups (match_codex s).
Proof.
  unfold match_codex.
  rewrite (startswith_escape CODEX_OPEN eq_refl).
  destruct (startswith CODEX_OPEN s) eqn:E0; [|reflexivity].
  rewrite (skipn_escape CODEX_OPEN s eq_refl E0).
  rewrite span_until_escape.
  2:{ intros c Hc. apply orb_true_iff in Hc as [Hc|Hc]; apply N.eqb_eq in Hc;
        subst c; reflexivity. }
  2:{ intros c Hc. apply escape_char_class; try reflexivity. exact Hc. }
  destruct (span_until _ (skipn (length CODEX_OPEN) s)) as [g1 r1].
  cbn [fst snd]. rewrite nonempty_escape, (startswith_escape [BAR] eq_refl).
  destruct (nonempty g1 && startswith [BAR] r1) eqn:E1; [|reflexivity].
  apply andb_true_iff in E1 as [_ E1].
  pose proof (skipn_escape [BAR] r1 eq_refl E1) as Hs.
  change (length [BAR]) with 1%nat in Hs. rewrite Hs.
  rewrite span_until_escape.
  2:{ intros c Hc. apply N.eqb_eq in Hc. subst c. reflexivity. }
  2:{ intros c Hc. apply escape_char_class; try reflexivity. exact Hc. }
  destruct (span_until _ (skipn 1 r1)) as [g2 r2].
  cbn [fst snd].
  rewrite nonempty_escape, (startswith_escape [RBRACKET; RBRACKET] eq_refl).
  destruct (nonempty g2 && startswith [RBRACKET; RBRACKET] r2); reflexivity.
Qed.

Lemma finditer_hit id label post :
  clean_id id = true -> clean_label label = true ->
  finditer (CODEX_OPEN ++ id ++ BAR :: label ++ RBRACKET :: RBRACKET :: post)
  = (id, label) :: finditer post.
Proof.
  intros Hid Hl. pose proof (match_codex_hit id label post Hid Hl) as Hm.
  unfold finditer.
  change (CODEX_OPEN ++ id ++ BAR :: label ++ RBRACKET :: RBRACKET :: post)
    with (LBRACKET
          :: (lit "[codex:" ++ id ++ BAR :: label
              ++ RBRACKET :: RBRACKET :: post)) in *.
  rewrite finditer_go_0, Hm. f_equal.
  replace (length CODEX_OPEN + length id + 1 + length label + 2 - 1)%nat
    with (length (lit "[codex:" ++ id ++ BAR :: label ++ [RBRACKET; RBRACKET])).
  - replace (lit "[codex:" ++ id ++ BAR :: label ++ RBRACKET :: RBRACKET :: post)
      with ((lit "[codex:" ++ id ++ BAR :: label ++ [RBRACKET; RBRACKET])
            ++ post).
    + apply finditer_go_skip.
    + rewrite <- !app_assoc. simpl. rewrite <- !app_assoc. reflexivity.
  - rewrite !length_app. simpl. rewrite !length_app. simpl. lia.
Qed.

Lemma finditer_escape_bounded n :
  forall s, (length s <= n)%nat ->
    finditer (html_escape s) = map escape_groups (finditer s).
Proof.
  induction n as [|n IH]; intros s Hn.
  - destruct s; [reflexivity|simpl in Hn; lia].
  - destruct s as [|c r]; [reflexivity|].
    destruct (match_codex (c :: r)) as [[g1 g2]|] eqn:Em.
    + destruct (match_codex_shape _ _ _ Em) as (H1 & H2 & rest & E).
      rewrite E, (finditer_hit _ _ _ H1 H2).
      rewrite !html_escape_app, html_escape_cons, !html_escape_app.
      rewrite !html_escape_cons.
      rewrite (html_escape_plain CODEX_OPEN eq_refl).
      change (escape_char BAR) with [BAR].
      change (escape_char RBRACKET) with [RBRACKET]. cbn [app].
      pose proof (match_codex_escape (c :: r)) as Hm. rewrite Em in Hm.
      apply match_codex_shape in Hm as (H1' & H2' & _). cbn [fst snd] in *.
      rewrite (finditer_hit _ _ _ H1' H2'). cbn [map]. f_equal.
      apply IH. apply (f_equal (@length char)) in E.
      rewrite !length_app in E. cbn [length] in E, Hn.
      rewrite !length_app in E. cbn [length] in E. lia.
    + assert (Hr : finditer (c :: r) = finditer r).
      { unfold finditer. rewrite finditer_go_0, Em. reflexivity. }
      rewrite Hr, <- (IH r) by (simpl in Hn; lia).
      destruct (html_replaced c) eqn:Ec.
      * rewrite html_escape_cons.
        destruct (escape_char_replaced _ Ec) as (t & Et & Hb).
        apply finditer_prefix. rewrite Et. cbn [forallb].
        apply andb_true_iff. split; [reflexivity|exact Hb].
      * pose proof (match_codex_escape (c :: r)) as Hm. rewrite Em in Hm.
        rewrite html_escape_cons, (escape_char_plain _ Ec) in *.
        cbn [app] in *. unfold finditer. rewrite finditer_go_0, Hm.
        reflexivity.
Qed.

Lemma inline_format_star_free text :
  star_free text = true -> inline_format text = html_escape text.
Proof.
  intros H. unfold inline_format.
  pose proof (html_escape_star_free text H) as Hs.
  rewrite (sub_emph_star_free 3), (sub_emph_star_free 2),
    (sub_emph_star_free 1) by (lia || exact Hs).
  reflexivity.
Qed.

(** Property X16.
    Escaping a text neither hides nor invents a shortcode: the matches of
    the pattern in the escaped text are the matches in the text, with both
    groups escaped. So are the matches in the formatted text, if the text
    has no star. *)
Theorem escaping_keeps_the_shortcodes :
  (forall text,
     finditer (html_escape text) = map escape_groups (finditer text))
  /\ (forall text, star_free text = true ->
        finditer (inline_format text) = map escape_groups (finditer text)).
Proof.
  split.
  - intros text. apply (finditer_escape_bounded (length text)). lia.
  - intros text H. rewrite (inline_format_star_free _ H).
    apply (finditer_escape_bounded (length text)). lia.
Qed.

Lemma escaping_keeps_the_shortcodes_witness :
  let text := lit "See [[codex:a&b|the <A>]] here" in
  star_free text = true
  /\ finditer (inline_format text) = [(lit "a&amp;b", lit "the &lt;A&gt;")].
Proof.
  intros text.
  assert (H : star_free text = true) by reflexivity.
  split; [exact H|].
  destruct escaping_keeps_the_shortcodes as [_ Hf].
  rewrite (Hf text H). vm_compute. reflexivity.
Defined.
